(** * n8n "Advance Gemini" node: a shallow embedding of its media pipeline

    The development follows the TypeScript sources of the node:
    - [nodes/Gemini/Gemini.node.ts] (the [execute] method, in its latest
      revision with the generateVideo and generateLivePhoto branches),
    - [nodes/Gemini/utils/videoUtils.ts] ([VideoUtils]),
    - [nodes/Gemini/utils/s3Utils.ts] ([S3Utils]),
    - [nodes/Gemini/descriptions/*.ts] (parameter schemas and voice tables).

    JavaScript strings are sequences of UTF-16 code units; they are modelled
    as lists of [N], so that the character classes of the source (white space
    removed by [trim], the control ranges of the message sanitizer, the
    identifier class of the file-id pattern) are the ranges the engine uses.
    Effects (network calls, timers, the clock, the random generator, the
    file system, ffmpeg) are explicit: each function takes the outcomes of
    the effects it performs as an argument and returns the trace of what it
    did next to its result. *)

From Stdlib Require Import ZArith NArith QArith Qround Lia String Ascii Bool DecimalString.
From stdpp Require Import base list gmap sets.

Local Open Scope N_scope.

(** ** JavaScript values used by the node *)

Module JS.

Definition jsstring := list N.

(** A literal of the source, as code units. *)
Definition js (s : string) : jsstring :=
  map N_of_ascii (list_ascii_of_string s).

(** Truthiness of a possibly-undefined string: [undefined] and [''] are
    falsy, every other string is truthy. *)
Definition truthy (o : option jsstring) : bool :=
  match o with
  | Some (_ :: _) => true
  | _ => false
  end.

(** Template-literal interpolation of a possibly-undefined string. *)
Definition interp (o : option jsstring) : jsstring :=
  match o with
  | Some s => s
  | None => js "undefined"
  end.

(** [WhiteSpace] and [LineTerminator] code units (ECMA-262, 12.2 and 12.3):
    what [String.prototype.trim] and [parseInt] strip. *)
Definition isWhiteSpace (c : N) : bool :=
  (c =? 0x09) || (c =? 0x0A) || (c =? 0x0B) || (c =? 0x0C) || (c =? 0x0D)
  || (c =? 0x20) || (c =? 0xA0) || (c =? 0x1680)
  || ((0x2000 <=? c) && (c <=? 0x200A))
  || (c =? 0x2028) || (c =? 0x2029) || (c =? 0x202F) || (c =? 0x205F)
  || (c =? 0x3000) || (c =? 0xFEFF).

Fixpoint trimStart (s : jsstring) : jsstring :=
  match s with
  | c :: s' => if isWhiteSpace c then trimStart s' else s
  | [] => []
  end.

Definition trimEnd (s : jsstring) : jsstring := rev (trimStart (rev s)).

(** [s.trim()] *)
Definition trim (s : jsstring) : jsstring := trimEnd (trimStart s).

(** [s.startsWith(p)] *)
Fixpoint startsWith (p s : jsstring) : bool :=
  match p, s with
  | [], _ => true
  | a :: p', b :: s' => (a =? b) && startsWith p' s'
  | _ :: _, [] => false
  end.

(** [s.includes(p)] *)
Fixpoint includes (p s : jsstring) : bool :=
  startsWith p s ||
  match s with
  | [] => false
  | _ :: s' => includes p s'
  end.

(** [s.substring(0, n)] *)
Definition substring0 (n : nat) (s : jsstring) : jsstring := take n s.

(** [s.split(sep)] for a non-empty separator.  [skip] counts the code
    units of a separator occurrence that are still to be passed over;
    [cur] is the current piece, reversed. *)
Fixpoint splitGo (sep : jsstring) (skip : nat) (cur s : jsstring)
  : list jsstring :=
  match s with
  | [] => [rev cur]
  | c :: s' =>
      match skip with
      | S k => splitGo sep k cur s'
      | O =>
          if startsWith sep s
          then rev cur :: splitGo sep (length sep - 1) [] s'
          else splitGo sep 0 (c :: cur) s'
      end
  end.

Definition split (sep s : jsstring) : list jsstring := splitGo sep 0 [] s.

(** [arr.join(sep)] on an array of strings. *)
Fixpoint join (sep : jsstring) (l : list jsstring) : jsstring :=
  match l with
  | [] => []
  | [x] => x
  | x :: l' => x ++ sep ++ join sep l'
  end.

(** [s.replace(/\/$/, '')]: one trailing slash is removed. *)
Definition stripTrailingSlash (s : jsstring) : jsstring :=
  match rev s with
  | c :: r => if c =? 0x2F then rev r else s
  | [] => s
  end.

Definition isDigit (c : N) : bool := (0x30 <=? c) && (c <=? 0x39).
Definition isUpper (c : N) : bool := (0x41 <=? c) && (c <=? 0x5A).
Definition isLower (c : N) : bool := (0x61 <=? c) && (c <=? 0x7A).

(** [s.match(/^[a-zA-Z0-9_-]+$/)] as a truth value (no flags: [^] and [$]
    are the ends of the input). *)
Definition isIdChar (c : N) : bool :=
  isLower c || isUpper c || isDigit c || (c =? 0x5F) || (c =? 0x2D).

Definition matchesFileId (s : jsstring) : bool :=
  match s with
  | [] => false
  | _ :: _ => forallb isIdChar s
  end.

(** Decimal digits of a number and [parseInt(s, 10)]: leading white space,
    an optional sign, then the longest run of decimal digits; [None] is
    [NaN]. *)
Fixpoint digitsValue (acc : Z) (s : jsstring) : Z :=
  match s with
  | c :: s' =>
      if isDigit c then digitsValue (10 * acc + (Z.of_N c - 48)) s' else acc
  | [] => acc
  end.

Definition parseDigits (s : jsstring) : option Z :=
  match s with
  | c :: _ => if isDigit c then Some (digitsValue 0 s) else None
  | [] => None
  end.

Definition parseInt10 (s : jsstring) : option Z :=
  match trimStart s with
  | c :: s' =>
      if c =? 0x2D then Z.opp <$> parseDigits s'
      else if c =? 0x2B then parseDigits s'
      else parseDigits (c :: s')
  | [] => None
  end.

(** *** [decodeURIComponent]

    The [Decode] operation of ECMA-262 with an empty reserved set: each
    escape [%XX] stands for an octet, an octet below 0x80 for itself, and a
    longer UTF-8 sequence (all of whose octets must be escapes) for its code
    point, written as one or two code units.  [None] is the [URIError]
    thrown on a truncated or non-hexadecimal escape or an octet sequence
    that is not well-formed UTF-8. *)
Definition hexValue (c : N) : option N :=
  if isDigit c then Some (c - 0x30)
  else if (0x41 <=? c) && (c <=? 0x46) then Some (c - 0x41 + 10)
  else if (0x61 <=? c) && (c <=? 0x66) then Some (c - 0x61 + 10)
  else None.

(** The octet of an escape at the head of [s], and what follows it. *)
Definition percentOctet (s : jsstring) : option (N * jsstring) :=
  match s with
  | c :: h :: l :: rest =>
      if c =? 0x25 then
        hi ← hexValue h; lo ← hexValue l; Some (16 * hi + lo, rest)
      else None
  | _ => None
  end.

(** [n] escaped continuation octets ([10xxxxxx]) at the head of [s]. *)
Fixpoint continuationOctets (n : nat) (s : jsstring)
  : option (list N * jsstring) :=
  match n with
  | O => Some ([], s)
  | S n' =>
      '(b, rest) ← percentOctet s;
      if N.land b 0xC0 =? 0x80 then
        '(bs, rest') ← continuationOctets n' rest;
        Some (b :: bs, rest')
      else None
  end.

(** Number of continuation octets announced by a leading octet. *)
Definition continuationCount (b : N) : option nat :=
  if b <? 0x80 then Some 0%nat
  else if b <? 0xC0 then None
  else if b <? 0xE0 then Some 1%nat
  else if b <? 0xF0 then Some 2%nat
  else if b <? 0xF8 then Some 3%nat
  else None.

(** The code point of a UTF-8 sequence, when it is well formed (shortest
    form, no surrogate, at most 0x10FFFF). *)
Definition utf8CodePoint (b : N) (bs : list N) : option N :=
  match bs with
  | [] => if b <? 0x80 then Some b else None
  | [b1] =>
      let cp := N.lor (N.shiftl (N.land b 0x1F) 6) (N.land b1 0x3F) in
      if 0x80 <=? cp then Some cp else None
  | [b1; b2] =>
      let cp := N.lor (N.shiftl (N.land b 0x0F) 12)
                  (N.lor (N.shiftl (N.land b1 0x3F) 6) (N.land b2 0x3F)) in
      if (0x800 <=? cp) && negb ((0xD800 <=? cp) && (cp <=? 0xDFFF))
      then Some cp else None
  | [b1; b2; b3] =>
      let cp := N.lor (N.shiftl (N.land b 0x07) 18)
                  (N.lor (N.shiftl (N.land b1 0x3F) 12)
                     (N.lor (N.shiftl (N.land b2 0x3F) 6) (N.land b3 0x3F))) in
      if (0x10000 <=? cp) && (cp <=? 0x10FFFF) then Some cp else None
  | _ => None
  end.

(** The UTF-16 code units of a code point. *)
Definition codeUnits (cp : N) : jsstring :=
  if cp <? 0x10000 then [cp]
  else
    let v := cp - 0x10000 in
    [0xD800 + N.shiftr v 10; 0xDC00 + N.land v 0x3FF].

Fixpoint decodeGo (fuel : nat) (s : jsstring) : option jsstring :=
  match s with
  | [] => Some []
  | c :: rest =>
      match fuel with
      | O => None
      | S fuel' =>
          if c =? 0x25 then
            '(b, rest1) ← percentOctet s;
            n ← continuationCount b;
            '(bs, rest2) ← continuationOctets n rest1;
            cp ← utf8CodePoint b bs;
            tail ← decodeGo fuel' rest2;
            Some (codeUnits cp ++ tail)
          else
            tail ← decodeGo fuel' rest;
            Some (c :: tail)
      end
  end.

(** Every step consumes at least one code unit, so the length of the input
    is enough fuel. *)
Definition decodeURIComponent (s : jsstring) : option jsstring :=
  decodeGo (length s) s.

(** An integer-valued number in a template literal. *)
Definition showZ (z : Z) : jsstring :=
  js (NilZero.string_of_int (Z.to_int z)).

(** What the node reads of a thrown value. *)
Record jsError := {
  code : option jsstring;
  name : option jsstring;
  message : option jsstring;
}.

(** [new Error(msg)] *)
Definition mkError (msg : jsstring) : jsError :=
  {| code := None; name := Some (js "Error"); message := Some msg |}.

(** *** The message of a [NodeOperationError]

    [NodeOperationError] is a class of n8n-workflow, not of this
    repository.  Its constructor hands the message to
    [NodeError.setDescriptiveErrorMessage] (n8n-workflow,
    [errors/abstract/node.error.ts]), which is modelled here after the
    library: a message that mentions one of the [COMMON_ERRORS] codes, in
    any letter case, is replaced by the description of the first such
    code of the table. *)

(** The upper case of a code unit whose upper case contains a Basic Latin
    letter: the letters [a]-[z], dotless i and long s, and the code units
    that [String.prototype.toUpperCase] expands (sharp s, the Latin
    ligatures, and six letters with a combining mark).  Every other code
    unit is kept: its upper case has no Basic Latin letter and no low
    line, so that keeping it does not change where an error code occurs
    in the upper case of a string. *)
Definition upperUnit (c : N) : jsstring :=
  if isLower c then [c - 0x20]
  else if c =? 0xDF then [0x53; 0x53]
  else if c =? 0x131 then [0x49]
  else if c =? 0x149 then [0x2BC; 0x4E]
  else if c =? 0x17F then [0x53]
  else if c =? 0x1F0 then [0x4A; 0x30C]
  else if c =? 0x1E96 then [0x48; 0x331]
  else if c =? 0x1E97 then [0x54; 0x308]
  else if c =? 0x1E98 then [0x57; 0x30A]
  else if c =? 0x1E99 then [0x59; 0x30A]
  else if c =? 0x1E9A then [0x41; 0x2BE]
  else if c =? 0xFB00 then [0x46; 0x46]
  else if c =? 0xFB01 then [0x46; 0x49]
  else if c =? 0xFB02 then [0x46; 0x4C]
  else if c =? 0xFB03 then [0x46; 0x46; 0x49]
  else if c =? 0xFB04 then [0x46; 0x46; 0x4C]
  else if c =? 0xFB05 then [0x53; 0x54]
  else if c =? 0xFB06 then [0x53; 0x54]
  else [c].

(** [s.toUpperCase()], as far as Basic Latin letters go. *)
Definition toUpperCase (s : jsstring) : jsstring := flat_map upperUnit s.

(** The table [COMMON_ERRORS], in the order of its keys. *)
Definition COMMON_ERRORS : list (jsstring * jsstring) :=
  [ (js "ECONNREFUSED",
     js "The service refused the connection - perhaps it is offline");
    (js "ECONNRESET",
     js "The connection to the server was closed unexpectedly, perhaps it is offline. You can retry the request immediately or wait and retry later.");
    (js "ENOTFOUND",
     js "The connection cannot be established, this usually occurs due to an incorrect host (domain) value");
    (js "ETIMEDOUT",
     js "The connection timed out, consider setting the 'Retry on Fail' option in the node settings");
    (js "ERRADDRINUSE",
     js "The port is already occupied by some other application, if possible change the port or kill the application that is using it");
    (js "EADDRNOTAVAIL",
     js "The address is not available, ensure that you have the right IP address");
    (js "ECONNABORTED",
     js "The connection was aborted, perhaps the server is offline");
    (js "EHOSTUNREACH",
     js "The host is unreachable, perhaps the server is offline");
    (js "EAI_AGAIN",
     js "The DNS server returned an error, perhaps the server is offline");
    (js "ENOENT", js "The file or directory does not exist");
    (js "EISDIR",
     js "The file path was expected but the given path is a directory");
    (js "ENOTDIR",
     js "The directory path was expected but the given path is a file");
    (js "EACCES",
     js "Forbidden by access permissions, make sure you have the right permissions");
    (js "EEXIST", js "The file or directory already exists");
    (js "EPERM",
     js "Operation not permitted, make sure you have the right permissions");
    (js "GETADDRINFO", js "The server closed the connection unexpectedly") ]%string.

(** [message.toUpperCase().includes(errorCode.toUpperCase())] *)
Definition mentions (errorCode msg : jsstring) : bool :=
  includes (toUpperCase errorCode) (toUpperCase msg).

(** [setDescriptiveErrorMessage(message, ...)[0]], without message mapping
    and without error code. *)
Definition setDescriptiveErrorMessage (msg : jsstring) : jsstring :=
  match List.find (λ entry, mentions entry.1 msg) COMMON_ERRORS with
  | Some entry => entry.2
  | None => msg
  end.

(** [new NodeOperationError(node, msg)], and [new NodeOperationError(node,
    error)] for an [Error] whose message is [msg]. *)
Definition nodeOperationError (msg : jsstring) : jsError :=
  {| code := None; name := Some (js "NodeOperationError");
     message := Some (setDescriptiveErrorMessage msg) |}.

(** Binary data ([Buffer]): a sequence of bytes. *)
Definition Buffer := list N.

(** The delay Node.js gives a timer: a delay below 1 or above 2^31-1 is set
    to 1 millisecond. *)
Definition timerDelay (ms : Z) : Z :=
  if ((1 <=? ms) && (ms <=? 2147483647))%Z then ms else 1%Z.

(** *** Effectful code

    An asynchronous function that may throw is a state transformer that
    returns either the thrown value or its result; [S] holds what the
    function can observe or change of the world. *)
Definition M (S A : Type) : Type := S → (jsError + A) * S.

#[global] Instance M_ret {S} : MRet (M S) := λ A a s, (inr a, s).

#[global] Instance M_bind {S} : MBind (M S) := λ A B k m s,
  match m s with
  | (inr a, s') => k a s'
  | (inl e, s') => (inl e, s')
  end.

(** [throw e] *)
Definition throw {S A} (e : jsError) : M S A := λ s, (inl e, s).

(** [try { m } catch (error) { h error }] *)
Definition tryCatch {S A} (m : M S A) (h : jsError → M S A) : M S A := λ s,
  match m s with
  | (inl e, s') => h e s'
  | (inr a, s') => (inr a, s')
  end.

Definition getState {S} : M S S := λ s, (inr s, s).
Definition modifyState {S} (f : S → S) : M S () := λ s, (inr (), f s).

(** A call whose outcome the environment decides. *)
Definition liftResult {S A} (r : jsError + A) : M S A := λ s, (r, s).

End JS.

Import JS.

(** One step of a computation in [M]: the binds and returns are opened. *)
Ltac monad_unfold := unfold mbind, M_bind, mret, M_ret.

(** ** nodes/Gemini/utils/videoUtils.ts *)

Module VideoUtils.

Record VideoObject := { uri : jsstring }.

Definition providerHost : jsstring := js "generativelanguage.googleapis.com".

Definition invalidFormatMessage (trimmedUri : jsstring) : jsstring :=
  js "Invalid video URI format. Expected a Gemini files API URI like:" ++ [0x0A]
  ++ js "- Full URL: https://generativelanguage.googleapis.com/v1beta/files/abc123" ++ [0x0A]
  ++ js "- Files path: files/abc123" ++ [0x0A]
  ++ js "- File ID: abc123" ++ [0x0A]
  ++ js "Received: " ++ substring0 100 trimmedUri ++ js "...".

(** [VideoUtils.createVideoObject]; [inl] is the thrown [Error]. *)
Definition createVideoObject (videoUri : jsstring) : jsError + VideoObject :=
  if negb (truthy (Some videoUri)) || negb (truthy (Some (trim videoUri)))
  then inl (mkError (js "Video URI cannot be empty"))
  else
    let trimmedUri := trim videoUri in
    let isValidFormat :=
      includes providerHost trimmedUri
      || startsWith (js "files/") trimmedUri
      || matchesFileId trimmedUri in
    if negb isValidFormat
    then inl (mkError (invalidFormatMessage trimmedUri))
    else
      let finalUri :=
        if matchesFileId trimmedUri
        then js "files/" ++ trimmedUri
        else trimmedUri in
      inr {| uri := finalUri |}.

Record VideoGenerationImage := {
  imageBytes : jsstring;
  mimeType : jsstring;
}.

(** The [params] object handed to [validateParameters]. *)
Record validationParams := {
  vp_videoPrompt : jsstring;
  vp_startFrameUrl : jsstring;
  vp_referenceImages : list jsstring;
  vp_inputVideoUri : jsstring;
}.

Definition blank (s : jsstring) : bool :=
  negb (truthy (Some s)) || negb (truthy (Some (trim s))).

(** [VideoUtils.validateParameters]: [inl] is the thrown
    [NodeOperationError]. *)
Definition validateParameters (mode : jsstring) (params : validationParams)
  : jsError + () :=
  if decide (mode = js "textToVideo") then
    if blank (vp_videoPrompt params)
    then inl (nodeOperationError (js "Video prompt is required for text-to-video mode"))
    else inr ()
  else if decide (mode = js "framesToVideo") then
    if blank (vp_startFrameUrl params)
    then inl (nodeOperationError (js "Start frame URL is required for frames-to-video mode"))
    else inr ()
  else if decide (mode = js "referencesToVideo") then
    if bool_decide (length (vp_referenceImages params) = 0%nat)
    then inl (nodeOperationError
                (js "At least one reference image is required for references-to-video mode"))
    else inr ()
  else if decide (mode = js "extendVideo") then
    if blank (vp_inputVideoUri params)
    then inl (nodeOperationError (js "Input video URI is required for extend-video mode"))
    else inr ()
  else inl (nodeOperationError (js "Unknown generation mode: " ++ mode)).

(** The config object built by [buildVideoConfig] and completed by
    [execute].  A missing member is [None]; [durationSeconds] holds the
    result of [parseInt], [Some None] being [NaN]. *)
Record videoConfig := {
  numberOfVideos : Z;
  resolution : jsstring;
  aspectRatio : option jsstring;
  durationSeconds : option (option Z);
  personGeneration : option jsstring;
  lastFrame : option VideoGenerationImage;
  referenceImages : option (list (VideoGenerationImage * jsstring));
}.

(** [VideoUtils.buildVideoConfig] *)
Definition buildVideoConfig (p_resolution : jsstring)
    (p_aspectRatio : option jsstring) (p_numberOfVideos : option Z)
  : videoConfig :=
  {| numberOfVideos :=
       match p_numberOfVideos with
       | Some n => if (n =? 0)%Z then 1%Z else n
       | None => 1%Z
       end;
     resolution := p_resolution;
     aspectRatio := if truthy p_aspectRatio then p_aspectRatio else None;
     durationSeconds := None;
     personGeneration := None;
     lastFrame := None;
     referenceImages := None |}.

(** *** [removeAudioFromVideo]

    The function works on two files of the temporary directory and runs
    ffmpeg as a subprocess.  The state is the content of the temporary
    directory; the environment decides what [Date.now()] and [tmpdir()]
    return, whether a file can be written, and what the subprocess does
    with its input ([None]: it exits with an error, times out, or the tool
    is missing). *)
Record fsEnv := {
  dateNow : Z;
  tmpdir : jsstring;
  writable : jsstring → bool;
  ffmpegStripAudio : Buffer → option Buffer;
}.

Abbreviation fsState := (gmap jsstring Buffer).

Definition writeFile (env : fsEnv) (path : jsstring) (data : Buffer)
  : M fsState () := λ fs,
  if writable env path then (inr (), <[path := data]> fs)
  else (inl {| code := Some (js "EACCES"); name := Some (js "Error");
               message := Some (js "EACCES: permission denied, open") |}, fs).

Definition readFile (path : jsstring) : M fsState Buffer := λ fs,
  match fs !! path with
  | Some data => (inr data, fs)
  | None => (inl {| code := Some (js "ENOENT"); name := Some (js "Error");
                    message := Some (js "ENOENT: no such file or directory, open") |}, fs)
  end.

Definition unlink (path : jsstring) : M fsState () := λ fs,
  match fs !! path with
  | Some _ => (inr (), delete path fs)
  | None => (inl {| code := Some (js "ENOENT"); name := Some (js "Error");
                    message := Some (js "ENOENT: no such file or directory, unlink") |}, fs)
  end.

(** [execAsync(`ffmpeg -i "${inputPath}" -c:v copy -an "${outputPath}"`)] *)
Definition execFfmpegCopyNoAudio (env : fsEnv) (inputPath outputPath : jsstring)
  : M fsState () := λ fs,
  match fs !! inputPath ≫= ffmpegStripAudio env with
  | Some out => (inr (), <[outputPath := out]> fs)
  | None => (inl {| code := None; name := Some (js "Error");
                    message := Some (js "Command failed: ffmpeg") |}, fs)
  end.

(** [path.join(tmpdir(), `${prefix}${tempId}.mp4`)] *)
Definition tempPath (env : fsEnv) (pre : jsstring) : jsstring :=
  tmpdir env ++ js "/" ++ pre ++ showZ (dateNow env) ++ js ".mp4".

(** [VideoUtils.removeAudioFromVideo] *)
Definition removeAudioFromVideo (env : fsEnv) (videoBuffer : Buffer)
  : M fsState (Buffer * bool) :=
  let inputPath := tempPath env (js "input_") in
  let outputPath := tempPath env (js "output_") in
  tryCatch
    (writeFile env inputPath videoBuffer;;
     execFfmpegCopyNoAudio env inputPath outputPath;;
     processedBuffer ← readFile outputPath;
     tryCatch (unlink inputPath;; unlink outputPath) (λ cleanupError, mret ());;
     mret (processedBuffer, true))
    (λ error,
     tryCatch
       (tryCatch (unlink inputPath) (λ _, mret ());;
        tryCatch (unlink outputPath) (λ _, mret ()))
       (λ cleanupError, mret ());;
     mret (videoBuffer, false)).

(** *** [extractFileIdFromUri]

    [uri.match(/files\/([^/?]+)/)]: the engine tries the positions of [uri]
    from left to right.  At a position the pattern matches when [files/] is
    followed by at least one code unit other than [/] and [?]; the group is
    the longest run of such code units. *)
Definition isSegmentEnd (c : N) : bool := (c =? 0x2F) || (c =? 0x3F).

(** The longest prefix matched by [[^/?]*]. *)
Fixpoint segment (s : jsstring) : jsstring :=
  match s with
  | c :: s' => if isSegmentEnd c then [] else c :: segment s'
  | [] => []
  end.

(** The group of a match that starts at the head of [s]. *)
Definition matchFilesAt (s : jsstring) : option jsstring :=
  if startsWith (js "files/") s then
    match segment (drop 6 s) with
    | [] => None
    | c :: id => Some (c :: id)
    end
  else None.

(** The group of the leftmost match. *)
Fixpoint matchFiles (s : jsstring) : option jsstring :=
  match matchFilesAt s with
  | Some id => Some id
  | None =>
      match s with
      | _ :: s' => matchFiles s'
      | [] => None
      end
  end.

(** [VideoUtils.extractFileIdFromUri]; [inl] is the thrown [Error]. *)
Definition extractFileIdFromUri (uri : jsstring) : jsError + jsstring :=
  match matchFiles uri with
  | Some id =>
      if truthy (Some id) then inr id
      else inl (mkError (js "Could not extract file ID from URI: " ++ uri))
  | None => inl (mkError (js "Could not extract file ID from URI: " ++ uri))
  end.


(** *** [checkFfmpegAvailable] and [createLivePhotoVideo]

    The subprocesses [execAsync] starts, as the environment decides them:
    the outcome of [ffmpeg -version] ([None]: it ran), and what ffmpeg makes
    of the content of its input file when run with a given command line
    (the bytes it writes to its output file, or the error [execAsync]
    rejects with). *)
Record ffmpegEnv := {
  execVersion : option jsError;
  ffmpegRun : jsstring → Buffer → jsError + Buffer;
}.

(** [VideoUtils.checkFfmpegAvailable] *)
Definition checkFfmpegAvailable (tool : ffmpegEnv) : bool :=
  match execVersion tool with
  | None => true
  | Some error => false
  end.

(** The [dimensions] constant of [createLivePhotoVideo]. *)
Definition livePhotoDimensions (aspectRatio : jsstring) : Z * Z :=
  if decide (aspectRatio = js "9:16") then (720, 1280)%Z else (1280, 720)%Z.

(** The [ffmpegCmd] constant; [0x22] is the double quote. *)
Definition livePhotoCommand (videoPath outputPath aspectRatio : jsstring)
  : jsstring :=
  let width := showZ (livePhotoDimensions aspectRatio).1 in
  let height := showZ (livePhotoDimensions aspectRatio).2 in
  js "ffmpeg -i " ++ [0x22] ++ videoPath ++ [0x22] ++ js " "
  ++ js "-filter_complex " ++ [0x22]
  ++ js "[0:v]fps=24,scale=" ++ width ++ js ":" ++ height
  ++ js ":force_original_aspect_ratio=decrease,pad=" ++ width ++ js ":" ++ height
  ++ js ":(ow-iw)/2:(oh-ih)/2,setsar=1,format=yuv420p[v]; "
  ++ js "[v]trim=0:4,setpts=PTS-STARTPTS[vtrim]; "
  ++ js "[vtrim]split[v1][v2]; "
  ++ js "[v1]trim=3:4,geq=lum='p(X,Y)':cb='p(X,Y)':cr='p(X,Y)',loop=24:1[freeze]; "
  ++ js "[v2][freeze]overlay=shortest=1:enable='between(t,3,4)'[outv]"
  ++ [0x22] ++ js " -map " ++ [0x22] ++ js "[outv]" ++ [0x22]
  ++ js " -t 4 -an -c:v libx264 -preset fast -crf 23 -pix_fmt yuv420p "
  ++ [0x22] ++ outputPath ++ [0x22].

(** [await execAsync(command)] for a command line that makes ffmpeg read
    [inputPath] and write [outputPath]. *)
Definition execFfmpeg (tool : ffmpegEnv) (command inputPath outputPath : jsstring)
  : M fsState () := λ fs,
  match fs !! inputPath with
  | Some input =>
      match ffmpegRun tool command input with
      | inr out => (inr (), <[outputPath := out]> fs)
      | inl error => (inl error, fs)
      end
  | None => (inl {| code := None; name := Some (js "Error");
                    message := Some (js "Command failed: ffmpeg") |}, fs)
  end.

(** [VideoUtils.createLivePhotoVideo]; [aspectRatio] defaults to ['16:9']
    when not given. *)
Definition createLivePhotoVideo (env : fsEnv) (tool : ffmpegEnv)
    (videoBuffer : Buffer) (aspectRatio : option jsstring) : M fsState Buffer :=
  let aspectRatio := default (js "16:9") aspectRatio in
  let videoPath := tempPath env (js "livephoto_video_") in
  let outputPath := tempPath env (js "livephoto_output_") in
  tryCatch
    (writeFile env videoPath videoBuffer;;
     let ffmpegCmd := livePhotoCommand videoPath outputPath aspectRatio in
     execFfmpeg tool ffmpegCmd videoPath outputPath;;
     processedBuffer ← readFile outputPath;
     tryCatch (unlink videoPath;; unlink outputPath) (λ cleanupError, mret ());;
     mret processedBuffer)
    (λ error,
     tryCatch
       (tryCatch (unlink videoPath) (λ _, mret ());;
        tryCatch (unlink outputPath) (λ _, mret ()))
       (λ cleanupError, mret ());;
     throw (mkError (js "Failed to create live photo video: "
                     ++ interp (message error)))).

End VideoUtils.

(** ** nodes/Gemini/utils/s3Utils.ts *)

Module S3Utils.

(** The fields read from the [s3] credentials; a missing or empty member is
    falsy. *)
Record credentials := {
  region : option jsstring;
  accessKeyId : jsstring;
  secretAccessKey : jsstring;
  endpoint : option jsstring;
  forcePathStyle : bool;
}.

(** What an upload does that can be observed from outside, in order. *)
Inductive event :=
  | EvUploadDone (attempt : Z)   (* [await upload.done()] in iteration [attempt] *)
  | EvSleep (ms : Z).            (* [await] of a [setTimeout(resolve, ms)] promise *)

#[global] Instance event_eq_dec : EqDecision event.
Proof. solve_decision. Defined.

(** The environment of one call: the credentials lookup, the [mime] table,
    the identifier [ulid()] returns, and the outcome of each call of
    [upload.done()], numbered from 0 ([None]: resolved, [Some e]: rejected
    with [e]). *)
Record s3Env := {
  getCredentials : option credentials;
  getExtension : jsstring → option jsstring;
  ulid : jsstring;
  uploadDone : nat → option jsError;
}.

Record s3State := {
  doneCalls : nat;
  elapsed : Z;
  trace : list event;   (* latest first *)
}.

Definition initialState : s3State :=
  {| doneCalls := 0; elapsed := 0; trace := [] |}.

(** [await upload.done()] *)
Definition awaitUploadDone (env : s3Env) (attempt : Z) : M s3State () := λ st,
  let st' := {| doneCalls := S (doneCalls st); elapsed := elapsed st;
                trace := EvUploadDone attempt :: trace st |} in
  match uploadDone env (doneCalls st) with
  | None => (inr (), st')
  | Some e => (inl e, st')
  end.

(** [await new Promise(resolve => setTimeout(resolve, delay))] *)
Definition sleep (delay : Z) : M s3State () := λ st,
  (inr (), {| doneCalls := doneCalls st;
              elapsed := (elapsed st + timerDelay delay)%Z;
              trace := EvSleep delay :: trace st |}).

(** The [publicUrl] computed in the [try] block once the upload is done. *)
Definition publicUrl (publicDomain endpoint : option jsstring)
    (forcePathStyle : bool) (region bucketName fileName : jsstring) : jsstring :=
  if truthy publicDomain && truthy (trim <$> publicDomain) then
    let cleanDomain := stripTrailingSlash (interp publicDomain) in
    cleanDomain ++ js "/" ++ fileName
  else if truthy endpoint then
    let cleanEndpoint := stripTrailingSlash (interp endpoint) in
    if forcePathStyle then
      cleanEndpoint ++ js "/" ++ bucketName ++ js "/" ++ fileName
    else
      let protocol := split (js "://") cleanEndpoint !! 0%nat in
      let domain := split (js "://") cleanEndpoint !! 1%nat in
      interp protocol ++ js "://" ++ bucketName ++ js "." ++ interp domain
      ++ js "/" ++ fileName
  else
    js "https://" ++ bucketName ++ js ".s3." ++ region ++ js ".amazonaws.com/"
    ++ fileName.

Definition isNetworkError (error : jsError) : bool :=
  bool_decide (code error = Some (js "ENOTFOUND"))
  || bool_decide (code error = Some (js "EAI_AGAIN"))
  || bool_decide (name error = Some (js "TimeoutError")).

(** How one iteration of the retry loop ends. *)
Inductive iteration :=
  | Return (publicUrl : jsstring)
  | Break (lastError : jsError)
  | Continue (lastError : jsError).

(** The body of [for (let attempt = 1; attempt <= maxRetries; attempt++)]. *)
Definition attemptOnce (env : s3Env) (url : jsstring) (maxRetries attempt : Z)
  : M s3State iteration :=
  tryCatch
    (awaitUploadDone env attempt;;
     mret (Return url))
    (λ error,
     if (attempt =? maxRetries)%Z || negb (isNetworkError error)
     then mret (Break error)
     else
       let delay := (2 ^ attempt * 100)%Z in
       sleep delay;;
       mret (Continue error)).

(** The loop; [remaining] is the number of values of [attempt] up to
    [maxRetries] still to be tried.  The result is the returned URL, or the
    value of [lastError] when the loop is left without returning. *)
Fixpoint retryLoop (env : s3Env) (url : jsstring) (maxRetries : Z)
    (remaining : nat) (attempt : Z) (lastError : option jsError)
  : M s3State (jsstring + option jsError) :=
  match remaining with
  | O => mret (inr lastError)
  | S remaining' =>
      it ← attemptOnce env url maxRetries attempt;
      match it with
      | Return u => mret (inl u)
      | Break e => mret (inr (Some e))
      | Continue e =>
          retryLoop env url maxRetries remaining' (attempt + 1)%Z (Some e)
      end
  end.

Definition failureMessage (maxRetries : Z) (lastError : option jsError)
  : jsstring :=
  js "Failed to upload to S3 after " ++ showZ maxRetries ++ js " attempts: "
  ++ interp (lastError ≫= message).

(** The object key: the [fileName] constant of [uploadToS3], with the
    default prefix ['img'] and the fallback extension ['bin']. *)
Definition fileName (env : s3Env) (mimeType : jsstring)
    (fileNamePrefix : option jsstring) : jsstring :=
  let fileNamePrefix := default (js "img") fileNamePrefix in
  let fileExtension :=
    if truthy (getExtension env mimeType)
    then interp (getExtension env mimeType) else js "bin" in
  fileNamePrefix ++ js "_" ++ ulid env ++ js "." ++ fileExtension.

(** The [region] constant: [credentials.region || 'us-east-1']. *)
Definition regionOf (credentials : credentials) : jsstring :=
  if truthy (region credentials) then interp (region credentials)
  else js "us-east-1".

(** [S3Utils.uploadToS3]; [maxRetries] defaults to [5] when not given. *)
Definition uploadToS3 (env : s3Env) (data : Buffer) (mimeType bucketName : jsstring)
    (fileNamePrefix : option jsstring) (maxRetries : option Z)
    (publicDomain : option jsstring) : M s3State jsstring :=
  let maxRetries := default 5%Z maxRetries in
  match getCredentials env with
  | None =>
      throw (nodeOperationError
               (js "S3 credentials are required for upload but not provided."))
  | Some credentials =>
      let url := publicUrl publicDomain (endpoint credentials)
                   (forcePathStyle credentials) (regionOf credentials)
                   bucketName (fileName env mimeType fileNamePrefix) in
      r ← retryLoop env url maxRetries (Z.to_nat maxRetries) 1%Z None;
      match r with
      | inl u => mret u
      | inr lastError =>
          throw (nodeOperationError (failureMessage maxRetries lastError))
      end
  end.

End S3Utils.

(** ** nodes/Gemini/descriptions/GenerateTextToSpeechDescription.ts *)

Module Voices.

Definition maleVoices : list jsstring :=
  map js ["Puck"; "Charon"; "Fenrir"; "Orus"; "Enceladus"; "Iapetus"; "Umbriel";
          "Algieba"; "Algenib"; "Rasalgethi"; "Alnilam"; "Schedar"; "Achird";
          "Zubenelgenubi"; "Sadachbia"; "Sadaltager"]%string.

Definition femaleVoices : list jsstring :=
  map js ["Zephyr"; "Kore"; "Leda"; "Aoede"; "Callirrhoe"; "Autonoe"; "Despina";
          "Erinome"; "Laomedeia"; "Achernar"; "Gacrux"; "Pulcherrima";
          "Vindemiatrix"; "Sulafat"]%string.

Definition allVoices : list jsstring := maleVoices ++ femaleVoices.

End Voices.

(** ** nodes/Gemini/descriptions/GenerateVideoDescription.ts *)

Module VideoDescription.

(** An [options] property shown for one value of [resolution]. *)
Record optionsProperty := {
  propName : jsstring;
  showResolution : jsstring;
  optionValues : list jsstring;
  defaultValue : jsstring;
}.

(** The two [durationSeconds] entries of [generateVideoFields]. *)
Definition durationSecondsFields : list optionsProperty :=
  [ {| propName := js "durationSeconds"; showResolution := js "720p";
       optionValues := [js "4"; js "6"; js "8"]; defaultValue := js "8" |};
    {| propName := js "durationSeconds"; showResolution := js "1080p";
       optionValues := [js "8"]; defaultValue := js "8" |} ].

(** The values the editor offers for [durationSeconds] at a resolution. *)
Definition offeredDurations (resolution : jsstring) : list jsstring :=
  concat (map optionValues
            (List.filter (λ f, bool_decide (showResolution f = resolution))
               durationSecondsFields)).

End VideoDescription.

(** ** nodes/Gemini/Gemini.node.ts: [execute] *)

Module Gemini.

(** *** The [catch] handler and the loop over the input items *)

(** The class [[\x00-\x1F\x7F-\x9F]] of the sanitizer. *)
Definition isControl (c : N) : bool :=
  (c <=? 0x1F) || ((0x7F <=? c) && (c <=? 0x9F)).

(** [message.replace(/[\x00-\x1F\x7F-\x9F]/g, '')] *)
Definition stripControl (m : jsstring) : jsstring :=
  List.filter (λ c, negb (isControl c)) m.

(** The [sanitizedMessage] constant. *)
Definition sanitizedMessage (error : jsError) : jsstring :=
  if truthy (message error) then stripControl (interp (message error))
  else js "Unknown error occurred".

(** An element of [returnData]: the result [R] of an operation, or the
    record [{ json: { error }, pairedItem: { item } }] of a failure. *)
Inductive executionData (R : Type) :=
  | ResultItem (result : R)
  | ErrorItem (error : jsstring) (item : nat).
Arguments ResultItem {R} _.
Arguments ErrorItem {R} _ _.

(** The loop of [execute] from item [i] on.  [outcomes] holds, for each
    remaining item, what the [try] block did: it threw, or it completed
    after pushing some results.  [inl] is the [NodeOperationError] thrown
    out of [execute], with the index of the item. *)
Fixpoint executeFrom {R} (continueOnFail : bool)
    (outcomes : list (jsError + list R)) (i : nat)
    (returnData : list (executionData R))
  : (jsError * nat) + list (executionData R) :=
  match outcomes with
  | [] => inr returnData
  | inr pushed :: rest =>
      executeFrom continueOnFail rest (S i)
        (returnData ++ map ResultItem pushed)
  | inl error :: rest =>
      let sanitizedMessage := sanitizedMessage error in
      if continueOnFail then
        executeFrom continueOnFail rest (S i)
          (returnData ++ [ErrorItem sanitizedMessage i])
      else
        let sanitizedError := mkError sanitizedMessage in
        inl (nodeOperationError (interp (message sanitizedError)), i)
  end.

Definition execute {R} (continueOnFail : bool)
    (outcomes : list (jsError + list R))
  : (jsError * nat) + list (executionData R) :=
  executeFrom continueOnFail outcomes 0 [].

(** *** generateTTS: voices of the speakers in multi-speaker mode *)

Record speaker := {
  speakerLabel : jsstring;
  voiceName : jsstring;
}.

Record speakerVoiceConfig := {
  cfgSpeaker : jsstring;
  cfgVoiceName : option jsstring;   (* [None]: [undefined] *)
}.

(** [usedVoices] and the number of calls of [Math.random()] so far; the
    environment [random] gives the value of each call, in [0, 1). *)
Record voiceState := {
  usedVoices : gset (option jsstring);
  randomCalls : nat;
}.

Definition noVoiceUsed : voiceState :=
  {| usedVoices := ∅; randomCalls := 0 |}.

(** [arr[Math.floor(Math.random() * arr.length)]] *)
Definition randomElement (random : nat → Q) (arr : list jsstring)
  : M voiceState (option jsstring) := λ st,
  let index := Qfloor (random (randomCalls st) * inject_Z (Z.of_nat (length arr))) in
  (inr (if (index <? 0)%Z then None else arr !! Z.to_nat index),
   {| usedVoices := usedVoices st; randomCalls := S (randomCalls st) |}).

(** A random voice of [pool] that is not used yet or, when none is left, a
    random voice of [pool]. *)
Definition pickUnused (random : nat → Q) (pool : list jsstring)
  : M voiceState (option jsstring) :=
  st ← getState;
  let availableVoices := filter (λ v, Some v ∉ usedVoices st) pool in
  if bool_decide (length availableVoices = 0%nat)
  then randomElement random pool
  else randomElement random availableVoices.

(** The callback of [speakerVoices.map]. *)
Definition assignVoice (random : nat → Q) (speaker : speaker)
  : M voiceState speakerVoiceConfig :=
  voiceName ←
    (if decide (voiceName speaker = js "__random__") then
       pickUnused random Voices.allVoices
     else if decide (voiceName speaker = js "__random_male__") then
       pickUnused random Voices.maleVoices
     else if decide (voiceName speaker = js "__random_female__") then
       pickUnused random Voices.femaleVoices
     else mret (Some (voiceName speaker)));
  modifyState (λ st, {| usedVoices := {[voiceName]} ∪ usedVoices st;
                        randomCalls := randomCalls st |});;
  mret {| cfgSpeaker := speakerLabel speaker; cfgVoiceName := voiceName |}.

Fixpoint assignVoices (random : nat → Q) (speakers : list speaker)
  : M voiceState (list speakerVoiceConfig) :=
  match speakers with
  | [] => mret []
  | speaker :: rest =>
      c ← assignVoice random speaker;
      cs ← assignVoices random rest;
      mret (c :: cs)
  end.

(** [speakerVoiceConfigs], computed with a fresh [usedVoices]. *)
Definition speakerVoiceConfigs (random : nat → Q) (speakers : list speaker)
  : jsError + list speakerVoiceConfig :=
  (assignVoices random speakers noVoiceUsed).1.

(** The voice of single-speaker mode: the [voiceName] put in
    [prebuiltVoiceConfig]. *)
Definition singleVoice (random : nat → Q) (voiceName : jsstring)
  : M voiceState (option jsstring) :=
  if decide (voiceName = js "__random__") then
    randomElement random Voices.allVoices
  else if decide (voiceName = js "__random_male__") then
    randomElement random Voices.maleVoices
  else if decide (voiceName = js "__random_female__") then
    randomElement random Voices.femaleVoices
  else mret (Some voiceName).

(** *** generateVideo: from the node parameters to the provider request *)

Record videoParams := {
  p_videoModel : jsstring;
  p_generationMode : jsstring;
  p_videoPrompt : jsstring;
  p_negativePrompt : jsstring;
  p_resolution : jsstring;
  p_durationSeconds : jsstring;    (* as entered; [parseInt] is applied to it *)
  p_personGeneration : jsstring;
  p_generateAudio : bool;
  p_aspectRatio : jsstring;
  p_startFrameUrl : jsstring;
  p_enableLooping : bool;
  p_endFrameUrl : jsstring;
  p_referenceImages : list jsstring;   (* [imageUrl] of each entry *)
  p_styleImageUrl : jsstring;
  p_inputVideoUri : jsstring;
}.

(** The argument of [ai.models.generateVideos]. *)
Record generateVideosPayload := {
  model : jsstring;
  config : VideoUtils.videoConfig;
  prompt : option jsstring;
  negativePrompt : option jsstring;
  image : option VideoUtils.VideoGenerationImage;
  video : option VideoUtils.VideoObject;
}.

(** A generated sample and the response of a finished operation.  A member
    that is missing (or falsy, for [error]) is [None]; [error] holds the
    JSON text of the provider's error object. *)
Record Video := { videoUri : option jsstring }.
Record generatedVideo := { gvVideo : option Video }.

Record videosResponse := {
  error : option jsstring;
  raiMediaFilteredCount : option Z;
  raiMediaFilteredReasons : option (list jsstring);
  generatedVideos : option (list generatedVideo);
  generatedSamples : option (list generatedVideo);   (* of [generateVideoResponse] *)
}.

Record videosOperation := {
  done : bool;
  response : option videosResponse;
}.

Inductive requestEvent :=
  | EvFetchImage (url : jsstring)
  | EvGenerateVideos (payload : generateVideosPayload).

(** The network as the request phase sees it: the download of an image
    ([ImageUtils.urlToBase64WithMimeType], data and MIME type) and the
    provider's answer to [generateVideos]. *)
Record requestEnv := {
  urlToBase64WithMimeType : jsstring → jsError + (jsstring * jsstring);
  generateVideos : generateVideosPayload → jsError + videosOperation;
}.

Definition requestState := list requestEvent.   (* latest first *)

(** [VideoUtils.fetchImageForVideo] *)
Definition fetchImageForVideo (env : requestEnv) (imageUrl : jsstring)
  : M requestState VideoUtils.VideoGenerationImage :=
  if VideoUtils.blank imageUrl then
    throw (nodeOperationError (js "Image URL cannot be empty"))
  else
    tryCatch
      (modifyState (cons (EvFetchImage imageUrl));;
       '(data, mimeType) ← liftResult (urlToBase64WithMimeType env imageUrl);
       mret {| VideoUtils.imageBytes := data; VideoUtils.mimeType := mimeType |})
      (λ error,
       throw (nodeOperationError
                (js "Failed to fetch image from URL: " ++ imageUrl
                 ++ js ". Error: " ++ interp (message error)))).

(** The loop over [referenceImagesData]. *)
Fixpoint fetchAssets (env : requestEnv) (urls : list jsstring)
  : M requestState (list (VideoUtils.VideoGenerationImage * jsstring)) :=
  match urls with
  | [] => mret []
  | imageUrl :: rest =>
      if negb (VideoUtils.blank imageUrl) then
        image ← fetchImageForVideo env imageUrl;
        more ← fetchAssets env rest;
        mret ((image, js "ASSET") :: more)
      else fetchAssets env rest
  end.

(** [VideoUtils.fetchReferenceImages] *)
Fixpoint fetchReferenceImages (env : requestEnv)
    (referenceImageUrls : list jsstring)
  : M requestState (list VideoUtils.VideoGenerationImage) :=
  match referenceImageUrls with
  | [] => mret []
  | url :: rest =>
      if negb (VideoUtils.blank url) then
        image ← fetchImageForVideo env url;
        images ← fetchReferenceImages env rest;
        mret (image :: images)
      else fetchReferenceImages env rest
  end.

Definition withDuration (c : VideoUtils.videoConfig) (d : option Z)
  : VideoUtils.videoConfig :=
  {| VideoUtils.numberOfVideos := VideoUtils.numberOfVideos c;
     VideoUtils.resolution := VideoUtils.resolution c;
     VideoUtils.aspectRatio := VideoUtils.aspectRatio c;
     VideoUtils.durationSeconds := Some d;
     VideoUtils.personGeneration := VideoUtils.personGeneration c;
     VideoUtils.lastFrame := VideoUtils.lastFrame c;
     VideoUtils.referenceImages := VideoUtils.referenceImages c |}.

Definition withPersonGeneration (c : VideoUtils.videoConfig) (p : jsstring)
  : VideoUtils.videoConfig :=
  {| VideoUtils.numberOfVideos := VideoUtils.numberOfVideos c;
     VideoUtils.resolution := VideoUtils.resolution c;
     VideoUtils.aspectRatio := VideoUtils.aspectRatio c;
     VideoUtils.durationSeconds := VideoUtils.durationSeconds c;
     VideoUtils.personGeneration := Some p;
     VideoUtils.lastFrame := VideoUtils.lastFrame c;
     VideoUtils.referenceImages := VideoUtils.referenceImages c |}.

Definition withLastFrame (c : VideoUtils.videoConfig)
    (f : VideoUtils.VideoGenerationImage) : VideoUtils.videoConfig :=
  {| VideoUtils.numberOfVideos := VideoUtils.numberOfVideos c;
     VideoUtils.resolution := VideoUtils.resolution c;
     VideoUtils.aspectRatio := VideoUtils.aspectRatio c;
     VideoUtils.durationSeconds := VideoUtils.durationSeconds c;
     VideoUtils.personGeneration := VideoUtils.personGeneration c;
     VideoUtils.lastFrame := Some f;
     VideoUtils.referenceImages := VideoUtils.referenceImages c |}.

Definition withReferenceImages (c : VideoUtils.videoConfig)
    (r : list (VideoUtils.VideoGenerationImage * jsstring))
  : VideoUtils.videoConfig :=
  {| VideoUtils.numberOfVideos := VideoUtils.numberOfVideos c;
     VideoUtils.resolution := VideoUtils.resolution c;
     VideoUtils.aspectRatio := VideoUtils.aspectRatio c;
     VideoUtils.durationSeconds := VideoUtils.durationSeconds c;
     VideoUtils.personGeneration := VideoUtils.personGeneration c;
     VideoUtils.lastFrame := VideoUtils.lastFrame c;
     VideoUtils.referenceImages := Some r |}.

Definition withConfig (p : generateVideosPayload) (c : VideoUtils.videoConfig)
  : generateVideosPayload :=
  {| model := model p; config := c; prompt := prompt p;
     negativePrompt := negativePrompt p; image := image p; video := video p |}.

(** The generateVideo branch up to the call of [generateVideos]: the
    payload it is about to submit, or the error thrown before. *)
Definition buildVideoRequest (env : requestEnv) (p : videoParams)
  : M requestState generateVideosPayload :=
  let generationMode := p_generationMode p in
  let durationSeconds := parseInt10 (p_durationSeconds p) in
  liftResult
    (VideoUtils.validateParameters generationMode
       {| VideoUtils.vp_videoPrompt := p_videoPrompt p;
          VideoUtils.vp_startFrameUrl :=
            if decide (generationMode = js "framesToVideo")
            then p_startFrameUrl p else [];
          VideoUtils.vp_referenceImages :=
            if decide (generationMode = js "referencesToVideo")
            then p_referenceImages p else [];
          VideoUtils.vp_inputVideoUri :=
            if decide (generationMode = js "extendVideo")
            then p_inputVideoUri p else [] |});;
  let aspectRatio :=
    if decide (generationMode = js "extendVideo") then None
    else Some (p_aspectRatio p) in
  let config := VideoUtils.buildVideoConfig (p_resolution p) aspectRatio (Some 1%Z) in
  let config := withDuration config durationSeconds in
  let config :=
    if truthy (Some (p_personGeneration p))
    then withPersonGeneration config (p_personGeneration p) else config in
  let finalPrompt :=
    if negb (VideoUtils.blank (p_videoPrompt p)) then trim (p_videoPrompt p) else [] in
  let finalPrompt :=
    if negb (p_generateAudio p) && truthy (Some finalPrompt)
    then js "[Silent film, no audio, no sound effects, no background music] "
         ++ finalPrompt
    else finalPrompt in
  let generateVideoPayload :=
    {| model := p_videoModel p;
       config := config;
       prompt := if truthy (Some finalPrompt) then Some finalPrompt else None;
       negativePrompt :=
         if negb (VideoUtils.blank (p_negativePrompt p))
         then Some (p_negativePrompt p) else None;
       image := None;
       video := None |} in
  if decide (generationMode = js "framesToVideo") then
    startFrame ← fetchImageForVideo env (p_startFrameUrl p);
    let generateVideoPayload :=
      {| model := model generateVideoPayload;
         config := config;
         prompt := prompt generateVideoPayload;
         negativePrompt := negativePrompt generateVideoPayload;
         image := Some startFrame;
         video := None |} in
    let finalEndFrameUrl :=
      if p_enableLooping p then p_startFrameUrl p else p_endFrameUrl p in
    if negb (VideoUtils.blank finalEndFrameUrl) then
      endFrame ← fetchImageForVideo env finalEndFrameUrl;
      mret (withConfig generateVideoPayload (withLastFrame config endFrame))
    else mret generateVideoPayload
  else if decide (generationMode = js "referencesToVideo") then
    assets ← fetchAssets env (p_referenceImages p);
    referenceImagesPayload ←
      (if negb (VideoUtils.blank (p_styleImageUrl p)) then
         styleImage ← fetchImageForVideo env (p_styleImageUrl p);
         mret (assets ++ [(styleImage, js "STYLE")])
       else mret assets);
    if bool_decide (0 < length referenceImagesPayload)%nat then
      mret (withConfig generateVideoPayload
              (withReferenceImages config referenceImagesPayload))
    else mret generateVideoPayload
  else if decide (generationMode = js "extendVideo") then
    videoObject ← liftResult (VideoUtils.createVideoObject (p_inputVideoUri p));
    mret {| model := model generateVideoPayload;
            config := config;
            prompt := prompt generateVideoPayload;
            negativePrompt := negativePrompt generateVideoPayload;
            image := None;
            video := Some videoObject |}
  else mret generateVideoPayload.

(** [let videoOperation = await ai.models.generateVideos(generateVideoPayload)] *)
Definition submitVideoRequest (env : requestEnv) (p : videoParams)
  : M requestState videosOperation :=
  generateVideoPayload ← buildVideoRequest env p;
  modifyState (cons (EvGenerateVideos generateVideoPayload));;
  liftResult (generateVideos env generateVideoPayload).


(** *** generateLivePhoto: from the node parameters to the provider request *)

Record livePhotoParams := {
  lp_livePhotoModel : jsstring;
  lp_livePhotoImageUrl : jsstring;
  lp_livePhotoEndFrameUrl : jsstring;
  lp_livePhotoPrompt : jsstring;
  lp_livePhotoAspectRatio : jsstring;
}.

Definition defaultPrompt : jsstring :=
  js "Camera slightly adjusts focus, gentle lighting changes, ambient shadows shift".

(** The generateLivePhoto branch up to the call of [generateVideos]: the
    payload it is about to submit and [endFrameImage] ([None]: [null]), or
    the error thrown before. *)
Definition buildLivePhotoRequest (tool : VideoUtils.ffmpegEnv) (env : requestEnv)
    (p : livePhotoParams)
  : M requestState (generateVideosPayload * option VideoUtils.VideoGenerationImage) :=
  let ffmpegAvailable := VideoUtils.checkFfmpegAvailable tool in
  if negb ffmpegAvailable then
    throw (nodeOperationError
             (js "ffmpeg is required for Live Photo generation but is not available on this system. Please install ffmpeg."))
  else
    startFrameImage ← fetchImageForVideo env (lp_livePhotoImageUrl p);
    endFrameImage ←
      (if negb (VideoUtils.blank (lp_livePhotoEndFrameUrl p)) then
         endFrame ← fetchImageForVideo env (lp_livePhotoEndFrameUrl p);
         mret (Some endFrame)
       else mret None);
    let finalPrompt :=
      if negb (VideoUtils.blank (lp_livePhotoPrompt p))
      then trim (lp_livePhotoPrompt p) else defaultPrompt in
    let durationForLivePhoto :=
      match endFrameImage with Some _ => 8%Z | None => 4%Z end in
    let config :=
      {| VideoUtils.numberOfVideos := 1;
         VideoUtils.resolution := js "720p";
         VideoUtils.aspectRatio := Some (lp_livePhotoAspectRatio p);
         VideoUtils.durationSeconds := Some (Some durationForLivePhoto);
         VideoUtils.personGeneration := Some (js "allow_adult");
         VideoUtils.lastFrame := endFrameImage;
         VideoUtils.referenceImages := None |} in
    mret ({| model := lp_livePhotoModel p;
             config := config;
             prompt := Some finalPrompt;
             negativePrompt := None;
             image := Some startFrameImage;
             video := None |}, endFrameImage).

(** [let videoOperation = await ai.models.generateVideos(generateVideoPayload)]
    of the generateLivePhoto branch. *)
Definition submitLivePhotoRequest (tool : VideoUtils.ffmpegEnv) (env : requestEnv)
    (p : livePhotoParams) : M requestState videosOperation :=
  '(generateVideoPayload, endFrameImage) ← buildLivePhotoRequest tool env p;
  modifyState (cons (EvGenerateVideos generateVideoPayload));;
  liftResult (generateVideos env generateVideoPayload).

(** *** generateVideo: polling until the operation is done *)

(** The members of [additionalOptions] the loop reads, in seconds and in
    minutes. *)
Record pollingOptions := {
  pollingInterval : option Z;
  maxWaitTime : option Z;
}.

(** [x || d] on a number that may be missing. *)
Definition orDefault (x : option Z) (d : Z) : Z :=
  match x with
  | Some v => if (v =? 0)%Z then d else v
  | None => d
  end.

Definition pollingIntervalMs (o : pollingOptions) : Z :=
  (orDefault (pollingInterval o) 10 * 1000)%Z.

Definition maxWaitTimeMs (o : pollingOptions) : Z :=
  (orDefault (maxWaitTime o) 30 * 60 * 1000)%Z.

Inductive pollEvent :=
  | EvCheck (elapsed : Z)     (* [Date.now() - startTime], read by the time-out test *)
  | EvWait (ms : Z)           (* [await] of [setTimeout(resolve, ms)] *)
  | EvGetVideosOperation.     (* [await ai.operations.getVideosOperation(...)] *)

(** The provider as the loop sees it: the outcome of each status refresh,
    numbered from 0, and the time the call takes, in milliseconds. *)
Record pollEnv := {
  getVideosOperation : nat → jsError + videosOperation;
  callDuration : nat → Z;
}.

(** The clock ([Date.now()]), the number of refreshes so far, and what the
    loop did, latest first. *)
Record pollState := {
  now : Z;
  refreshes : nat;
  pollTrace : list pollEvent;
}.

Definition timedOutError (o : pollingOptions) : jsError :=
  nodeOperationError
    (js "Video generation timed out after " ++ showZ (orDefault (maxWaitTime o) 30)
     ++ js " minutes").

(** [Date.now() - startTime > maxWaitTime], which reads the clock. *)
Definition pastDeadline (startTime maxWaitTime : Z) : M pollState bool := λ st,
  (inr (now st - startTime >? maxWaitTime)%Z,
   {| now := now st; refreshes := refreshes st;
      pollTrace := EvCheck (now st - startTime) :: pollTrace st |}).

(** [await new Promise((resolve) => setTimeout(resolve, pollingInterval))] *)
Definition wait (ms : Z) : M pollState () := λ st,
  (inr (), {| now := (now st + timerDelay ms)%Z; refreshes := refreshes st;
              pollTrace := EvWait ms :: pollTrace st |}).

(** [await ai.operations.getVideosOperation({ operation: videoOperation })] *)
Definition refresh (env : pollEnv) : M pollState videosOperation := λ st,
  (getVideosOperation env (refreshes st),
   {| now := (now st + callDuration env (refreshes st))%Z;
      refreshes := S (refreshes st);
      pollTrace := EvGetVideosOperation :: pollTrace st |}).

(** [while (!videoOperation.done) { ... }], at most [fuel] iterations;
    [None] when the iterations are used up. *)
Fixpoint pollLoop (fuel : nat) (env : pollEnv) (o : pollingOptions)
    (startTime : Z) (videoOperation : videosOperation)
  : M pollState (option videosOperation) :=
  match fuel with
  | O => mret None
  | S fuel' =>
      if done videoOperation then mret (Some videoOperation)
      else
        late ← pastDeadline startTime (maxWaitTimeMs o);
        if (late : bool) then throw (timedOutError o)
        else
          wait (pollingIntervalMs o);;
          videoOperation ← refresh env;
          pollLoop fuel' env o startTime videoOperation
  end.

(** The polling part of the branch: [startTime] is read, then the loop
    runs. *)
Definition pollUntilDone (fuel : nat) (env : pollEnv) (o : pollingOptions)
    (videoOperation : videosOperation) : M pollState (option videosOperation) :=
  st ← getState;
  let startTime := now st in
  pollLoop fuel env o startTime videoOperation.

(** *** generateVideo: validation of the finished operation *)

(** [uriError] is the [URIError] of [decodeURIComponent]; [stringify] is
    [JSON.stringify] on the response. *)
Definition uriError : jsError :=
  {| code := None; name := Some (js "URIError"); message := Some (js "URI malformed") |}.

Definition safetyMessage (reasons : list jsstring) : jsstring :=
  js "Video generation was blocked by safety filters." ++ [0x0A]
  ++ js "Reasons: " ++ join (js "; ") reasons ++ [0x0A; 0x0A]
  ++ js "Please try modifying your prompt or using different images.".

(** The checks between the loop and the download: the decoded URI of the
    first generated video, or the error thrown. *)
Definition validateVideoResponse (stringify : videosResponse → jsstring)
    (videoOperation : videosOperation) : jsError + jsstring :=
  match response videoOperation with
  | None =>
      inl (nodeOperationError (js "Video generation failed: No response from API"))
  | Some responseAny =>
      match error responseAny with
      | Some detail =>
          inl (nodeOperationError (js "Video generation failed: " ++ detail))
      | None =>
          if (0 <? default 0 (raiMediaFilteredCount responseAny))%Z then
            let reasons := default [] (raiMediaFilteredReasons responseAny) in
            inl (nodeOperationError (safetyMessage reasons))
          else
            let generatedSamples :=
              match generatedVideos responseAny with
              | Some l => Some l
              | None => generatedSamples responseAny
              end in
            match generatedSamples with
            | None | Some [] =>
                inl (nodeOperationError
                       (js "No videos were generated. Response: "
                        ++ substring0 500 (stringify responseAny)))
            | Some (firstVideo :: _) =>
                let uri := gvVideo firstVideo ≫= videoUri in
                if negb (truthy uri) then
                  inl (nodeOperationError (js "Generated video is missing URI"))
                else
                  match decodeURIComponent (interp uri) with
                  | None => inl uriError
                  | Some videoUri =>
                      if negb (truthy (Some videoUri)) then
                        inl (nodeOperationError (js "Generated video URI is empty"))
                      else inr videoUri
                  end
            end
      end
  end.


(** *** generateImage: from the model response to the returned item *)

Record inlineData := {
  inlineMimeType : option jsstring;
  inlineBase64 : option jsstring;      (* the [data] member *)
}.

Record part := {
  partInlineData : option inlineData;
  partText : option jsstring;
}.

Record content := { parts : option (list part) }.
Record candidate := { candidateContent : option content }.
Record generateContentResponse := { candidates : option (list candidate) }.

(** The object [ImageUtils.saveBinaryToNodeData] returns, as far as
    [execute] reads it: [data], [mimeType] and [fileName]. *)
Record binaryNodeData := {
  nodeData : Buffer;
  nodeMimeType : jsstring;
  nodeFileName : jsstring;
}.

(** An element of [generatedImages]. *)
Inductive generatedImage :=
  | UploadedImage (url mimeType : jsstring) (fileName : option jsstring)
  | BinaryImage (imageData : binaryNodeData).

Definition imageUrlOf (g : generatedImage) : option jsstring :=
  match g with
  | UploadedImage url _ _ => Some url
  | BinaryImage _ => None
  end.

Definition imageMimeTypeOf (g : generatedImage) : option jsstring :=
  match g with
  | UploadedImage _ mimeType _ => Some mimeType
  | BinaryImage d => Some (nodeMimeType d)
  end.

Definition imageFileNameOf (g : generatedImage) : option jsstring :=
  match g with
  | UploadedImage _ _ fileName => fileName
  | BinaryImage d => Some (nodeFileName d)
  end.

Definition imageDataOf (g : generatedImage) : option Buffer :=
  match g with
  | UploadedImage _ _ _ => None
  | BinaryImage d => Some (nodeData d)
  end.

Record imageParams := {
  ip_model : jsstring;
  ip_responseModalities : list jsstring;
  ip_uploadToS3 : bool;
  ip_s3BucketName : jsstring;
  ip_s3PublicDomain : jsstring;
}.

(** What the branch needs from outside: the helper
    [ImageUtils.saveBinaryToNodeData] (its source is not part of the
    development, it is a parameter), the base64 codec of [Buffer], the
    identifier [ulid()] gives for the image with a given index, and the
    environment in which that image is uploaded. *)
Record imageEnv := {
  saveBinaryToNodeData : jsstring → jsstring → jsstring → binaryNodeData;
  bufferFromBase64 : jsstring → Buffer;
  bufferToBase64 : Buffer → jsstring;
  ulidAt : nat → jsstring;
  s3EnvAt : nat → S3Utils.s3Env;
}.

(** An object that was put in the bucket. *)
Record uploaded := {
  upBody : Buffer;
  upContentType : jsstring;
  upBucket : jsstring;
  upUrl : jsstring;
}.

Definition imageState := list uploaded.   (* in the order of the uploads *)

(** The prefix given to [uploadToS3] for the image with index [fileIndex]. *)
Definition s3Prefix (env : imageEnv) (fileIndex : nat) : jsstring :=
  js "generateImage" ++ js "/gemini_" ++ ulidAt env fileIndex ++ js "_"
  ++ showZ (Z.of_nat fileIndex).

(** The name given to [saveBinaryToNodeData]. *)
Definition binaryName (env : imageEnv) (fileIndex : nat) : jsstring :=
  js "img_" ++ ulidAt env fileIndex ++ js "_" ++ showZ (Z.of_nat fileIndex).

(** [await S3Utils.uploadToS3(this, buffer, mimeType, bucketName, prefix, 5,
    s3PublicDomain)] for the image with index [fileIndex]. *)
Definition callUploadToS3 (env : imageEnv) (p : imageParams) (fileIndex : nat)
    (buffer : Buffer) (mimeType : jsstring) : M imageState jsstring := λ st,
  match (S3Utils.uploadToS3 (s3EnvAt env fileIndex) buffer mimeType
           (ip_s3BucketName p) (Some (s3Prefix env fileIndex)) (Some 5%Z)
           (Some (ip_s3PublicDomain p)) S3Utils.initialState).1 with
  | inr s3Url =>
      (inr s3Url,
       st ++ [{| upBody := buffer; upContentType := mimeType;
                 upBucket := ip_s3BucketName p; upUrl := s3Url |}])
  | inl e => (inl e, st)
  end.

Definition inlineMime (d : inlineData) : jsstring :=
  if truthy (inlineMimeType d) then interp (inlineMimeType d) else js "image/png".

Definition inlineBytes (d : inlineData) : jsstring :=
  if truthy (inlineBase64 d) then interp (inlineBase64 d) else [].

(** [for (const part of parts) { ... }] *)
Fixpoint collectParts (env : imageEnv) (p : imageParams) (parts : list part)
    (fileIndex : nat) (generatedImages : list generatedImage)
    (textResponse : jsstring)
  : M imageState (list generatedImage * jsstring) :=
  match parts with
  | [] => mret (generatedImages, textResponse)
  | part :: rest =>
      match partInlineData part with
      | Some inline =>
          let mimeType := inlineMime inline in
          let data := inlineBytes inline in
          if ip_uploadToS3 p then
            let buffer := bufferFromBase64 env data in
            s3Url ← callUploadToS3 env p fileIndex buffer mimeType;
            collectParts env p rest (S fileIndex)
              (generatedImages
               ++ [UploadedImage s3Url mimeType (last (split (js "/") s3Url))])
              textResponse
          else
            let fileName := binaryName env fileIndex in
            let imageData := saveBinaryToNodeData env data mimeType fileName in
            collectParts env p rest (S fileIndex)
              (generatedImages ++ [BinaryImage imageData]) textResponse
      | None =>
          if truthy (partText part) then
            collectParts env p rest fileIndex generatedImages
              (textResponse ++ interp (partText part))
          else collectParts env p rest fileIndex generatedImages textResponse
      end
  end.

Record imageRef := {
  refUrl : option jsstring;
  refFileName : option jsstring;
  refMimeType : option jsstring;
}.

Record imageJson := {
  text : jsstring;
  jsonModel : jsstring;
  responseModalities : list jsstring;
  totalTokens : nat;
  images : option (list imageRef);
  imageUrl : option jsstring;
  metadata : option (option jsstring * option jsstring);   (* mimeType, fileName *)
}.

Record binaryField := {
  binData : jsstring;              (* base64 *)
  binMimeType : option jsstring;
  binFileName : option jsstring;
}.

Record imageItem := {
  json : imageJson;
  binary : option binaryField;
  pairedItem : nat;
}.

Definition typeError (msg : jsstring) : jsError :=
  {| code := None; name := Some (js "TypeError"); message := Some msg |}.

(** The generateImage branch from the answer of [generateContent] on: the
    item pushed on [returnData] for input item [i]. *)
Definition imageResult (env : imageEnv) (p : imageParams) (i : nat)
    (response : generateContentResponse) : M imageState imageItem :=
  '(generatedImages, textResponse) ←
    match candidates response with
    | None => mret ([], [])
    | Some [] =>
        throw (typeError (js "Cannot read properties of undefined (reading 'content')"))
    | Some (first :: _) =>
        match candidateContent first with
        | None => mret ([], [])
        | Some content =>
            collectParts env p (default [] (parts content)) 0 [] []
        end
    end;
  let s3Case := truthy (head generatedImages ≫= imageUrlOf) in
  let result :=
    {| text := textResponse;
       jsonModel := ip_model p;
       responseModalities := ip_responseModalities p;
       totalTokens := length textResponse;
       images :=
         if bool_decide (0 < length generatedImages)%nat && s3Case
         then Some (map (λ img, {| refUrl := imageUrlOf img;
                                   refFileName := imageFileNameOf img;
                                   refMimeType := imageMimeTypeOf img |})
                      generatedImages)
         else None;
       imageUrl :=
         if bool_decide (0 < length generatedImages)%nat && s3Case
         then head generatedImages ≫= imageUrlOf else None;
       metadata :=
         if bool_decide (0 < length generatedImages)%nat && negb s3Case
         then Some (head generatedImages ≫= imageMimeTypeOf,
                    head generatedImages ≫= imageFileNameOf)
         else None |} in
  if bool_decide (0 < length generatedImages)%nat && negb s3Case then
    match head generatedImages ≫= imageDataOf with
    | Some data =>
        mret {| json := result;
                binary := Some {| binData := bufferToBase64 env data;
                                  binMimeType := head generatedImages ≫= imageMimeTypeOf;
                                  binFileName := head generatedImages ≫= imageFileNameOf |};
                pairedItem := i |}
    | None =>
        throw (typeError (js "Cannot read properties of undefined (reading 'toString')"))
    end
  else mret {| json := result; binary := None; pairedItem := i |}.


(** *** generateImage: the contents sent to the model *)

(** An entry of [messageHistory.messages]; a member that is not set is
    [None]. *)
Record historyMessage := {
  hm_contentType : jsstring;
  hm_role : jsstring;
  hm_text : option jsstring;
  hm_definition : option jsstring;
  hm_imageBase64 : option jsstring;
  hm_imageUrl : option jsstring;
  hm_mimeType : option jsstring;
}.

(** A part of a content: a text, or what [ImageUtils.createGeminiPart]
    made of an image message (its source is not part of the development;
    [G] is the type of its results). *)
Inductive contentPart (G : Type) :=
  | TextPart (text : jsstring)
  | GeminiPart (part : G).
Arguments TextPart {G} _.
Arguments GeminiPart {G} _.

Record contentEntry (G : Type) := {
  entryRole : jsstring;
  entryParts : list (contentPart G);
}.
Arguments entryRole {G} _.
Arguments entryParts {G} _.

Record definitionEntry := {
  defKey : jsstring;
  defDefinition : jsstring;
}.

(** [contents], [definitions], [imageCount] and [textCount]. *)
Record historyState (G : Type) := {
  hsContents : list (contentEntry G);
  hsDefinitions : list definitionEntry;
  hsImageCount : nat;
  hsTextCount : nat;
}.
Arguments hsContents {G} _.
Arguments hsDefinitions {G} _.
Arguments hsImageCount {G} _.
Arguments hsTextCount {G} _.

(** [message.role === 'user' && message.definition && message.definition.trim()] *)
Definition hasDefinition (message : historyMessage) : bool :=
  bool_decide (hm_role message = js "user")
  && truthy (hm_definition message)
  && truthy (trim <$> hm_definition message).

(** [for (const message of messageHistory) { ... }] *)
Fixpoint addHistory {G} (createGeminiPart : historyMessage → jsError + G)
    (messageHistory : list historyMessage) (st : historyState G)
  : jsError + historyState G :=
  match messageHistory with
  | [] => inr st
  | message :: rest =>
      if bool_decide (hm_contentType message = js "text") && truthy (hm_text message)
      then
        let parts := [TextPart (interp (hm_text message))] in
        let textCount :=
          if hasDefinition message then S (hsTextCount st) else hsTextCount st in
        let definitions :=
          if hasDefinition message then
            hsDefinitions st
            ++ [{| defKey := js "[TEXT_" ++ showZ (Z.of_nat textCount) ++ js "]";
                   defDefinition := trim (interp (hm_definition message)) |}]
          else hsDefinitions st in
        addHistory createGeminiPart rest
          {| hsContents :=
               hsContents st
               ++ [{| entryRole := hm_role message; entryParts := parts |}];
             hsDefinitions := definitions;
             hsImageCount := hsImageCount st;
             hsTextCount := textCount |}
      else if bool_decide (hm_contentType message = js "imageUrl")
              || bool_decide (hm_contentType message = js "imageBase64")
      then
        match createGeminiPart message with
        | inr geminiPart =>
            let parts := [GeminiPart geminiPart] in
            let imageCount :=
              if hasDefinition message then S (hsImageCount st) else hsImageCount st in
            let definitions :=
              if hasDefinition message then
                hsDefinitions st
                ++ [{| defKey := js "[IMAGE_" ++ showZ (Z.of_nat imageCount) ++ js "]";
                       defDefinition := trim (interp (hm_definition message)) |}]
              else hsDefinitions st in
            addHistory createGeminiPart rest
              {| hsContents :=
                   hsContents st
                   ++ [{| entryRole := hm_role message; entryParts := parts |}];
                 hsDefinitions := definitions;
                 hsImageCount := imageCount;
                 hsTextCount := hsTextCount st |}
        | inl error =>
            inl (nodeOperationError
                   (js "Error processing image in message history: "
                    ++ interp (JS.message error)))
        end
      else addHistory createGeminiPart rest st
  end.

(** The [definitionsBlock] constant. *)
Definition definitionsBlock (definitions : list definitionEntry) : jsstring :=
  join [0x0A]
    ([js "INPUT DEFINITIONS:"]
     ++ map (λ def, [0x60] ++ defKey def ++ [0x60] ++ js " : " ++ defDefinition def)
          definitions
     ++ [js "---"; []]).

(** The [contents] given to [generateContent]. *)
Definition buildContents {G} (createGeminiPart : historyMessage → jsError + G)
    (messageHistory : list historyMessage) (currentMessage : jsstring)
  : jsError + list (contentEntry G) :=
  match addHistory createGeminiPart messageHistory
          {| hsContents := []; hsDefinitions := [];
             hsImageCount := 0; hsTextCount := 0 |} with
  | inl error => inl error
  | inr st =>
      let currentMessage :=
        if bool_decide (0 < length (hsDefinitions st))%nat
        then definitionsBlock (hsDefinitions st) ++ currentMessage
        else currentMessage in
      if truthy (Some currentMessage) then
        inr (hsContents st
             ++ [{| entryRole := js "user";
                    entryParts := [TextPart currentMessage] |}])
      else inr (hsContents st)
  end.

(** *** generateVideo: from the downloaded video to the returned item *)

(** The [json] of the item; a member that is not set is [None]. *)
Record videoJson := {
  vj_videoUrl : jsstring;
  vj_fileName : option jsstring;
  vj_model : jsstring;
  vj_resolution : jsstring;
  vj_generationMode : jsstring;
  vj_geminiVideoUri : option jsstring;
  vj_aspectRatio : option jsstring;
  vj_prompt : option jsstring;
  vj_negativePrompt : option jsstring;
  vj_durationSeconds : option Z;
  vj_personGeneration : option jsstring;
  vj_generateAudio : bool;
  vj_audioRemovalAttempted : option bool;
  vj_audioRemovalSuccess : option bool;
  vj_audioRemovalNote : option jsstring;
}.

Record videoItem := {
  videoItemJson : videoJson;
  videoPairedItem : nat;
}.

(** What this part of the branch works with: the temporary directory and
    ffmpeg, the identifier [ulid()] gives for the prefix, and the
    environment of the upload. *)
Record deliveryEnv := {
  deliveryFiles : VideoUtils.fsEnv;
  deliveryUlid : jsstring;
  deliveryS3 : S3Utils.s3Env;
}.

(** The temporary directory and the objects put in the bucket. *)
Record deliveryState := {
  tempFiles : gmap jsstring Buffer;
  bucketObjects : list uploaded;
}.

(** [await VideoUtils.removeAudioFromVideo(this, videoBuffer)] *)
Definition callRemoveAudioFromVideo (env : deliveryEnv) (videoBuffer : Buffer)
  : M deliveryState (Buffer * bool) := λ st,
  let '(result, fs) :=
    VideoUtils.removeAudioFromVideo (deliveryFiles env) videoBuffer (tempFiles st) in
  (result, {| tempFiles := fs; bucketObjects := bucketObjects st |}).

(** [await S3Utils.uploadToS3(this, finalVideoBuffer, 'video/mp4',
    s3BucketName, `${operation}/veo_${ulid()}`, 5, s3PublicDomain)] *)
Definition callUploadVideoToS3 (env : deliveryEnv) (finalVideoBuffer : Buffer)
    (s3BucketName s3PublicDomain : jsstring) : M deliveryState jsstring := λ st,
  match (S3Utils.uploadToS3 (deliveryS3 env) finalVideoBuffer (js "video/mp4")
           s3BucketName (Some (js "generateVideo" ++ js "/veo_" ++ deliveryUlid env))
           (Some 5%Z) (Some s3PublicDomain) S3Utils.initialState).1 with
  | inr s3Url =>
      (inr s3Url,
       {| tempFiles := tempFiles st;
          bucketObjects :=
            bucketObjects st
            ++ [{| upBody := finalVideoBuffer; upContentType := js "video/mp4";
                   upBucket := s3BucketName; upUrl := s3Url |}] |})
  | inl e => (inl e, st)
  end.

(** The generateVideo branch from the downloaded [videoBuffer] on: the
    item pushed on [returnData] for input item [i].  [videoObjectUri] is
    [videoObject.uri], the URI as the provider gave it. *)
Definition deliverVideo (env : deliveryEnv) (p : videoParams)
    (s3BucketName s3PublicDomain : jsstring) (i : nat)
    (videoObjectUri : option jsstring) (videoBuffer : Buffer)
  : M deliveryState videoItem :=
  let generationMode := p_generationMode p in
  let durationSeconds := parseInt10 (p_durationSeconds p) in
  let aspectRatio :=
    if decide (generationMode = js "extendVideo") then None
    else Some (p_aspectRatio p) in
  '(finalVideoBuffer, audioRemovalAttempted, audioRemovalSuccess) ←
    (if negb (p_generateAudio p) then
       '(buffer, audioRemoved) ← callRemoveAudioFromVideo env videoBuffer;
       mret (buffer, true, audioRemoved)
     else mret (videoBuffer, false, false));
  s3Url ← callUploadVideoToS3 env finalVideoBuffer s3BucketName s3PublicDomain;
  let result :=
    {| vj_videoUrl := s3Url;
       vj_fileName := last (split (js "/") s3Url);
       vj_model := p_videoModel p;
       vj_resolution := p_resolution p;
       vj_generationMode := generationMode;
       vj_geminiVideoUri := videoObjectUri;
       vj_aspectRatio := if truthy aspectRatio then aspectRatio else None;
       vj_prompt :=
         if truthy (Some (p_videoPrompt p)) then Some (p_videoPrompt p) else None;
       vj_negativePrompt :=
         if truthy (Some (p_negativePrompt p)) then Some (p_negativePrompt p) else None;
       vj_durationSeconds :=
         match durationSeconds with
         | Some d => if (d =? 0)%Z then None else Some d
         | None => None
         end;
       vj_personGeneration :=
         if truthy (Some (p_personGeneration p))
         then Some (p_personGeneration p) else None;
       vj_generateAudio := p_generateAudio p;
       vj_audioRemovalAttempted :=
         if (audioRemovalAttempted : bool) then Some true else None;
       vj_audioRemovalSuccess :=
         if (audioRemovalAttempted : bool) then Some audioRemovalSuccess else None;
       vj_audioRemovalNote :=
         if (audioRemovalAttempted : bool) && negb audioRemovalSuccess
         then Some (js "ffmpeg not available or failed - video may contain audio")
         else None |} in
  mret {| videoItemJson := result; videoPairedItem := i |}.

End Gemini.

(** ** The message of a [NodeOperationError] *)

Section DescriptiveMessages.

(** No error code of the table occurs in a message. *)
Definition noCodeMentioned (msg : jsstring) : Prop :=
  ∀ errorCode description,
    (errorCode, description) ∈ COMMON_ERRORS → mentions errorCode msg = false.

(** [errorCode] is the first code of the table that occurs in a message. *)
Definition firstMentioned (msg errorCode description : jsstring) : Prop :=
  ∃ earlier later,
    COMMON_ERRORS = earlier ++ (errorCode, description) :: later
    ∧ mentions errorCode msg = true
    ∧ ∀ c d, (c, d) ∈ earlier → mentions c msg = false.

Lemma find_first {A} (f : A → bool) (l : list A) :
  match List.find f l with
  | Some x =>
      ∃ earlier later,
        l = earlier ++ x :: later ∧ f x = true ∧ ∀ y, y ∈ earlier → f y = false
  | None => ∀ y, y ∈ l → f y = false
  end.
Proof.
  induction l as [|a l IH]; cbn [List.find].
  - intros y Hy. by apply not_elem_of_nil in Hy.
  - destruct (f a) eqn:Ha.
    + exists [], l. split_and!; [done|done|].
      intros y Hy. by apply not_elem_of_nil in Hy.
    + destruct (List.find f l) as [x|].
      * destruct IH as (earlier & later & -> & Hx & Hearlier).
        exists (a :: earlier), later. split_and!; [done|done|].
        intros y Hy. apply elem_of_cons in Hy as [->|Hy]; [done|].
        by apply Hearlier.
      * intros y Hy. apply elem_of_cons in Hy as [->|Hy]; [done|]. by apply IH.
Qed.

Lemma find_first_unique {A} (f : A → bool) (l earlier later : list A) x :
  l = earlier ++ x :: later → f x = true → (∀ y, y ∈ earlier → f y = false) →
  List.find f l = Some x.
Proof.
  intros -> Hx. induction earlier as [|a earlier IH]; intros Hearlier.
  - cbn. by rewrite Hx.
  - cbn. rewrite (Hearlier a) by apply list_elem_of_here.
    apply IH. intros y Hy. apply Hearlier. by apply list_elem_of_further.
Qed.

(** The message of the error is the one given, or the description of the
    first error code that the given message mentions. *)
Lemma setDescriptiveErrorMessage_cases msg :
  noCodeMentioned msg ∧ setDescriptiveErrorMessage msg = msg
  ∨ ∃ errorCode description,
      firstMentioned msg errorCode description
      ∧ setDescriptiveErrorMessage msg = description.
Proof.
  unfold setDescriptiveErrorMessage.
  pose proof (find_first (λ entry, mentions entry.1 msg) COMMON_ERRORS) as Hfind.
  destruct (List.find _ COMMON_ERRORS) as [[errorCode description]|].
  - right. destruct Hfind as (earlier & later & Heq & Hx & Hearlier).
    exists errorCode, description. split; [|done].
    exists earlier, later. split_and!; [done|done|].
    intros c d Hcd. by apply (Hearlier (c, d)).
  - left. split; [|done]. intros c d Hcd. by apply (Hfind (c, d)).
Qed.

Lemma setDescriptiveErrorMessage_unchanged msg :
  noCodeMentioned msg → setDescriptiveErrorMessage msg = msg.
Proof.
  intros Hnone.
  destruct (setDescriptiveErrorMessage_cases msg)
    as [[_ ->]|(c & d & (earlier & later & Heq & Hc & _) & _)]; [done|].
  rewrite (Hnone c d) in Hc; [done|].
  rewrite Heq. apply elem_of_app. right. apply list_elem_of_here.
Qed.

Lemma setDescriptiveErrorMessage_described msg errorCode description :
  firstMentioned msg errorCode description →
  setDescriptiveErrorMessage msg = description.
Proof.
  intros (earlier & later & Heq & Hc & Hearlier).
  unfold setDescriptiveErrorMessage.
  rewrite (find_first_unique _ _ earlier later (errorCode, description));
    [done|done|done|].
  intros [c d] Hcd. by apply (Hearlier c d).
Qed.

Lemma firstMentioned_find msg errorCode description :
  List.find (λ entry, mentions entry.1 msg) COMMON_ERRORS
  = Some (errorCode, description) →
  firstMentioned msg errorCode description.
Proof.
  intros Hfind.
  pose proof (find_first (λ entry, mentions entry.1 msg) COMMON_ERRORS) as H.
  rewrite Hfind in H. destruct H as (earlier & later & Heq & Hx & Hearlier).
  exists earlier, later. split_and!; [done|done|].
  intros c d Hcd. by apply (Hearlier (c, d)).
Qed.

Lemma noCodeMentioned_find msg :
  List.find (λ entry, mentions entry.1 msg) COMMON_ERRORS = None →
  noCodeMentioned msg.
Proof.
  intros Hfind.
  pose proof (find_first (λ entry, mentions entry.1 msg) COMMON_ERRORS) as H.
  rewrite Hfind in H. intros c d Hcd. by apply (H (c, d)).
Qed.

(** [surfaced] is the message of the [NodeOperationError] made from
    [text]: the text itself, or the description of the first error code
    that the text mentions. *)
Definition describedBy (text surfaced : jsstring) : Prop :=
  (noCodeMentioned text ∨ ∃ errorCode description,
                            firstMentioned text errorCode description)
  ∧ (noCodeMentioned text → surfaced = text)
  ∧ (∀ errorCode description,
       firstMentioned text errorCode description → surfaced = description).

Lemma nodeOperationError_message text :
  ∃ surfaced,
    message (nodeOperationError text) = Some surfaced
    ∧ describedBy text surfaced.
Proof.
  exists (setDescriptiveErrorMessage text). split; [done|]. split_and!.
  - destruct (setDescriptiveErrorMessage_cases text)
      as [[Hnone _]|(errorCode & description & Hfirst & _)]; [by left|].
    right. by exists errorCode, description.
  - apply setDescriptiveErrorMessage_unchanged.
  - intros errorCode description. apply setDescriptiveErrorMessage_described.
Qed.

(** The descriptions of the table have no control character. *)
Lemma descriptions_clean errorCode description :
  (errorCode, description) ∈ COMMON_ERRORS →
  Forall (λ c, Gemini.isControl c = false) description.
Proof.
  intros Hin. apply list_elem_of_In in Hin.
  revert errorCode description Hin.
  assert (List.Forall (λ entry : jsstring * jsstring,
            forallb (λ c, negb (Gemini.isControl c)) entry.2 = true)
            COMMON_ERRORS) as Hall.
  { repeat constructor. }
  intros errorCode description Hin.
  rewrite List.Forall_forall in Hall. specialize (Hall _ Hin). cbn in Hall.
  rewrite forallb_forall in Hall. apply Forall_forall. intros c Hc.
  apply list_elem_of_In in Hc. apply Hall in Hc. by apply negb_true_iff in Hc.
Qed.

End DescriptiveMessages.

Example descriptive_unchanged :
  setDescriptiveErrorMessage (js "Video prompt is required for text-to-video mode")
  = js "Video prompt is required for text-to-video mode".
Proof. vm_compute. reflexivity. Qed.

Example descriptive_dns :
  setDescriptiveErrorMessage
    (js "Failed to upload to S3 after 5 attempts: getaddrinfo EAI_AGAIN s3")
  = js "The DNS server returned an error, perhaps the server is offline".
Proof. vm_compute. reflexivity. Qed.

Example descriptive_letter_case :
  setDescriptiveErrorMessage (js "Failed to fetch image from URL: https://x.test/eNoEnt.png. Error: 404")
  = js "The file or directory does not exist".
Proof. vm_compute. reflexivity. Qed.

(** The messages that the node writes without a variable part are kept as
    they are. *)
Example fixed_messages_unchanged :
  Forall (λ msg, setDescriptiveErrorMessage msg = msg)
    [ js "Image URL cannot be empty";
      js "Video prompt is required for text-to-video mode";
      js "Start frame URL is required for frames-to-video mode";
      js "At least one reference image is required for references-to-video mode";
      js "Input video URI is required for extend-video mode";
      js "S3 credentials are required for upload but not provided.";
      js "Video generation failed: No response from API";
      js "Generated video is missing URI";
      js "Generated video URI is empty";
      js "Video generation timed out after 30 minutes";
      js "ffmpeg is required for Live Photo generation but is not available on this system. Please install ffmpeg.";
      js "Unknown error occurred" ].
Proof. repeat constructor. Qed.

(** ** Extend-video references: [createVideoObject] *)

Section CreateVideoObject.
Import VideoUtils.

(** A bare file id, in the words of the specification: a non-empty run of
    letters, digits, underscores and hyphens. *)
Definition bareFileId (t : jsstring) : Prop :=
  t ≠ [] ∧ Forall (λ c, isIdChar c = true) t.

(** The three accepted reference forms of the specification, on the trimmed
    input. *)
Definition acceptedReference (t : jsstring) : Prop :=
  includes providerHost t = true
  ∨ startsWith (js "files/") t = true
  ∨ bareFileId t.

Lemma matchesFileId_bare t : matchesFileId t = true ↔ bareFileId t.
Proof.
  unfold matchesFileId, bareFileId. destruct t as [|c t].
  - split; [discriminate | intros [? _]; congruence].
  - rewrite forallb_forall, Forall_forall. split.
    + intros H. split; [discriminate|]. intros x Hx. apply H.
      by apply list_elem_of_In.
    + intros [_ H] x Hx. apply H. by apply list_elem_of_In.
Qed.

Lemma acceptedReference_bool t :
  includes providerHost t || startsWith (js "files/") t || matchesFileId t = true
  ↔ acceptedReference t.
Proof.
  unfold acceptedReference. rewrite !orb_true_iff, matchesFileId_bare. tauto.
Qed.

Lemma acceptedReference_nonempty t : acceptedReference t → t ≠ [].
Proof.
  intros [H | [H | [H _]]] ->; [| |done]; vm_compute in H; discriminate.
Qed.

Lemma truthy_nonempty s : truthy (Some s) = true ↔ s ≠ [].
Proof. destruct s; simpl; split; congruence. Qed.

Lemma createVideoObject_accepted v :
  acceptedReference (trim v) →
  createVideoObject v
  = inr {| uri := if matchesFileId (trim v)
                  then js "files/" ++ trim v else trim v |}.
Proof.
  intros Hacc. unfold createVideoObject.
  pose proof (acceptedReference_nonempty _ Hacc) as Hne.
  assert (truthy (Some (trim v)) = true) as -> by by apply truthy_nonempty.
  assert (truthy (Some v) = true) as ->.
  { apply truthy_nonempty. intros ->. by apply Hne. }
  apply acceptedReference_bool in Hacc.
  cbn [negb orb]. cbv zeta. by rewrite Hacc.
Qed.

Lemma createVideoObject_rejected v :
  ¬ acceptedReference (trim v) → ∃ e, createVideoObject v = inl e.
Proof.
  intros Hrej. unfold createVideoObject.
  destruct (negb (truthy (Some v)) || negb (truthy (Some (trim v))));
    [by eexists|].
  rewrite <- acceptedReference_bool in Hrej.
  apply not_true_is_false in Hrej. cbv zeta. rewrite Hrej. by eexists.
Qed.

(** The accepted forms once more, written out: the characters of a bare id
    by their code units, and the provider host and the [files/] prefix as
    parts of the text. *)
Definition idCharacter (c : N) : Prop :=
  (0x61 ≤ c ∧ c ≤ 0x7A) ∨ (0x41 ≤ c ∧ c ≤ 0x5A) ∨ (0x30 ≤ c ∧ c ≤ 0x39)
  ∨ c = 0x5F ∨ c = 0x2D.

Definition bareId (t : jsstring) : Prop :=
  t ≠ [] ∧ Forall idCharacter t.

Definition acceptedForm (t : jsstring) : Prop :=
  (∃ before after,
     t = before ++ js "generativelanguage.googleapis.com" ++ after)
  ∨ (∃ rest, t = js "files/" ++ rest)
  ∨ bareId t.

Lemma startsWith_prefix p s :
  startsWith p s = true ↔ ∃ rest, s = p ++ rest.
Proof.
  revert s. induction p as [|a p IH]; intros s.
  - split; [by exists s|done].
  - destruct s as [|b s]; cbn [startsWith].
    + split; [done|]. by intros [rest Hrest].
    + rewrite andb_true_iff, N.eqb_eq, IH. split.
      * intros [-> [rest ->]]. by exists rest.
      * intros [rest [= -> ->]]. split; [done|]. by exists rest.
Qed.

Lemma includes_infix p s :
  includes p s = true ↔ ∃ before after, s = before ++ p ++ after.
Proof.
  induction s as [|c s IH]; cbn [includes].
  - rewrite orb_false_r, startsWith_prefix. split.
    + intros [rest Hrest]. by exists [], rest.
    + intros (before & after & Heq). symmetry in Heq.
      apply app_eq_nil in Heq as [-> Heq]. by exists after.
  - rewrite orb_true_iff, startsWith_prefix, IH. split.
    + intros [[rest Hrest]|(before & after & ->)].
      * by exists [], rest.
      * by exists (c :: before), after.
    + intros ([|b before] & after & Heq).
      * left. by exists after.
      * injection Heq as -> ->. right. by exists before, after.
Qed.

Lemma isIdChar_idCharacter c : isIdChar c = true ↔ idCharacter c.
Proof.
  unfold isIdChar, idCharacter, isLower, isUpper, isDigit.
  rewrite !orb_true_iff, !andb_true_iff, !N.leb_le, !N.eqb_eq. tauto.
Qed.

Lemma bareFileId_bareId t : bareFileId t ↔ bareId t.
Proof.
  unfold bareFileId, bareId. rewrite !Forall_forall.
  setoid_rewrite isIdChar_idCharacter. tauto.
Qed.

Lemma acceptedReference_acceptedForm t : acceptedReference t ↔ acceptedForm t.
Proof.
  unfold acceptedReference, acceptedForm.
  by rewrite includes_infix, startsWith_prefix, bareFileId_bareId.
Qed.

End CreateVideoObject.

Example createVideoObject_bare :
  VideoUtils.createVideoObject (js " abc-123_X ")
  = inr {| VideoUtils.uri := js "files/abc-123_X" |}.
Proof. vm_compute. reflexivity. Qed.

Example createVideoObject_url :
  VideoUtils.createVideoObject
    (js "https://generativelanguage.googleapis.com/v1beta/files/abc123")
  = inr {| VideoUtils.uri :=
             js "https://generativelanguage.googleapis.com/v1beta/files/abc123" |}.
Proof. vm_compute. reflexivity. Qed.

(** C6. [createVideoObject] accepts exactly the inputs whose trimmed form
    contains the provider host, starts with [files/], or is a bare id, a
    non-empty run of the letters [a]-[z] and [A]-[Z], digits, [_] and [-].
    A bare id is returned as [files/<id>]; any other accepted input is
    returned as its trimmed form, so unchanged when it carries no
    surrounding white space.  Every other input, among them
    [http://evil.example/x], is rejected with an [Error]. *)
Theorem createVideoObject_accepts_exactly :
  (∀ v, (∃ vo, VideoUtils.createVideoObject v = inr vo)
        ↔ acceptedForm (trim v))
  ∧ (∀ v, bareId (trim v) →
          VideoUtils.createVideoObject v
          = inr {| VideoUtils.uri := js "files/" ++ trim v |})
  ∧ (∀ v, acceptedForm (trim v) → ¬ bareId (trim v) →
          VideoUtils.createVideoObject v = inr {| VideoUtils.uri := trim v |}
          ∧ (trim v = v →
             VideoUtils.createVideoObject v = inr {| VideoUtils.uri := v |}))
  ∧ (∀ v, ¬ acceptedForm (trim v) →
          ∃ e, VideoUtils.createVideoObject v = inl e
               ∧ name e = Some (js "Error"))
  ∧ (¬ acceptedForm (trim (js "http://evil.example/x"))
     ∧ ∃ e, VideoUtils.createVideoObject (js "http://evil.example/x") = inl e).
Proof.
  split_and!.
  - intros v. rewrite <- acceptedReference_acceptedForm. split.
    + intros [vo Hvo]. apply acceptedReference_bool.
      apply not_false_iff_true. intros Hn.
      destruct (createVideoObject_rejected v) as [e He]; [|congruence].
      rewrite <- acceptedReference_bool. by rewrite Hn.
    + intros H. rewrite (createVideoObject_accepted v H). by eexists.
  - intros v Hb. apply bareFileId_bareId in Hb.
    rewrite (createVideoObject_accepted v) by (right; by right).
    apply matchesFileId_bare in Hb. by rewrite Hb.
  - intros v Hacc Hnb. apply acceptedReference_acceptedForm in Hacc.
    rewrite <- bareFileId_bareId in Hnb.
    rewrite (createVideoObject_accepted v Hacc).
    rewrite <- matchesFileId_bare in Hnb. apply not_true_is_false in Hnb.
    rewrite Hnb. split; [done|]. by intros ->.
  - intros v Hrej. rewrite <- acceptedReference_acceptedForm in Hrej.
    rewrite <- acceptedReference_bool in Hrej.
    apply not_true_is_false in Hrej. unfold VideoUtils.createVideoObject.
    destruct (negb (truthy (Some v)) || negb (truthy (Some (trim v))));
      [by eexists|].
    cbv zeta. rewrite Hrej. by eexists.
  - rewrite <- acceptedReference_acceptedForm, <- acceptedReference_bool.
    vm_compute. discriminate.
  - eexists. vm_compute. reflexivity.
Qed.

(** Five inputs: a bare id and a [files/] path with white space around
    them, a full URL, and two texts that are no id because of a space and
    of a dot. *)
Lemma createVideoObject_accepts_exactly_witness :
  VideoUtils.createVideoObject (js " abc-123_X ")
  = inr {| VideoUtils.uri := js "files/abc-123_X" |}
  ∧ VideoUtils.createVideoObject ([0x09] ++ js "files/abc  ")
    = inr {| VideoUtils.uri := js "files/abc" |}
  ∧ VideoUtils.createVideoObject
      (js "https://generativelanguage.googleapis.com/v1beta/files/abc")
    = inr {| VideoUtils.uri :=
               js "https://generativelanguage.googleapis.com/v1beta/files/abc" |}
  ∧ (∃ e, VideoUtils.createVideoObject (js "abc 123") = inl e)
  ∧ (∃ e, VideoUtils.createVideoObject (js "abc.123") = inl e).
Proof.
  destruct createVideoObject_accepts_exactly
    as (_ & Hbare & Hother & Hrejected & _).
  split_and!.
  - apply (Hbare (js " abc-123_X ")).
    apply bareFileId_bareId, matchesFileId_bare. vm_compute. reflexivity.
  - apply (Hother ([0x09] ++ js "files/abc  ")).
    + right. left. by exists (js "abc").
    + intros [_ Hid]. change (trim ([0x09] ++ js "files/abc  "))
        with (js "files/abc") in Hid.
      apply Forall_forall with (x := 0x2F) in Hid.
      * unfold idCharacter in Hid. lia.
      * apply (bool_decide_unpack _). vm_compute. reflexivity.
  - apply (Hother (js "https://generativelanguage.googleapis.com/v1beta/files/abc")).
    + left. by exists (js "https://"), (js "/v1beta/files/abc").
    + intros [_ Hid].
      apply Forall_forall with (x := 0x2F) in Hid.
      * unfold idCharacter in Hid. lia.
      * apply (bool_decide_unpack _). vm_compute. reflexivity.
    + reflexivity.
  - destruct (Hrejected (js "abc 123")) as (e & He & _); [|by exists e].
    rewrite <- acceptedReference_acceptedForm, <- acceptedReference_bool.
    vm_compute. discriminate.
  - destruct (Hrejected (js "abc.123")) as (e & He & _); [|by exists e].
    rewrite <- acceptedReference_acceptedForm, <- acceptedReference_bool.
    vm_compute. discriminate.
Defined.

(** A [files/] path with white space around it is accepted, it is no bare
    id, and it is not returned unchanged. *)
Lemma createVideoObject_unchanged_counterexample :
  VideoUtils.createVideoObject (js "  files/abc  ")
  = inr {| VideoUtils.uri := js "files/abc" |}
  ∧ js "files/abc" ≠ js "  files/abc  "
  ∧ matchesFileId (trim (js "  files/abc  ")) = false
  ∧ ¬ bareId (trim (js "  files/abc  ")).
Proof.
  split_and!; [vm_compute; reflexivity|vm_compute; discriminate
              |vm_compute; reflexivity|].
  rewrite <- bareFileId_bareId, <- matchesFileId_bare.
  vm_compute. discriminate.
Qed.

(** ** Upload retries: [uploadToS3] *)

Section UploadRetry.
Import S3Utils.

(** The schedule of [n] attempts starting with attempt number [attempt], in
    the order of time: every attempt but the last is followed by a pause of
    [2^attempt * 100] milliseconds. *)
Fixpoint schedule (n : nat) (attempt : Z) : list event :=
  match n with
  | O => []
  | S n' =>
      match n' with
      | O => [EvUploadDone attempt]
      | S _ =>
          EvUploadDone attempt :: EvSleep (2 ^ attempt * 100)
          :: schedule n' (attempt + 1)
      end
  end.

Variable env : s3Env.
Variable url : jsstring.
Variable maxRetries : Z.

(** What a run of the loop that starts in [st] with [remaining] iterations
    ahead did when it ends in [st'] with [r], having made [n] attempts. *)
Definition loopOutcome (remaining : nat) (attempt : Z)
    (lastError : option jsError) (st st' : s3State)
    (r : jsstring + option jsError) (n : nat) : Prop :=
  doneCalls st' = (doneCalls st + n)%nat
  ∧ (n ≤ remaining)%nat
  ∧ rev (trace st') = rev (trace st) ++ schedule n attempt
  ∧ (∀ j, (S j < n)%nat →
       ∃ e, uploadDone env (doneCalls st + j) = Some e
            ∧ isNetworkError e = true)
  ∧ match r with
    | inl u =>
        u = url
        ∧ ∃ j, S j = n ∧ uploadDone env (doneCalls st + j) = None
    | inr le =>
        (n = 0%nat ∧ remaining = 0%nat ∧ le = lastError)
        ∨ ∃ j e, S j = n
                 ∧ uploadDone env (doneCalls st + j) = Some e
                 ∧ le = Some e
                 ∧ (isNetworkError e = false ∨ n = remaining)
    end.

Lemma retryLoop_run remaining :
  ∀ attempt lastError st,
    remaining = Z.to_nat (maxRetries - attempt + 1) →
    ∃ r st' n,
      retryLoop env url maxRetries remaining attempt lastError st = (inr r, st')
      ∧ loopOutcome remaining attempt lastError st st' r n.
Proof.
  induction remaining as [|remaining IH]; intros attempt lastError st Hrem.
  - exists (inr lastError), st, 0%nat. split; [done|].
    unfold loopOutcome. rewrite Nat.add_0_r, app_nil_r.
    split_and!; [done|lia|done|intros; lia|by left].
  - cbn [retryLoop].
    unfold attemptOnce, tryCatch, awaitUploadDone, sleep.
    unfold mbind, M_bind, mret, M_ret.
    destruct (uploadDone env (doneCalls st)) as [e|] eqn:Hout.
    + destruct ((attempt =? maxRetries)%Z || negb (isNetworkError e)) eqn:Hstop.
      * eexists (inr (Some e)), _, 1%nat. split; [done|].
        unfold loopOutcome; cbn [doneCalls trace rev schedule].
        split_and!; [lia|lia|done|intros; lia|].
        right. exists 0%nat, e. rewrite Nat.add_0_r.
        split_and!; [done..|].
        apply orb_true_iff in Hstop as [Heq|Hne].
        -- right. apply Z.eqb_eq in Heq. lia.
        -- left. by apply negb_true_iff.
      * apply orb_false_iff in Hstop as [Hlt Hnet].
        apply Z.eqb_neq in Hlt. apply negb_false_iff in Hnet.
        match goal with
        | |- context [retryLoop _ _ _ _ _ _ ?s] => set (st1 := s)
        end.
        destruct (IH (attempt + 1)%Z (Some e) st1) as (r & st' & n & Hrun & Hn);
          [lia|].
        exists r, st', (S n). split; [exact Hrun|].
        destruct Hn as (Hcalls & Hle & Htrace & Hretried & Hres).
        assert (n ≠ 0%nat) as Hn0.
        { intros ->. destruct r as [u|le].
          - destruct Hres as (_ & j & ? & _). lia.
          - destruct Hres as [(_ & ? & _)|(j & ? & ? & _)]; lia. }
        unfold loopOutcome. subst st1. cbn [doneCalls trace] in *.
        split_and!.
        -- lia.
        -- lia.
        -- rewrite Htrace. cbn [rev]. rewrite <- !app_assoc.
           destruct n; [done|]. reflexivity.
        -- intros j Hj. destruct j as [|j].
           ++ exists e. by rewrite Nat.add_0_r.
           ++ destruct (Hretried j) as (e' & He' & Hnet'); [lia|].
              exists e'. split; [|done]. rewrite <- He'. f_equal. lia.
        -- destruct r as [u|le].
           ++ destruct Hres as (-> & j & <- & Hj). split; [done|].
              exists (S j). split; [done|]. rewrite <- Hj. f_equal. lia.
           ++ right. destruct Hres as [(? & _)|(j & e' & <- & Hj & -> & Hlast)];
                [done|].
              exists (S j), e'. split_and!; [done| |done|].
              ** rewrite <- Hj. f_equal. lia.
              ** destruct Hlast; [by left|right; lia].
    + eexists (inl url), _, 1%nat. split; [done|].
      unfold loopOutcome; cbn [doneCalls trace rev schedule].
      split_and!; [lia|lia|done|intros; lia|done|].
      exists 0%nat. by rewrite Nat.add_0_r.
Qed.

Lemma schedule_SS n attempt :
  schedule (S (S n)) attempt
  = EvUploadDone attempt :: EvSleep (2 ^ attempt * 100)
    :: schedule (S n) (attempt + 1).
Proof. reflexivity. Qed.

Lemma schedule_length n attempt :
  length (schedule n attempt) = (2 * n - 1)%nat.
Proof.
  revert attempt. induction n as [|n IH]; intros attempt; [done|].
  destruct n as [|n]; [done|].
  rewrite schedule_SS. cbn [length]. rewrite IH. lia.
Qed.

(** In a schedule the [i]-th attempt that is not the last is attempt number
    [attempt + i] and is followed by a pause of [2^(attempt+i) * 100] ms. *)
Lemma schedule_lookup n :
  ∀ attempt i, (S i < n)%nat →
    schedule n attempt !! (2 * i)%nat = Some (EvUploadDone (attempt + Z.of_nat i))
    ∧ schedule n attempt !! (2 * i + 1)%nat
      = Some (EvSleep (2 ^ (attempt + Z.of_nat i) * 100)).
Proof.
  induction n as [|n IH]; intros attempt i Hi; [lia|].
  destruct n as [|n]; [lia|]. rewrite schedule_SS.
  destruct i as [|i].
  - cbn. by rewrite Z.add_0_r.
  - replace (2 * S i)%nat with (S (S (2 * i))) by lia.
    replace (S (S (2 * i)) + 1)%nat with (S (S (2 * i + 1))) by lia.
    change (schedule (S n) (attempt + 1) !! (2 * i)%nat
            = Some (EvUploadDone (attempt + Z.of_nat (S i)))
            ∧ schedule (S n) (attempt + 1) !! (2 * i + 1)%nat
              = Some (EvSleep (2 ^ (attempt + Z.of_nat (S i)) * 100))).
    destruct (IH (attempt + 1)%Z i) as [H1 H2]; [lia|].
    rewrite H1, H2.
    by replace (attempt + 1 + Z.of_nat i)%Z with (attempt + Z.of_nat (S i))%Z by lia.
Qed.

End UploadRetry.

(** An upload that meets two name-resolution failures before it succeeds. *)
Definition flakyUpload : S3Utils.s3Env :=
  {| S3Utils.getCredentials :=
       Some {| S3Utils.region := None;
               S3Utils.accessKeyId := js "AK";
               S3Utils.secretAccessKey := js "SK";
               S3Utils.endpoint := None;
               S3Utils.forcePathStyle := false |};
     S3Utils.getExtension := λ _, Some (js "mp4");
     S3Utils.ulid := js "01J0000000000000000000000A";
     S3Utils.uploadDone := λ k,
       if (k <? 2)%nat
       then Some {| code := Some (js "ENOTFOUND"); name := Some (js "Error");
                    message := Some (js "getaddrinfo ENOTFOUND s3") |}
       else None |}.

Example flakyUpload_run :
  S3Utils.uploadToS3 flakyUpload [] (js "video/mp4") (js "b") (Some (js "veo"))
    (Some 5%Z) None S3Utils.initialState
  = (inr (js "https://b.s3.us-east-1.amazonaws.com/veo_01J0000000000000000000000A.mp4"),
     {| S3Utils.doneCalls := 3; S3Utils.elapsed := 600;
        S3Utils.trace :=
          [S3Utils.EvUploadDone 3; S3Utils.EvSleep 400; S3Utils.EvUploadDone 2;
           S3Utils.EvSleep 200; S3Utils.EvUploadDone 1] |}).
Proof. vm_compute. reflexivity. Qed.

(** The same upload when every attempt is refused, and when the name never
    resolves. *)
Definition failingUpload (e : jsError) : S3Utils.s3Env :=
  {| S3Utils.getCredentials := S3Utils.getCredentials flakyUpload;
     S3Utils.getExtension := S3Utils.getExtension flakyUpload;
     S3Utils.ulid := S3Utils.ulid flakyUpload;
     S3Utils.uploadDone := λ _, Some e |}.

Example refusedUpload_run :
  S3Utils.uploadToS3
    (failingUpload {| code := Some (js "AccessDenied"); name := Some (js "AccessDenied");
                      message := Some (js "Access Denied") |})
    [] (js "video/mp4") (js "b") (Some (js "veo")) (Some 5%Z) None
    S3Utils.initialState
  = (inl {| code := None; name := Some (js "NodeOperationError");
            message := Some (js "Failed to upload to S3 after 5 attempts: Access Denied") |},
     {| S3Utils.doneCalls := 1; S3Utils.elapsed := 0;
        S3Utils.trace := [S3Utils.EvUploadDone 1] |}).
Proof. vm_compute. reflexivity. Qed.

Example unresolvedUpload_run :
  S3Utils.uploadToS3
    (failingUpload {| code := Some (js "EAI_AGAIN"); name := Some (js "Error");
                      message := Some (js "getaddrinfo EAI_AGAIN s3") |})
    [] (js "video/mp4") (js "b") (Some (js "veo")) (Some 5%Z) None
    S3Utils.initialState
  = (inl {| code := None; name := Some (js "NodeOperationError");
            message := Some (js "The DNS server returned an error, perhaps the server is offline") |},
     {| S3Utils.doneCalls := 5; S3Utils.elapsed := 3000;
        S3Utils.trace :=
          [S3Utils.EvUploadDone 5; S3Utils.EvSleep 1600; S3Utils.EvUploadDone 4;
           S3Utils.EvSleep 800; S3Utils.EvUploadDone 3; S3Utils.EvSleep 400;
           S3Utils.EvUploadDone 2; S3Utils.EvSleep 200; S3Utils.EvUploadDone 1] |}).
Proof. vm_compute. reflexivity. Qed.

(** A transient failure, in the words of the specification: the error
    code is [ENOTFOUND] or [EAI_AGAIN], or the error name is
    [TimeoutError]. *)
Definition transient (e : jsError) : Prop :=
  code e = Some (js "ENOTFOUND")
  ∨ code e = Some (js "EAI_AGAIN")
  ∨ name e = Some (js "TimeoutError").

Lemma isNetworkError_transient e :
  S3Utils.isNetworkError e = true ↔ transient e.
Proof.
  unfold S3Utils.isNetworkError, transient.
  rewrite !orb_true_iff, !bool_decide_eq_true. tauto.
Qed.

Lemma isNetworkError_not_transient e :
  S3Utils.isNetworkError e = false ↔ ¬ transient e.
Proof. rewrite <- isNetworkError_transient. symmetry. apply not_true_iff_false. Qed.

(** C2. [uploadToS3] makes at most [maxRetries] attempts.  An attempt is
    followed by another one only when it failed with a transient error
    (code [ENOTFOUND] or [EAI_AGAIN], or name [TimeoutError]); the pause
    between attempt [n] and the next one is [2^n * 100] ms.  A failure that
    is not transient ends the run at once.  When the run fails, the error
    raised is the [NodeOperationError] made from ["Failed to upload to S3
    after <maxRetries> attempts: <message of the last failure>"]: its
    message is that text when the text mentions no common error code, and
    the description of the first common error code it mentions
    otherwise. *)
Theorem uploadToS3_retry_policy
    (env : S3Utils.s3Env) (data : Buffer) (mimeType bucketName : jsstring)
    (fileNamePrefix : option jsstring) (maxRetries : option Z)
    (publicDomain : option jsstring) (credentials : S3Utils.credentials) :
  S3Utils.getCredentials env = Some credentials →
  let limit := default 5%Z maxRetries in
  ∃ res st k,
    S3Utils.uploadToS3 env data mimeType bucketName fileNamePrefix maxRetries
      publicDomain S3Utils.initialState = (res, st)
    ∧ S3Utils.doneCalls st = k
    ∧ (Z.of_nat k ≤ Z.max 0 limit)%Z
    ∧ rev (S3Utils.trace st) = schedule k 1
    ∧ (∀ n, (1 ≤ n < k)%nat →
         rev (S3Utils.trace st) !! (2 * (n - 1))%nat
         = Some (S3Utils.EvUploadDone (Z.of_nat n))
         ∧ rev (S3Utils.trace st) !! (2 * (n - 1) + 1)%nat
           = Some (S3Utils.EvSleep (2 ^ Z.of_nat n * 100))
         ∧ ∃ e, S3Utils.uploadDone env (n - 1) = Some e ∧ transient e)
    ∧ (∀ n e, (1 ≤ n ≤ k)%nat →
         S3Utils.uploadDone env (n - 1) = Some e →
         ¬ transient e →
         n = k)
    ∧ match res with
      | inr url => ∃ j, S j = k ∧ S3Utils.uploadDone env j = None
      | inl err =>
          (k = 0%nat ∧ (limit ≤ 0)%Z
           ∧ err = nodeOperationError
                     (js "Failed to upload to S3 after " ++ showZ limit
                      ++ js " attempts: undefined"))
          ∨ ∃ j e,
              S j = k
              ∧ S3Utils.uploadDone env j = Some e
              ∧ (¬ transient e ∨ Z.of_nat k = limit)
              ∧ err = nodeOperationError
                        (js "Failed to upload to S3 after " ++ showZ limit
                         ++ js " attempts: " ++ interp (message e))
              ∧ name err = Some (js "NodeOperationError")
              ∧ ∃ surfaced,
                  message err = Some surfaced
                  ∧ describedBy
                      (js "Failed to upload to S3 after " ++ showZ limit
                       ++ js " attempts: " ++ interp (message e))
                      surfaced
      end.
Proof.
  intros Hcred limit. unfold S3Utils.uploadToS3. rewrite Hcred.
  fold limit. cbv zeta.
  match goal with
  | |- context [S3Utils.retryLoop env ?u _ _ _ _] => set (url := u)
  end.
  destruct (retryLoop_run env url limit (Z.to_nat limit) 1%Z None
              S3Utils.initialState) as (r & st & k & Hrun & Hout);
    [f_equal; lia|].
  destruct Hout as (Hcalls & Hle & Htrace & Hretried & Hres).
  cbn [S3Utils.initialState S3Utils.doneCalls S3Utils.trace rev app] in *.
  assert (∀ n, (1 ≤ n < k)%nat →
            ∃ e, S3Utils.uploadDone env (n - 1) = Some e ∧ transient e)
    as Hretried'.
  { intros n Hn. destruct (Hretried (n - 1)%nat) as (e & He & Hnet); [lia|].
    exists e. split; [done|]. by apply isNetworkError_transient. }
  unfold mbind, M_bind. rewrite Hrun.
  destruct r as [u|le].
  - exists (inr u), st, k. unfold mret, M_ret.
    split_and!; [done|lia|lia|done| | |].
    + intros n Hn.
      destruct (schedule_lookup k 1%Z (n - 1)%nat) as [H1 H2]; [lia|].
      rewrite Htrace, H1, H2.
      replace (1 + Z.of_nat (n - 1))%Z with (Z.of_nat n) by lia.
      split_and!; [done|done|]. by apply Hretried'.
    + intros n e Hn He Hnet.
      destruct (decide (n = k)) as [|Hne]; [done|].
      destruct (Hretried' n) as (e' & He' & Hnet'); [lia|]. congruence.
    + destruct Hres as (_ & j & Hj & Hnone). by exists j.
  - exists (inl (nodeOperationError (S3Utils.failureMessage limit le))), st, k.
    unfold throw.
    split_and!; [done|lia|lia|done| | |].
    + intros n Hn.
      destruct (schedule_lookup k 1%Z (n - 1)%nat) as [H1 H2]; [lia|].
      rewrite Htrace, H1, H2.
      replace (1 + Z.of_nat (n - 1))%Z with (Z.of_nat n) by lia.
      split_and!; [done|done|]. by apply Hretried'.
    + intros n e Hn He Hnet.
      destruct (decide (n = k)) as [|Hne]; [done|].
      destruct (Hretried' n) as (e' & He' & Hnet'); [lia|]. congruence.
    + destruct Hres as [(-> & Hz & ->)|(j & e & Hj & He & -> & Hlast)].
      * left. split_and!; [done|lia|done].
      * right. exists j, e. split_and!; [done|done| |done|done|].
        -- destruct Hlast as [Hnet|Hk]; [|right; lia].
           left. by apply isNetworkError_not_transient.
        -- apply nodeOperationError_message.
Qed.

(** The policy at three uploads: one that succeeds at its third attempt
    after two name-resolution failures, one that is refused, and one whose
    name never resolves. *)
Lemma uploadToS3_retry_policy_witness :
  (∃ st,
     S3Utils.uploadToS3 flakyUpload [] (js "video/mp4") (js "b") (Some (js "veo"))
       (Some 5%Z) None S3Utils.initialState
     = (inr (js "https://b.s3.us-east-1.amazonaws.com/veo_01J0000000000000000000000A.mp4"), st)
     ∧ S3Utils.doneCalls st = 3%nat
     ∧ rev (S3Utils.trace st)
       = [S3Utils.EvUploadDone 1; S3Utils.EvSleep 200; S3Utils.EvUploadDone 2;
          S3Utils.EvSleep 400; S3Utils.EvUploadDone 3])
  ∧ (∃ err st,
       S3Utils.uploadToS3
         (failingUpload {| code := Some (js "AccessDenied");
                           name := Some (js "AccessDenied");
                           message := Some (js "Access Denied") |})
         [] (js "video/mp4") (js "b") (Some (js "veo")) (Some 5%Z) None
         S3Utils.initialState
       = (inl err, st)
       ∧ S3Utils.doneCalls st = 1%nat
       ∧ rev (S3Utils.trace st) = [S3Utils.EvUploadDone 1]
       ∧ message err
         = Some (js "Failed to upload to S3 after 5 attempts: Access Denied"))
  ∧ (∃ err st,
       S3Utils.uploadToS3
         (failingUpload {| code := Some (js "EAI_AGAIN"); name := Some (js "Error");
                           message := Some (js "getaddrinfo EAI_AGAIN s3") |})
         [] (js "video/mp4") (js "b") (Some (js "veo")) (Some 5%Z) None
         S3Utils.initialState
       = (inl err, st)
       ∧ S3Utils.doneCalls st = 5%nat
       ∧ rev (S3Utils.trace st)
         = [S3Utils.EvUploadDone 1; S3Utils.EvSleep 200; S3Utils.EvUploadDone 2;
            S3Utils.EvSleep 400; S3Utils.EvUploadDone 3; S3Utils.EvSleep 800;
            S3Utils.EvUploadDone 4; S3Utils.EvSleep 1600; S3Utils.EvUploadDone 5]
       ∧ message err
         = Some (js "The DNS server returned an error, perhaps the server is offline")).
Proof.
  split_and!.
  - destruct (uploadToS3_retry_policy flakyUpload [] (js "video/mp4") (js "b")
                (Some (js "veo")) (Some 5%Z) None _ eq_refl)
      as (res & st & k & Hrun & Hk & _ & Htrace & _ & _ & Hres).
    vm_compute in Hrun. injection Hrun as <- <-.
    eexists. split; [vm_compute; reflexivity|].
    vm_compute in Hk. subst k. split; [vm_compute; reflexivity|].
    vm_compute. reflexivity.
  - destruct (uploadToS3_retry_policy
                (failingUpload {| code := Some (js "AccessDenied");
                                  name := Some (js "AccessDenied");
                                  message := Some (js "Access Denied") |})
                [] (js "video/mp4") (js "b")
                (Some (js "veo")) (Some 5%Z) None _ eq_refl)
      as (res & st & k & Hrun & Hk & _ & Htrace & _ & Hstop & Hres).
    vm_compute in Hrun. injection Hrun as <- <-.
    eexists _, _. split; [vm_compute; reflexivity|].
    split_and!; vm_compute; reflexivity.
  - destruct (uploadToS3_retry_policy
                (failingUpload {| code := Some (js "EAI_AGAIN"); name := Some (js "Error");
                                  message := Some (js "getaddrinfo EAI_AGAIN s3") |})
                [] (js "video/mp4") (js "b")
                (Some (js "veo")) (Some 5%Z) None _ eq_refl)
      as (res & st & k & Hrun & Hk & _ & Htrace & _ & Hstop & Hres).
    vm_compute in Hrun. injection Hrun as <- <-.
    eexists _, _. split; [vm_compute; reflexivity|].
    split_and!; vm_compute; reflexivity.
Defined.

(** The error raised when the name of the bucket's host never resolves does
    not have the message of the last failure in its message. *)
Lemma uploadToS3_message_counterexample :
  ∃ err st,
    S3Utils.uploadToS3
      (failingUpload {| code := Some (js "EAI_AGAIN"); name := Some (js "Error");
                        message := Some (js "getaddrinfo EAI_AGAIN s3") |})
      [] (js "video/mp4") (js "b") (Some (js "veo")) (Some 5%Z) None
      S3Utils.initialState
    = (inl err, st)
    ∧ S3Utils.doneCalls st = 5%nat
    ∧ message err
      = Some (js "The DNS server returned an error, perhaps the server is offline")
    ∧ includes (js "getaddrinfo EAI_AGAIN s3") (interp (message err)) = false
    ∧ includes (js "EAI_AGAIN") (interp (message err)) = false.
Proof. eexists _, _. split_and!; vm_compute; reflexivity. Qed.

(** ** The public URL of an uploaded object *)

Section PublicUrl.
Import S3Utils.

Lemma splitGo_no_separator sep s :
  ∀ cur, includes sep s = false → splitGo sep 0 cur s = [rev cur ++ s].
Proof.
  induction s as [|c s IH]; intros cur Hs.
  - cbn. by rewrite app_nil_r.
  - cbn [includes] in Hs. apply orb_false_iff in Hs as [Hhead Htail].
    cbn [splitGo]. rewrite Hhead, IH by done.
    cbn [rev]. by rewrite <- app_assoc.
Qed.

Lemma splitGo_step sep cur c s :
  splitGo sep 0 cur (c :: s)
  = if startsWith sep (c :: s)
    then rev cur :: splitGo sep (length sep - 1) [] s
    else splitGo sep 0 (c :: cur) s.
Proof. reflexivity. Qed.

Lemma splitGo_skip sep pre :
  ∀ cur s, splitGo sep (length pre) cur (pre ++ s) = splitGo sep 0 cur s.
Proof. induction pre as [|c pre IH]; intros cur s; [done|]. cbn. apply IH. Qed.

Lemma startsWith_app p s : startsWith p (p ++ s) = true.
Proof. induction p as [|c p IH]; [done|]. cbn. by rewrite N.eqb_refl, IH. Qed.

(** At an occurrence of the separator the current piece is closed. *)
Lemma splitGo_separator sep cur s :
  sep ≠ [] →
  splitGo sep 0 cur (sep ++ s) = rev cur :: splitGo sep 0 [] s.
Proof.
  intros Hsep. destruct sep as [|c sep]; [done|].
  change ((c :: sep) ++ s) with (c :: (sep ++ s)).
  rewrite splitGo_step.
  change (c :: (sep ++ s)) with ((c :: sep) ++ s).
  rewrite startsWith_app. cbn [length Nat.sub].
  by rewrite Nat.sub_0_r, splitGo_skip.
Qed.

Lemma startsWith_scheme_separator c s :
  c ≠ 0x3A → startsWith (js "://") (c :: s) = false.
Proof.
  intros Hc. change (js "://") with [0x3A; 0x2F; 0x2F]. cbn [startsWith].
  apply N.eqb_neq in Hc. by rewrite N.eqb_sym, Hc.
Qed.

(** An endpoint [scheme://host] splits into its scheme and its host. *)
Lemma split_scheme_host scheme host :
  Forall (λ c, c ≠ 0x3A) scheme →
  includes (js "://") host = false →
  split (js "://") (scheme ++ js "://" ++ host) = [scheme; host].
Proof.
  intros Hscheme Hhost. unfold split.
  enough (∀ cur, splitGo (js "://") 0 cur (scheme ++ js "://" ++ host)
                 = [rev cur ++ scheme; host]) as H by apply (H []).
  induction Hscheme as [|c scheme Hc _ IH]; intros cur.
  - rewrite app_nil_r. cbn [app].
    rewrite splitGo_separator by done.
    by rewrite splitGo_no_separator.
  - change ((c :: scheme) ++ js "://" ++ host)
      with (c :: (scheme ++ js "://" ++ host)).
    rewrite splitGo_step, startsWith_scheme_separator by done.
    rewrite IH. cbn [rev]. by rewrite <- app_assoc.
Qed.

Lemma uploadToS3_returns_publicUrl env data mimeType bucketName fileNamePrefix
    maxRetries publicDomain st0 url st :
  uploadToS3 env data mimeType bucketName fileNamePrefix maxRetries
    publicDomain st0 = (inr url, st) →
  ∃ credentials,
    getCredentials env = Some credentials
    ∧ url = publicUrl publicDomain (endpoint credentials)
              (forcePathStyle credentials) (regionOf credentials) bucketName
              (fileName env mimeType fileNamePrefix).
Proof.
  unfold uploadToS3. destruct (getCredentials env) as [credentials|];
    [|discriminate].
  cbv zeta. intros Hrun. exists credentials. split; [done|].
  match type of Hrun with
  | context [retryLoop env ?u ?m _ _ _] =>
      destruct (retryLoop_run env u m (Z.to_nat m) 1%Z None st0)
        as (r & st' & n & Hloop & Hout); [f_equal; lia|]
  end.
  unfold mbind, M_bind in Hrun. rewrite Hloop in Hrun.
  destruct r as [u|le]; [|discriminate].
  destruct Hout as (_ & _ & _ & _ & -> & _).
  unfold mret, M_ret in Hrun. congruence.
Qed.

End PublicUrl.

(** C3, as the code has it.  The URL returned by a successful upload is,
    in this order of precedence: for a public domain that is not blank,
    [{domain}/{key}], whatever the endpoint settings, where one trailing
    slash of the domain is dropped; otherwise, for a custom endpoint (one
    trailing slash dropped) with path-style forced, [{endpoint}/{bucket}/{key}];
    otherwise, for a custom endpoint [scheme://host],
    [{scheme}://{bucket}.{host}/{key}]; otherwise
    [https://{bucket}.s3.{region}.amazonaws.com/{key}]. *)
Theorem uploadToS3_url_precedence
    (env : S3Utils.s3Env) (data : Buffer) (mimeType bucketName : jsstring)
    (fileNamePrefix : option jsstring) (maxRetries : option Z)
    (publicDomain : option jsstring) (st0 st : S3Utils.s3State) (url : jsstring) :
  S3Utils.uploadToS3 env data mimeType bucketName fileNamePrefix maxRetries
    publicDomain st0 = (inr url, st) →
  ∃ credentials,
    S3Utils.getCredentials env = Some credentials
    ∧ let key := S3Utils.fileName env mimeType fileNamePrefix in
      (∀ d, publicDomain = Some d → trim d ≠ [] →
         url = stripTrailingSlash d ++ js "/" ++ key)
      ∧ ((publicDomain = None ∨ ∃ d, publicDomain = Some d ∧ trim d = []) →
         (∀ ep, S3Utils.endpoint credentials = Some ep → ep ≠ [] →
            S3Utils.forcePathStyle credentials = true →
            url = stripTrailingSlash ep ++ js "/" ++ bucketName ++ js "/" ++ key)
         ∧ (∀ ep scheme host,
              S3Utils.endpoint credentials = Some ep → ep ≠ [] →
              S3Utils.forcePathStyle credentials = false →
              stripTrailingSlash ep = scheme ++ js "://" ++ host →
              Forall (λ c, c ≠ 0x3A) scheme →
              includes (js "://") host = false →
              url = scheme ++ js "://" ++ bucketName ++ js "." ++ host
                    ++ js "/" ++ key)
         ∧ (S3Utils.endpoint credentials = None
            ∨ S3Utils.endpoint credentials = Some [] →
            url = js "https://" ++ bucketName ++ js ".s3."
                  ++ S3Utils.regionOf credentials ++ js ".amazonaws.com/"
                  ++ key)).
Proof.
  intros Hrun.
  destruct (uploadToS3_returns_publicUrl _ _ _ _ _ _ _ _ _ _ Hrun)
    as (credentials & Hcred & ->).
  exists credentials. split; [done|]. cbv zeta. unfold S3Utils.publicUrl.
  split.
  - intros d -> Hd. cbn [fmap option_fmap option_map truthy interp].
    destruct d as [|c d]; [done|]. destruct (trim (c :: d)); [done|]. done.
  - intros Hblank.
    assert (truthy publicDomain && truthy (trim <$> publicDomain) = false) as ->.
    { destruct Hblank as [->|(d & -> & Hd)]; [done|].
      cbn [fmap option_fmap option_map]. rewrite Hd. apply andb_false_r. }
    split_and!.
    + intros ep -> Hep ->. destruct ep; done.
    + intros ep scheme host -> Hep -> Hclean Hscheme Hhost.
      destruct ep as [|c ep]; [done|]. cbn [truthy interp]. cbv zeta.
      rewrite Hclean, split_scheme_host by done. done.
    + intros [->| ->]; done.
Qed.

(** The precedence at an upload with the public domain
    [https://cdn.example.com/]. *)
Lemma uploadToS3_url_precedence_witness :
  ∃ credentials,
    S3Utils.getCredentials flakyUpload = Some credentials
    ∧ let key := S3Utils.fileName flakyUpload (js "video/mp4") (Some (js "veo")) in
      let url := js "https://cdn.example.com/veo_01J0000000000000000000000A.mp4" in
      (∀ d, Some (js "https://cdn.example.com/") = Some d → trim d ≠ [] →
         url = stripTrailingSlash d ++ js "/" ++ key)
      ∧ ((Some (js "https://cdn.example.com/") = None
          ∨ ∃ d, Some (js "https://cdn.example.com/") = Some d ∧ trim d = []) →
         (∀ ep, S3Utils.endpoint credentials = Some ep → ep ≠ [] →
            S3Utils.forcePathStyle credentials = true →
            url = stripTrailingSlash ep ++ js "/" ++ js "b" ++ js "/" ++ key)
         ∧ (∀ ep scheme host,
              S3Utils.endpoint credentials = Some ep → ep ≠ [] →
              S3Utils.forcePathStyle credentials = false →
              stripTrailingSlash ep = scheme ++ js "://" ++ host →
              Forall (λ c, c ≠ 0x3A) scheme →
              includes (js "://") host = false →
              url = scheme ++ js "://" ++ js "b" ++ js "." ++ host
                    ++ js "/" ++ key)
         ∧ (S3Utils.endpoint credentials = None
            ∨ S3Utils.endpoint credentials = Some [] →
            url = js "https://" ++ js "b" ++ js ".s3."
                  ++ S3Utils.regionOf credentials ++ js ".amazonaws.com/"
                  ++ key)).
Proof.
  refine (uploadToS3_url_precedence flakyUpload [] (js "video/mp4") (js "b")
            (Some (js "veo")) (Some 5%Z) (Some (js "https://cdn.example.com/"))
            S3Utils.initialState _ _ _).
  vm_compute. reflexivity.
Defined.

(** C3, as stated, fails.  A public domain made of one space is not empty,
    yet the URL is the default one and not [{domain}/{key}]; and for the
    public domain [https://cdn.example.com/] the URL is not the domain
    followed by [/{key}], because the trailing slash is dropped first. *)
Lemma uploadToS3_public_domain_counterexample :
  let key := S3Utils.fileName flakyUpload (js "video/mp4") (Some (js "veo")) in
  (∃ st url,
     S3Utils.uploadToS3 flakyUpload [] (js "video/mp4") (js "b")
       (Some (js "veo")) (Some 5%Z) (Some (js " ")) S3Utils.initialState
     = (inr url, st)
     ∧ js " " ≠ []
     ∧ url = js "https://b.s3.us-east-1.amazonaws.com/" ++ key
     ∧ url ≠ js " " ++ js "/" ++ key)
  ∧ (∃ st url,
       S3Utils.uploadToS3 flakyUpload [] (js "video/mp4") (js "b")
         (Some (js "veo")) (Some 5%Z) (Some (js "https://cdn.example.com/"))
         S3Utils.initialState
       = (inr url, st)
       ∧ url = js "https://cdn.example.com/" ++ key
       ∧ url ≠ js "https://cdn.example.com/" ++ js "/" ++ key).
Proof.
  split.
  - eexists _, _. split; [vm_compute; reflexivity|].
    split_and!; [discriminate|vm_compute; reflexivity|vm_compute; discriminate].
  - eexists _, _. split; [vm_compute; reflexivity|].
    split; [vm_compute; reflexivity|vm_compute; discriminate].
Qed.

Example decode_space : decodeURIComponent (js "a%20b%2Fc") = Some (js "a b/c").
Proof. vm_compute. reflexivity. Qed.

Example decode_euro : decodeURIComponent (js "%E2%82%AC") = Some [0x20AC].
Proof. vm_compute. reflexivity. Qed.

Example decode_emoji : decodeURIComponent (js "%F0%9F%98%80") = Some [0xD83D; 0xDE00].
Proof. vm_compute. reflexivity. Qed.

Example decode_malformed :
  decodeURIComponent (js "%") = None
  ∧ decodeURIComponent (js "%E9") = None
  ∧ decodeURIComponent (js "%C0%80") = None
  ∧ decodeURIComponent (js "%ED%A0%80") = None
  ∧ decodeURIComponent (js "%zz") = None.
Proof. vm_compute. done. Qed.

(** ** Error messages surfaced by [execute] *)

Section SurfacedErrors.
Import Gemini.
Context {R : Type}.

Lemma stripControl_clean m : Forall (λ c, isControl c = false) (stripControl m).
Proof.
  unfold stripControl. induction m as [|c m IH]; [constructor|].
  cbn [List.filter]. destruct (isControl c) eqn:Hc; cbn [negb]; [done|].
  by constructor.
Qed.

Lemma stripControl_elem_of m c :
  c ∈ stripControl m ↔ c ∈ m ∧ isControl c = false.
Proof.
  unfold stripControl. rewrite !list_elem_of_In, filter_In.
  by rewrite negb_true_iff.
Qed.

Lemma stripControl_app m1 m2 :
  stripControl (m1 ++ m2) = stripControl m1 ++ stripControl m2.
Proof. apply List.filter_app. Qed.

Lemma stripControl_id m :
  Forall (λ c, isControl c = false) m → stripControl m = m.
Proof.
  unfold stripControl. induction 1 as [|c m Hc _ IH]; [done|].
  cbn [List.filter]. by rewrite Hc, IH.
Qed.

Lemma isControl_ranges c :
  isControl c = true ↔ c ≤ 0x1F ∨ (0x7F ≤ c ∧ c ≤ 0x9F).
Proof.
  unfold isControl. rewrite orb_true_iff, andb_true_iff, !N.leb_le. tauto.
Qed.

(** What the loop adds to [returnData], and what it throws. *)
Lemma executeFrom_surfaced continueOnFail (outcomes : list (jsError + list R)) :
  ∀ i returnData,
    match executeFrom continueOnFail outcomes i returnData with
    | inl (err, k) =>
        continueOnFail = false
        ∧ (i ≤ k)%nat
        ∧ (∀ j, (j < k - i)%nat → ∃ pushed, outcomes !! j = Some (inr pushed))
        ∧ ∃ e, outcomes !! (k - i)%nat = Some (inl e)
               ∧ err = nodeOperationError (sanitizedMessage e)
    | inr items =>
        ∃ added,
          items = returnData ++ added
          ∧ (∀ j e, outcomes !! j = Some (inl e) →
               continueOnFail = true
               ∧ ErrorItem (sanitizedMessage e) (i + j) ∈ added)
          ∧ ∀ msg k, ErrorItem msg k ∈ added →
              continueOnFail = true ∧ (i ≤ k)%nat
              ∧ ∃ e, outcomes !! (k - i)%nat = Some (inl e)
                     ∧ msg = sanitizedMessage e
    end.
Proof.
  induction outcomes as [|[error|pushed] rest IH]; intros i returnData.
  - cbn. exists []. rewrite app_nil_r. split_and!; [done| |].
    + intros j e Hj. by rewrite lookup_nil in Hj.
    + intros msg k Hk. by apply not_elem_of_nil in Hk.
  - cbn [executeFrom]. destruct continueOnFail eqn:Hc.
    + specialize (IH (S i) (returnData ++ [ErrorItem (sanitizedMessage error) i])).
      destruct (executeFrom true rest (S i) _) as [[err k]|items].
      { by destruct IH. }
      destruct IH as (added & -> & Hall & Hitems).
      exists (ErrorItem (sanitizedMessage error) i :: added).
      split_and!.
      * by rewrite <- app_assoc.
      * intros [|j] e Hj.
        -- cbn in Hj. injection Hj as ->. split; [done|].
           rewrite Nat.add_0_r. apply list_elem_of_here.
        -- destruct (Hall j e Hj) as [_ Hin]. split; [done|].
           apply list_elem_of_further.
           by replace (i + S j)%nat with (S i + j)%nat by lia.
      * intros msg k Hk. apply elem_of_cons in Hk as [Heq|Hk].
        -- injection Heq as -> ->. split_and!; [done|lia|].
           exists error. by rewrite Nat.sub_diag.
        -- destruct (Hitems msg k Hk) as (_ & Hle & e & He & ->).
           split_and!; [done|lia|]. exists e. split; [|done].
           by replace (k - i)%nat with (S (k - S i)) by lia.
    + split_and!; [done|lia|intros; lia|].
      exists error. by rewrite Nat.sub_diag.
  - cbn [executeFrom].
    specialize (IH (S i) (returnData ++ map ResultItem pushed)).
    destruct (executeFrom continueOnFail rest (S i) _) as [[err k]|items].
    + destruct IH as (Hc & Hle & Hbefore & e & He & Hmsg).
      split_and!; [done|lia| |].
      * intros [|j] Hj; [by eexists|]. apply (Hbefore j). lia.
      * exists e. split; [|done].
        by replace (k - i)%nat with (S (k - S i)) by lia.
    + destruct IH as (added & -> & Hall & Hitems).
      exists (map ResultItem pushed ++ added).
      split_and!.
      * by rewrite <- app_assoc.
      * intros [|j] e Hj; [done|].
        destruct (Hall j e Hj) as [Hc Hin]. split; [done|].
        apply elem_of_app. right.
        by replace (i + S j)%nat with (S i + j)%nat by lia.
      * intros msg k Hk. apply elem_of_app in Hk as [Hk|Hk].
        -- apply list_elem_of_fmap in Hk as (r & Hr & _). discriminate.
        -- destruct (Hitems msg k Hk) as (Hc & Hle & e & He & ->).
           split_and!; [done|lia|]. exists e. split; [|done].
           by replace (k - i)%nat with (S (k - S i)) by lia.
Qed.

End SurfacedErrors.

Example execute_continue :
  Gemini.execute (R := nat) true
    [inr [7%nat]; inl (mkError (js "bad" ++ [0x00; 0x1B; 0x9F] ++ js "data"));
     inl {| code := None; name := None; message := None |}]
  = inr [Gemini.ResultItem 7%nat; Gemini.ErrorItem (js "baddata") 1;
         Gemini.ErrorItem (js "Unknown error occurred") 2].
Proof. vm_compute. reflexivity. Qed.

Example execute_abort :
  Gemini.execute (R := nat) false
    [inr [7%nat]; inl (mkError (js "bad" ++ [0x00; 0x1B; 0x9F] ++ js "data"));
     inl {| code := None; name := None; message := None |}]
  = inl ({| code := None; name := Some (js "NodeOperationError");
            message := Some (js "baddata") |}, 1%nat).
Proof. vm_compute. reflexivity. Qed.

(** An item that fails in [createLivePhotoVideo] because ffmpeg wrote no
    output file. *)
Definition missingOutputFile : jsError :=
  mkError (js "Failed to create live photo video: ENOENT: no such file or directory, open '/tmp/livephoto_output_1700000000000.mp4'").

Lemma sanitizedMessage_clean e :
  Forall (λ c, Gemini.isControl c = false) (Gemini.sanitizedMessage e).
Proof.
  unfold Gemini.sanitizedMessage. destruct (truthy (message e)).
  - apply stripControl_clean.
  - apply (bool_decide_unpack _). vm_compute. reflexivity.
Qed.

(** C9. Every error message that [execute] records in an item under
    continue-on-failure is the message of the error caught for that item
    with every code unit of the ranges 0x00-0x1F and 0x7F-0x9F removed (the
    other code units are kept, in order), or ["Unknown error occurred"]
    when the caught error has no message.  The error that [execute] throws
    to abort is the [NodeOperationError] made from that same text: its
    message is the text itself when the text mentions no common error code,
    and the description of the first common error code it mentions
    otherwise; in both cases it has no code unit of the two ranges.  Every
    caught error is surfaced in one of the two ways. *)
Theorem execute_surfaces_sanitized_messages :
  (∀ (R : Type) continueOnFail (outcomes : list (jsError + list R)) err k,
     Gemini.execute continueOnFail outcomes = inl (err, k) →
     continueOnFail = false
     ∧ (∀ j, (j < k)%nat → ∃ pushed, outcomes !! j = Some (inr pushed))
     ∧ ∃ e surfaced,
         outcomes !! k = Some (inl e)
         ∧ message err = Some surfaced
         ∧ name err = Some (js "NodeOperationError")
         ∧ (noCodeMentioned (Gemini.sanitizedMessage e)
            ∨ ∃ errorCode description,
                firstMentioned (Gemini.sanitizedMessage e) errorCode description)
         ∧ (noCodeMentioned (Gemini.sanitizedMessage e) →
            surfaced = Gemini.sanitizedMessage e)
         ∧ (∀ errorCode description,
              firstMentioned (Gemini.sanitizedMessage e) errorCode description →
              surfaced = description)
         ∧ Forall (λ c, ¬ (c ≤ 0x1F ∨ (0x7F ≤ c ∧ c ≤ 0x9F))) surfaced)
  ∧ (∀ (R : Type) continueOnFail (outcomes : list (jsError + list R)) items,
       Gemini.execute continueOnFail outcomes = inr items →
       (∀ k e, outcomes !! k = Some (inl e) →
          continueOnFail = true
          ∧ Gemini.ErrorItem (Gemini.sanitizedMessage e) k ∈ items)
       ∧ ∀ msg k, Gemini.ErrorItem msg k ∈ items →
           ∃ e, outcomes !! k = Some (inl e)
                ∧ msg = Gemini.sanitizedMessage e)
  ∧ (∀ e,
       Gemini.sanitizedMessage e
       = match message e with
         | Some (c :: m) => Gemini.stripControl (c :: m)
         | _ => js "Unknown error occurred"
         end)
  ∧ (∀ m,
       Forall (λ c, ¬ (c ≤ 0x1F ∨ (0x7F ≤ c ∧ c ≤ 0x9F))) (Gemini.stripControl m)
       ∧ (∀ c, c ∈ Gemini.stripControl m
               ↔ c ∈ m ∧ ¬ (c ≤ 0x1F ∨ (0x7F ≤ c ∧ c ≤ 0x9F)))
       ∧ (Forall (λ c, ¬ (c ≤ 0x1F ∨ (0x7F ≤ c ∧ c ≤ 0x9F))) m →
          Gemini.stripControl m = m)
       ∧ ∀ m', Gemini.stripControl (m ++ m')
               = Gemini.stripControl m ++ Gemini.stripControl m').
Proof.
  split_and!.
  - intros R c outcomes err k Hrun.
    pose proof (executeFrom_surfaced c outcomes 0 []) as H.
    unfold Gemini.execute in Hrun. rewrite Hrun in H.
    destruct H as (Hc & _ & Hbefore & e & He & Herr).
    rewrite Nat.sub_0_r in *. subst err. split_and!; [done|done|].
    exists e, (setDescriptiveErrorMessage (Gemini.sanitizedMessage e)).
    split_and!; [done|done|done| | | |].
    + destruct (setDescriptiveErrorMessage_cases (Gemini.sanitizedMessage e))
        as [[Hnone _]|(errorCode & description & Hfirst & _)]; [by left|].
      right. by exists errorCode, description.
    + apply setDescriptiveErrorMessage_unchanged.
    + intros errorCode description.
      apply setDescriptiveErrorMessage_described.
    + assert (Forall (λ c, Gemini.isControl c = false)
                (setDescriptiveErrorMessage (Gemini.sanitizedMessage e))) as Hclean.
      { destruct (setDescriptiveErrorMessage_cases (Gemini.sanitizedMessage e))
          as [[_ ->]|(errorCode & description & Hfirst & ->)].
        - apply sanitizedMessage_clean.
        - destruct Hfirst as (earlier & later & Heq & _).
          apply (descriptions_clean errorCode). rewrite Heq.
          apply elem_of_app. right. apply list_elem_of_here. }
      eapply Forall_impl; [exact Hclean|].
      intros x Hx Hr. apply isControl_ranges in Hr. congruence.
  - intros R c outcomes items Hrun.
    pose proof (executeFrom_surfaced c outcomes 0 []) as H.
    unfold Gemini.execute in Hrun. rewrite Hrun in H.
    destruct H as (added & -> & Hall & Hitems). cbn [app]. split.
    + intros k e He. by apply (Hall k e).
    + intros msg k Hk. destruct (Hitems msg k Hk) as (_ & _ & e & He & ->).
      rewrite Nat.sub_0_r in He. by exists e.
  - intros [c n [[|x m]|]]; reflexivity.
  - intros m. split_and!.
    + eapply Forall_impl; [apply stripControl_clean|].
      intros c Hc Hr. apply isControl_ranges in Hr. congruence.
    + intros c. rewrite stripControl_elem_of, <- isControl_ranges.
      by rewrite not_true_iff_false.
    + intros Hm. apply stripControl_id. eapply Forall_impl; [exact Hm|].
      intros c Hc. apply not_true_iff_false. by rewrite isControl_ranges.
    + apply stripControl_app.
Qed.

(** The messages of three aborted runs: binary data in the message of the
    caught error is removed; an error that names a missing file is thrown
    with the description of [ENOENT]; and so is, with the description of
    [EACCES], an error whose message has the letters of that code in lower
    case, inside a URL. *)
Lemma execute_surfaces_sanitized_messages_witness :
  (∃ err,
     Gemini.execute (R := nat) false
       [inr [7%nat]; inl (mkError (js "bad" ++ [0x00; 0x1B; 0x9F] ++ js "data"))]
     = inl (err, 1%nat)
     ∧ message err = Some (js "baddata"))
  ∧ (∃ err,
       Gemini.execute (R := nat) false [inl missingOutputFile] = inl (err, 0%nat)
       ∧ message err = Some (js "The file or directory does not exist"))
  ∧ (∃ err,
       Gemini.execute (R := nat) false
         [inl (mkError (js "No image at https://img.example/theaccess.png"))]
       = inl (err, 0%nat)
       ∧ message err
         = Some (js "Forbidden by access permissions, make sure you have the right permissions")).
Proof.
  split_and!.
  - eexists. split; [vm_compute; reflexivity|].
    destruct (proj1 execute_surfaces_sanitized_messages nat false
                [inr [7%nat]; inl (mkError (js "bad" ++ [0x00; 0x1B; 0x9F] ++ js "data"))]
                _ 1%nat eq_refl)
      as (_ & _ & e & surfaced & He & Hmsg & _ & _ & Hsame & _).
    injection He as <-. transitivity (Some surfaced); [exact Hmsg|]. f_equal.
    rewrite Hsame; [vm_compute; reflexivity|].
    apply noCodeMentioned_find. vm_compute. reflexivity.
  - eexists. split; [vm_compute; reflexivity|].
    destruct (proj1 execute_surfaces_sanitized_messages nat false
                [inl missingOutputFile] _ 0%nat eq_refl)
      as (_ & _ & e & surfaced & He & Hmsg & _ & _ & _ & Hdescribed & _).
    injection He as <-. transitivity (Some surfaced); [exact Hmsg|]. f_equal.
    apply (Hdescribed (js "ENOENT")).
    apply firstMentioned_find. vm_compute. reflexivity.
  - eexists. split; [vm_compute; reflexivity|].
    destruct (proj1 execute_surfaces_sanitized_messages nat false
                [inl (mkError (js "No image at https://img.example/theaccess.png"))]
                _ 0%nat eq_refl)
      as (_ & _ & e & surfaced & He & Hmsg & _ & _ & _ & Hdescribed & _).
    injection He as <-. transitivity (Some surfaced); [exact Hmsg|]. f_equal.
    apply (Hdescribed (js "EACCES")).
    apply firstMentioned_find. vm_compute. reflexivity.
Defined.

(** The message thrown for an item that failed with a file error is not the
    message of that error without its control characters. *)
Lemma execute_abort_message_counterexample :
  ∃ err,
    Gemini.execute (R := nat) false [inl missingOutputFile] = inl (err, 0%nat)
    ∧ message err = Some (js "The file or directory does not exist")
    ∧ message err ≠ Some (Gemini.sanitizedMessage missingOutputFile)
    ∧ Gemini.sanitizedMessage missingOutputFile
      = js "Failed to create live photo video: ENOENT: no such file or directory, open '/tmp/livephoto_output_1700000000000.mp4'".
Proof.
  eexists. split_and!; [vm_compute; reflexivity|vm_compute; reflexivity
                       |vm_compute; discriminate|vm_compute; reflexivity].
Qed.

(** ** Voices of the speakers in multi-speaker mode *)

Section SpeakerVoices.
Import Gemini.

(** The pool a voice name stands for when it asks for a random voice. *)
Definition randomCategory (key : jsstring) : option (list jsstring) :=
  if decide (key = js "__random__") then Some Voices.allVoices
  else if decide (key = js "__random_male__") then Some Voices.maleVoices
  else if decide (key = js "__random_female__") then Some Voices.femaleVoices
  else None.

Lemma allVoices_NoDup : NoDup Voices.allVoices.
Proof. apply (bool_decide_unpack _). vm_compute. reflexivity. Qed.

Lemma randomCategory_NoDup key pool :
  randomCategory key = Some pool → NoDup pool.
Proof.
  unfold randomCategory. pose proof allVoices_NoDup as Hall.
  pose proof Hall as Hparts. unfold Voices.allVoices in Hparts.
  apply NoDup_app in Hparts as (Hm & _ & Hf).
  repeat case_decide; intros [= <-]; done.
Qed.

Variable random : nat → Q.
Hypothesis random_range : ∀ k, (0 <= random k)%Q ∧ (random k < 1)%Q.

Lemma floor_random_index k (n : nat) :
  (0 < n)%nat →
  (0 ≤ Qfloor (random k * inject_Z (Z.of_nat n)) < Z.of_nat n)%Z.
Proof.
  intros Hn. destruct (random_range k) as [H0 H1].
  assert (0 < inject_Z (Z.of_nat n))%Q as Hpos.
  { change 0%Q with (inject_Z 0). rewrite <- Zlt_Qlt. lia. }
  split.
  - change 0%Z with (Qfloor (inject_Z 0)). apply Qfloor_resp_le.
    change (inject_Z 0) with 0%Q. apply Qmult_le_0_compat; [done|].
    by apply Qlt_le_weak.
  - rewrite Zlt_Qlt. eapply Qle_lt_trans; [apply Qfloor_le|].
    rewrite <- (Qmult_1_l (inject_Z (Z.of_nat n))) at 2.
    by apply Qmult_lt_compat_r.
Qed.

(** A random element of a non-empty array is one of its elements. *)
Lemma randomElement_elem_of arr st :
  arr ≠ [] →
  ∃ v, randomElement random arr st
       = (inr (Some v), {| usedVoices := usedVoices st;
                           randomCalls := S (randomCalls st) |})
       ∧ v ∈ arr.
Proof.
  intros Harr. unfold randomElement.
  destruct (floor_random_index (randomCalls st) (length arr)) as [Hlo Hhi].
  { destruct arr; [done|cbn; lia]. }
  destruct (Z.ltb_spec (Qfloor (random (randomCalls st)
                                * inject_Z (Z.of_nat (length arr)))) 0); [lia|].
  destruct (lookup_lt_is_Some_2 arr
              (Z.to_nat (Qfloor (random (randomCalls st)
                                 * inject_Z (Z.of_nat (length arr))))))
    as [v Hv]; [lia|].
  exists v. rewrite Hv. split; [done|]. by eapply list_elem_of_lookup_2.
Qed.

(** A pick from [pool] is a voice of [pool], and one that is not used yet
    whenever [pool] has such a voice. *)
Lemma pickUnused_spec pool st :
  pool ≠ [] →
  ∃ v, pickUnused random pool st
       = (inr (Some v), {| usedVoices := usedVoices st;
                           randomCalls := S (randomCalls st) |})
       ∧ v ∈ pool
       ∧ ((∃ u, u ∈ pool ∧ Some u ∉ usedVoices st) → Some v ∉ usedVoices st).
Proof.
  intros Hpool. unfold pickUnused, getState, mbind, M_bind.
  case_bool_decide as Hlen.
  - destruct (randomElement_elem_of pool st Hpool) as (v & -> & Hv).
    exists v. split_and!; [done..|].
    intros (u & Hu & Hfree). apply length_zero_iff_nil in Hlen.
    by destruct (filter_nil_not_elem_of _ _ u Hlen Hfree).
  - destruct (randomElement_elem_of
                (filter (λ v, Some v ∉ usedVoices st) pool) st) as (v & -> & Hv).
    { intros Hnil. by rewrite Hnil in Hlen. }
    apply list_elem_of_filter in Hv as [Hfree Hv].
    exists v. by split_and!.
Qed.

Lemma randomCategory_nonempty key pool :
  randomCategory key = Some pool → pool ≠ [].
Proof. unfold randomCategory. repeat case_decide; intros [= <-]; done. Qed.

(** The voices assigned before position [i], with those in use at the
    start. *)
Definition assignedBefore (used : gset (option jsstring))
    (voices : list jsstring) (i : nat) : gset (option jsstring) :=
  list_to_set (Some <$> take i voices) ∪ used.

Lemma elem_of_assignedBefore_empty voices i v :
  Some v ∈ assignedBefore ∅ voices i ↔ v ∈ take i voices.
Proof.
  unfold assignedBefore. rewrite elem_of_union, elem_of_list_to_set.
  rewrite list_elem_of_fmap. split.
  - intros [(u & [= ->] & Hu)|H]; [done|]. by apply not_elem_of_empty in H.
  - intros Hv. left. by exists v.
Qed.

(** What one speaker gets. *)
Definition voiceChoice (sp : speaker) (earlier : gset (option jsstring))
    (v : jsstring) : Prop :=
  match randomCategory (voiceName sp) with
  | Some pool =>
      v ∈ pool ∧ ((∃ u, u ∈ pool ∧ Some u ∉ earlier) → Some v ∉ earlier)
  | None => v = voiceName sp
  end.

Lemma assignVoice_spec sp st :
  ∃ v st',
    assignVoice random sp st
    = (inr {| cfgSpeaker := speakerLabel sp; cfgVoiceName := Some v |}, st')
    ∧ usedVoices st' = {[Some v]} ∪ usedVoices st
    ∧ voiceChoice sp (usedVoices st) v.
Proof.
  unfold assignVoice, voiceChoice, randomCategory.
  repeat case_decide.
  1-3: match goal with
       | |- context [pickUnused random ?pool] =>
           destruct (pickUnused_spec pool st) as (v & Hrun & Hv & Hfree);
             [done|];
           exists v; eexists; unfold mbind, M_bind; rewrite Hrun;
           unfold modifyState, mret, M_ret; cbn [usedVoices];
           split_and!; done
       end.
  exists (voiceName sp). eexists. unfold mbind, M_bind, mret, M_ret, modifyState.
  split_and!; done.
Qed.

Definition configOf (sp : speaker) (v : jsstring) : speakerVoiceConfig :=
  {| cfgSpeaker := speakerLabel sp; cfgVoiceName := Some v |}.

(** A whole request: each speaker gets a voice, chosen against the voices
    assigned to the speakers before. *)
Lemma assignVoices_run speakers :
  ∀ st, ∃ voices st',
    assignVoices random speakers st = (inr (zip_with configOf speakers voices), st')
    ∧ length voices = length speakers
    ∧ usedVoices st' = list_to_set (Some <$> voices) ∪ usedVoices st
    ∧ ∀ i sp v, speakers !! i = Some sp → voices !! i = Some v →
        voiceChoice sp (assignedBefore (usedVoices st) voices i) v.
Proof.
  induction speakers as [|sp speakers IH]; intros st.
  - exists [], st. cbn. split_and!; [done|done|by rewrite (left_id_L ∅ (∪))|].
    intros i sp v Hsp. by rewrite lookup_nil in Hsp.
  - destruct (assignVoice_spec sp st) as (v & st1 & Hone & Hused1 & Hv).
    destruct (IH st1) as (voices & st' & Hrest & Hlen & Hused & Hall).
    exists (v :: voices), st'. cbn [assignVoices].
    unfold mbind, M_bind. rewrite Hone, Hrest. unfold mret, M_ret.
    split_and!.
    + done.
    + cbn. by rewrite Hlen.
    + rewrite Hused, Hused1. cbn [fmap list_fmap list_to_set].
      by rewrite (assoc_L (∪)), (comm_L (∪) _ {[Some v]}).
    + intros [|i] sp' v' Hsp Hv'.
      * cbn in Hsp, Hv'. injection Hsp as <-. injection Hv' as <-.
        unfold assignedBefore. cbn [take fmap list_fmap list_to_set].
        by rewrite (left_id_L ∅ (∪)).
      * cbn in Hsp, Hv'. specialize (Hall i sp' v' Hsp Hv').
        replace (assignedBefore (usedVoices st) (v :: voices) (S i))
          with (assignedBefore (usedVoices st1) voices i); [done|].
        unfold assignedBefore. rewrite Hused1.
        cbn [take fmap list_fmap list_to_set].
        by rewrite (assoc_L (∪)), (comm_L (∪) _ {[Some v]}).
Qed.

(** Speakers that all ask for a random voice of one pool, no more of them
    than the pool has voices, get pairwise distinct voices of the pool. *)
Lemma assignVoices_distinct key pool speakers voices :
  randomCategory key = Some pool →
  Forall (λ sp, voiceName sp = key) speakers →
  (length speakers ≤ length pool)%nat →
  length voices = length speakers →
  (∀ i sp v, speakers !! i = Some sp → voices !! i = Some v →
     voiceChoice sp (assignedBefore ∅ voices i) v) →
  NoDup voices ∧ Forall (λ v, v ∈ pool) voices.
Proof.
  intros Hkey Hspeakers Hle Hlen Hall.
  enough (∀ i, (i ≤ length voices)%nat →
            NoDup (take i voices) ∧ Forall (λ v, v ∈ pool) (take i voices)) as H.
  { specialize (H (length voices) (le_n _)). by rewrite firstn_all in H. }
  induction i as [|i IH]; intros Hi.
  - rewrite take_0. split; constructor.
  - destruct IH as [Hnodup Hin]; [lia|].
    destruct (lookup_lt_is_Some_2 voices i) as [v Hv]; [lia|].
    destruct (lookup_lt_is_Some_2 speakers i) as [sp Hsp]; [lia|].
    rewrite (take_S_r _ _ _ Hv).
    specialize (Hall i sp v Hsp Hv). unfold voiceChoice in Hall.
    rewrite Forall_lookup in Hspeakers. rewrite (Hspeakers i sp Hsp), Hkey in Hall.
    destruct Hall as [Hpool Hfree].
    assert (∃ u, u ∈ pool ∧ Some u ∉ assignedBefore ∅ voices i) as Hunused.
    { destruct (decide (Forall (λ u, u ∈ take i voices) pool)) as [Hfull|Hnot].
      - exfalso. rewrite Forall_forall in Hfull.
        pose proof (randomCategory_NoDup key pool Hkey) as Hnd.
        pose proof (submseteq_length _ _ (NoDup_submseteq _ _ Hnd Hfull)) as Hlt.
        rewrite length_take in Hlt. lia.
      - apply not_Forall_Exists in Hnot; [|apply _].
        apply Exists_exists in Hnot as (u & Hu & Hnotin).
        exists u. split; [done|]. by rewrite elem_of_assignedBefore_empty. }
    specialize (Hfree Hunused). rewrite elem_of_assignedBefore_empty in Hfree.
    split.
    + apply NoDup_app. split_and!; [done| |apply NoDup_singleton].
      intros x Hx Hx'. apply list_elem_of_singleton in Hx'. by subst.
    + apply Forall_app. split; [done|]. by constructor.
Qed.

End SpeakerVoices.

Example three_random_female :
  Gemini.speakerVoiceConfigs (λ _, 1 # 2)%Q
    [ {| Gemini.speakerLabel := js "A"; Gemini.voiceName := js "__random_female__" |};
      {| Gemini.speakerLabel := js "B"; Gemini.voiceName := js "__random_female__" |};
      {| Gemini.speakerLabel := js "C"; Gemini.voiceName := js "Erinome" |};
      {| Gemini.speakerLabel := js "D"; Gemini.voiceName := js "__random_female__" |} ]
  = inr [ configOf {| Gemini.speakerLabel := js "A"; Gemini.voiceName := [] |} (js "Erinome");
          configOf {| Gemini.speakerLabel := js "B"; Gemini.voiceName := [] |} (js "Despina");
          configOf {| Gemini.speakerLabel := js "C"; Gemini.voiceName := [] |} (js "Erinome");
          configOf {| Gemini.speakerLabel := js "D"; Gemini.voiceName := [] |} (js "Laomedeia") ].
Proof. vm_compute. reflexivity. Qed.

(** C7. In multi-speaker mode every speaker gets a voice, and the request
    never fails.  A speaker that asks for a random voice of a category gets a
    voice of that category's pool; it is one that no earlier speaker of the
    request was given whenever the pool still has such a voice, and a
    (then necessarily repeated) voice of the full pool otherwise.  Hence
    [N] speakers that all ask for a random voice of the same category, with
    [N] at most the size of its pool, get pairwise distinct voices. *)
Theorem multi_speaker_voices (random : nat → Q) :
  (∀ k, (0 <= random k)%Q ∧ (random k < 1)%Q) →
  (∀ speakers, ∃ voices,
     Gemini.speakerVoiceConfigs random speakers
     = inr (zip_with configOf speakers voices)
     ∧ length voices = length speakers
     ∧ ∀ i sp v, speakers !! i = Some sp → voices !! i = Some v →
         let earlier := assignedBefore ∅ voices i in
         match randomCategory (Gemini.voiceName sp) with
         | Some pool =>
             v ∈ pool
             ∧ ((∃ u, u ∈ pool ∧ Some u ∉ earlier) → Some v ∉ earlier)
             ∧ ((∀ u, u ∈ pool → Some u ∈ earlier) → Some v ∈ earlier)
         | None => v = Gemini.voiceName sp
         end)
  ∧ (∀ key pool speakers,
       randomCategory key = Some pool →
       Forall (λ sp, Gemini.voiceName sp = key) speakers →
       (length speakers ≤ length pool)%nat →
       ∃ voices,
         Gemini.speakerVoiceConfigs random speakers
         = inr (zip_with configOf speakers voices)
         ∧ length voices = length speakers
         ∧ NoDup voices
         ∧ Forall (λ v, v ∈ pool) voices).
Proof.
  intros Hrange. split.
  - intros speakers.
    destruct (assignVoices_run random Hrange speakers Gemini.noVoiceUsed)
      as (voices & st' & Hrun & Hlen & _ & Hall).
    exists voices. unfold Gemini.speakerVoiceConfigs. rewrite Hrun.
    split_and!; [done|done|].
    intros i sp v Hsp Hv. specialize (Hall i sp v Hsp Hv).
    unfold voiceChoice in Hall. cbv zeta. cbn [Gemini.noVoiceUsed Gemini.usedVoices] in Hall.
    destruct (randomCategory (Gemini.voiceName sp)) as [pool|]; [|done].
    destruct Hall as [Hpool Hfree]. split_and!; [done|done|]. intros Hfull. by apply Hfull.
  - intros key pool speakers Hkey Hspeakers Hle.
    destruct (assignVoices_run random Hrange speakers Gemini.noVoiceUsed)
      as (voices & st' & Hrun & Hlen & _ & Hall).
    exists voices. unfold Gemini.speakerVoiceConfigs. rewrite Hrun.
    destruct (assignVoices_distinct key pool speakers voices) as [Hnd Hin]; done.
Qed.

(** Fourteen speakers that ask for a random female voice. *)
Definition femaleChoir : list Gemini.speaker :=
  map (λ n, {| Gemini.speakerLabel := js "Speaker " ++ showZ (Z.of_nat n);
               Gemini.voiceName := js "__random_female__" |})
    (seq 1 14).

(** The fourteen speakers get the fourteen female voices, each once. *)
Lemma multi_speaker_voices_witness :
  ∃ voices,
    Gemini.speakerVoiceConfigs (λ _, 1 # 2)%Q femaleChoir
    = inr (zip_with configOf femaleChoir voices)
    ∧ length voices = length femaleChoir
    ∧ NoDup voices
    ∧ Forall (λ v, v ∈ Voices.femaleVoices) voices.
Proof.
  refine (proj2 (multi_speaker_voices (λ _, 1 # 2)%Q _)
            (js "__random_female__") Voices.femaleVoices femaleChoir _ _ _).
  - intros k. split; [unfold Qle; cbn; lia|reflexivity].
  - reflexivity.
  - apply (bool_decide_unpack _). vm_compute. reflexivity.
  - apply (bool_decide_unpack _). vm_compute. reflexivity.
Defined.

(** ** Audio stripping: [removeAudioFromVideo] *)

Section RemoveAudio.
Import VideoUtils.

Lemma tempPath_input_output env :
  tempPath env (js "input_") ≠ tempPath env (js "output_").
Proof.
  unfold tempPath. intros H. apply app_inv_head in H. discriminate H.
Qed.

Variable env : fsEnv.
Variable videoBuffer : Buffer.
Variable fs : fsState.

Let inputPath := tempPath env (js "input_").
Let outputPath := tempPath env (js "output_").

(** When the input cannot be written or the subprocess fails, the [catch]
    block returns the original buffer. *)
Lemma removeAudioFromVideo_failure :
  writable env inputPath = false ∨ ffmpegStripAudio env videoBuffer = None →
  ∃ fs', removeAudioFromVideo env videoBuffer fs = (inr (videoBuffer, false), fs')
         ∧ fs' !! inputPath = None ∧ fs' !! outputPath = None.
Proof.
  pose proof (tempPath_input_output env) as Hne.
  fold inputPath outputPath in Hne.
  intros Hfail. unfold removeAudioFromVideo.
  fold inputPath outputPath.
  unfold tryCatch, writeFile, execFfmpegCopyNoAudio, readFile, unlink.
  unfold mbind, M_bind, mret, M_ret.
  destruct (writable env inputPath) eqn:Hw.
  - destruct Hfail as [|Hff]; [done|].
    rewrite lookup_insert_eq. cbn [mbind option_bind]. rewrite Hff.
    rewrite lookup_insert_eq.
    destruct (delete inputPath (<[inputPath:=videoBuffer]> fs) !! outputPath)
      eqn:Hout; eexists; (split; [reflexivity|]).
    + rewrite lookup_delete_ne, !lookup_delete_eq by done. done.
    + split; [apply lookup_delete_eq|done].
  - destruct (fs !! inputPath) eqn:Hin.
    + destruct (delete inputPath fs !! outputPath) eqn:Hout;
        eexists; (split; [reflexivity|]).
      * rewrite lookup_delete_ne, !lookup_delete_eq by done. done.
      * split; [apply lookup_delete_eq|done].
    + destruct (fs !! outputPath) eqn:Hout; eexists; (split; [reflexivity|]).
      * rewrite lookup_delete_ne, lookup_delete_eq by done. done.
      * done.
Qed.

(** When the input is written and the subprocess succeeds, the result is
    the output of the subprocess. *)
Lemma removeAudioFromVideo_success out :
  writable env inputPath = true →
  ffmpegStripAudio env videoBuffer = Some out →
  ∃ fs', removeAudioFromVideo env videoBuffer fs = (inr (out, true), fs')
         ∧ fs' !! inputPath = None ∧ fs' !! outputPath = None.
Proof.
  pose proof (tempPath_input_output env) as Hne.
  fold inputPath outputPath in Hne.
  intros Hw Hff. unfold removeAudioFromVideo.
  fold inputPath outputPath.
  unfold tryCatch, writeFile, execFfmpegCopyNoAudio, readFile, unlink.
  unfold mbind, M_bind, mret, M_ret.
  rewrite Hw, lookup_insert_eq. cbn [mbind option_bind]. rewrite Hff.
  rewrite lookup_insert_eq, lookup_insert_ne, lookup_insert_eq by done.
  rewrite lookup_delete_ne, lookup_insert_eq by done.
  eexists. split; [reflexivity|].
  rewrite lookup_delete_ne, !lookup_delete_eq by done. done.
Qed.

End RemoveAudio.

(** C8. [removeAudioFromVideo] never throws.  When the ffmpeg subprocess
    fails (non-zero exit, time-out, tool missing) or the input file cannot
    be written, it returns the input buffer itself with [audioRemoved =
    false]; when the subprocess succeeds it returns the bytes ffmpeg
    produced with [audioRemoved = true].  In both cases the two temporary
    files are gone afterwards. *)
Theorem removeAudioFromVideo_never_raises :
  ∀ (env : VideoUtils.fsEnv) (videoBuffer : Buffer) (fs : VideoUtils.fsState),
    let inputPath := VideoUtils.tempPath env (js "input_") in
    let outputPath := VideoUtils.tempPath env (js "output_") in
    ∃ buffer audioRemoved fs',
      VideoUtils.removeAudioFromVideo env videoBuffer fs
      = (inr (buffer, audioRemoved), fs')
      ∧ fs' !! inputPath = None ∧ fs' !! outputPath = None
      ∧ match VideoUtils.ffmpegStripAudio env videoBuffer with
        | None => buffer = videoBuffer ∧ audioRemoved = false
        | Some out =>
            if VideoUtils.writable env inputPath
            then buffer = out ∧ audioRemoved = true
            else buffer = videoBuffer ∧ audioRemoved = false
        end.
Proof.
  intros env videoBuffer fs inputPath outputPath.
  destruct (VideoUtils.ffmpegStripAudio env videoBuffer) as [out|] eqn:Hff.
  - destruct (VideoUtils.writable env inputPath) eqn:Hw.
    + destruct (removeAudioFromVideo_success env videoBuffer fs out Hw Hff)
        as (fs' & Hrun & Hin & Hout).
      exists out, true, fs'. by split_and!.
    + destruct (removeAudioFromVideo_failure env videoBuffer fs (or_introl Hw))
        as (fs' & Hrun & Hin & Hout).
      exists videoBuffer, false, fs'. by split_and!.
  - destruct (removeAudioFromVideo_failure env videoBuffer fs (or_intror Hff))
      as (fs' & Hrun & Hin & Hout).
    exists videoBuffer, false, fs'. by split_and!.
Qed.

(** ** generateVideo: duration and resolution *)

Section VideoDuration.
Import Gemini.

(** The parameters [p] with another value entered for [durationSeconds]. *)
Definition withDurationParam (p : videoParams) (d : jsstring) : videoParams :=
  {| p_videoModel := p_videoModel p;
     p_generationMode := p_generationMode p;
     p_videoPrompt := p_videoPrompt p;
     p_negativePrompt := p_negativePrompt p;
     p_resolution := p_resolution p;
     p_durationSeconds := d;
     p_personGeneration := p_personGeneration p;
     p_generateAudio := p_generateAudio p;
     p_aspectRatio := p_aspectRatio p;
     p_startFrameUrl := p_startFrameUrl p;
     p_enableLooping := p_enableLooping p;
     p_endFrameUrl := p_endFrameUrl p;
     p_referenceImages := p_referenceImages p;
     p_styleImageUrl := p_styleImageUrl p;
     p_inputVideoUri := p_inputVideoUri p |}.

(** The payload [pl] with another [config.durationSeconds]. *)
Definition withPayloadDuration (d : option Z) (pl : generateVideosPayload)
  : generateVideosPayload :=
  withConfig pl (withDuration (config pl) d).

Definition mapPayload (f : generateVideosPayload → generateVideosPayload)
    (r : (jsError + generateVideosPayload) * requestState)
  : (jsError + generateVideosPayload) * requestState :=
  match r with
  | (inr pl, st) => (inr (f pl), st)
  | (inl e, st) => (inl e, st)
  end.

(** The value entered for the duration reaches the payload and nothing
    else: no path of the request phase looks at it. *)
Lemma buildVideoRequest_duration env p d st :
  buildVideoRequest env (withDurationParam p d) st
  = mapPayload (withPayloadDuration (parseInt10 d)) (buildVideoRequest env p st).
Proof.
  unfold buildVideoRequest, withDurationParam, mapPayload, withPayloadDuration.
  cbn [p_videoModel p_generationMode p_videoPrompt p_negativePrompt p_resolution
       p_durationSeconds p_personGeneration p_generateAudio p_aspectRatio
       p_startFrameUrl p_enableLooping p_endFrameUrl p_referenceImages
       p_styleImageUrl p_inputVideoUri].
  unfold mbind, M_bind, liftResult, mret, M_ret.
  destruct (VideoUtils.validateParameters _ _) as [e|[]]; [reflexivity|].
  destruct (truthy (Some (p_personGeneration p)));
    repeat case_decide; cbv beta iota zeta.
  all: repeat first
    [ reflexivity
    | match goal with
      | |- context [fetchImageForVideo ?e ?u ?s] =>
          destruct (fetchImageForVideo e u s) as [[?|?] ?]
      | |- context [fetchAssets ?e ?u ?s] =>
          destruct (fetchAssets e u s) as [[?|?] ?]
      | |- context [VideoUtils.createVideoObject ?u] =>
          destruct (VideoUtils.createVideoObject u) as [?|?]
      | |- context [negb (VideoUtils.blank ?u)] =>
          destruct (negb (VideoUtils.blank u))
      | |- context [bool_decide ?P] => destruct (bool_decide P)
      end; cbv beta iota zeta ].
Qed.

End VideoDuration.

(** A provider that accepts every request, and a text-to-video request. *)
Definition acceptingProvider : Gemini.requestEnv :=
  {| Gemini.urlToBase64WithMimeType := λ _, inr (js "AAAA", js "image/png");
     Gemini.generateVideos := λ _,
       inr {| Gemini.done := false; Gemini.response := None |} |}.

Definition textToVideoParams (resolution durationSeconds : jsstring)
  : Gemini.videoParams :=
  {| Gemini.p_videoModel := js "veo-3.1-generate-preview";
     Gemini.p_generationMode := js "textToVideo";
     Gemini.p_videoPrompt := js "a cat";
     Gemini.p_negativePrompt := [];
     Gemini.p_resolution := resolution;
     Gemini.p_durationSeconds := durationSeconds;
     Gemini.p_personGeneration := [];
     Gemini.p_generateAudio := true;
     Gemini.p_aspectRatio := js "16:9";
     Gemini.p_startFrameUrl := [];
     Gemini.p_enableLooping := false;
     Gemini.p_endFrameUrl := [];
     Gemini.p_referenceImages := [];
     Gemini.p_styleImageUrl := [];
     Gemini.p_inputVideoUri := [] |}.

Example textToVideo_720p_6 :
  ∃ pl,
    Gemini.submitVideoRequest acceptingProvider
      (textToVideoParams (js "720p") (js "6")) []
    = (inr {| Gemini.done := false; Gemini.response := None |},
       [Gemini.EvGenerateVideos pl])
    ∧ VideoUtils.durationSeconds (Gemini.config pl) = Some (Some 6%Z)
    ∧ VideoUtils.resolution (Gemini.config pl) = js "720p".
Proof. eexists. vm_compute. done. Qed.

(** C1, as stated, fails: the branch submits a request for 5 seconds at
    720p, and one for 4 seconds at 1080p, although the editor offers
    neither value for these resolutions; no error is raised before the
    provider is called. *)
Lemma generateVideo_duration_counterexample :
  ((js "5" ∉ VideoDescription.offeredDurations (js "720p"))
   ∧ ∃ pl,
       Gemini.submitVideoRequest acceptingProvider
         (textToVideoParams (js "720p") (js "5")) []
       = (inr {| Gemini.done := false; Gemini.response := None |},
          [Gemini.EvGenerateVideos pl])
       ∧ VideoUtils.resolution (Gemini.config pl) = js "720p"
       ∧ VideoUtils.durationSeconds (Gemini.config pl) = Some (Some 5%Z))
  ∧ ((js "4" ∉ VideoDescription.offeredDurations (js "1080p"))
     ∧ ∃ pl,
         Gemini.submitVideoRequest acceptingProvider
           (textToVideoParams (js "1080p") (js "4")) []
         = (inr {| Gemini.done := false; Gemini.response := None |},
            [Gemini.EvGenerateVideos pl])
         ∧ VideoUtils.resolution (Gemini.config pl) = js "1080p"
         ∧ VideoUtils.durationSeconds (Gemini.config pl) = Some (Some 4%Z)).
Proof.
  split; (split; [apply (bool_decide_unpack _); vm_compute; reflexivity|]);
    eexists; vm_compute; done.
Qed.

(** C1, as the code has it.  The editor offers the durations 4, 6 and 8
    for 720p and only 8 for 1080p, but [execute] does not compare the
    duration with the resolution: replacing the value entered for
    [durationSeconds] changes neither whether the request phase fails nor
    the error it fails with, and when it succeeds the request is submitted
    with [config.durationSeconds] set to [parseInt] of the value entered. *)
Theorem generateVideo_duration_not_validated :
  (VideoDescription.offeredDurations (js "720p") = [js "4"; js "6"; js "8"]
   ∧ VideoDescription.offeredDurations (js "1080p") = [js "8"])
  ∧ (∀ env p d st,
       Gemini.buildVideoRequest env (withDurationParam p d) st
       = mapPayload (withPayloadDuration (parseInt10 d))
           (Gemini.buildVideoRequest env p st))
  ∧ (∀ env p d st e st',
       Gemini.buildVideoRequest env p st = (inl e, st') →
       Gemini.submitVideoRequest env (withDurationParam p d) st = (inl e, st'))
  ∧ (∀ env p d st pl st',
       Gemini.buildVideoRequest env p st = (inr pl, st') →
       let pl' := withPayloadDuration (parseInt10 d) pl in
       Gemini.submitVideoRequest env (withDurationParam p d) st
       = (Gemini.generateVideos env pl', Gemini.EvGenerateVideos pl' :: st')
       ∧ VideoUtils.durationSeconds (Gemini.config pl') = Some (parseInt10 d)
       ∧ VideoUtils.resolution (Gemini.config pl')
         = VideoUtils.resolution (Gemini.config pl))
  ∧ (parseInt10 (js "4") = Some 4%Z ∧ parseInt10 (js "6") = Some 6%Z
     ∧ parseInt10 (js "8") = Some 8%Z).
Proof.
  split_and!.
  - vm_compute. reflexivity.
  - vm_compute. reflexivity.
  - apply buildVideoRequest_duration.
  - intros env p d st e st' Hbuild. unfold Gemini.submitVideoRequest.
    unfold mbind, M_bind. by rewrite buildVideoRequest_duration, Hbuild.
  - intros env p d st pl st' Hbuild. cbv zeta.
    unfold Gemini.submitVideoRequest, mbind, M_bind.
    rewrite buildVideoRequest_duration, Hbuild. cbn [mapPayload].
    unfold modifyState, liftResult. done.
  - vm_compute. reflexivity.
  - vm_compute. reflexivity.
  - vm_compute. reflexivity.
Qed.

(** ** generateVideo: validation of the terminal response *)

Section ResponseValidation.
Import Gemini.

Lemma codeUnits_nonempty cp : codeUnits cp ≠ [].
Proof. unfold codeUnits. by destruct (cp <? 0x10000). Qed.

(** Decoding a non-empty string never yields the empty string: the test
    [if (!videoUri)] after the decoding cannot succeed. *)
Lemma decodeURIComponent_nonempty u d :
  u ≠ [] → decodeURIComponent u = Some d → d ≠ [].
Proof.
  unfold decodeURIComponent. destruct u as [|c u]; [done|]. intros _.
  cbn [length decodeGo]. destruct (c =? 0x25).
  - destruct (percentOctet (c :: u)) as [[b rest1]|]; [|done]. cbn [mbind option_bind].
    destruct (continuationCount b) as [n|]; [|done]. cbn [mbind option_bind].
    destruct (continuationOctets n rest1) as [[bs rest2]|]; [|done].
    cbn [mbind option_bind].
    destruct (utf8CodePoint b bs) as [cp|]; [|done]. cbn [mbind option_bind].
    destruct (decodeGo (length u) rest2) as [tail|]; [|done].
    cbn [mbind option_bind]. intros [= <-] Hnil.
    apply app_eq_nil in Hnil as [Hnil _]. by apply codeUnits_nonempty in Hnil.
  - destruct (decodeGo (length u) u) as [tail|]; [|done].
    cbn [mbind option_bind]. by intros [= <-].
Qed.

(** A string without a percent sign decodes to itself. *)
Lemma decodeGo_plain u :
  Forall (λ c, c ≠ 0x25) u → ∀ fuel, (length u ≤ fuel)%nat → decodeGo fuel u = Some u.
Proof.
  induction 1 as [|c u Hc _ IH]; intros fuel Hfuel; [by destruct fuel|].
  destruct fuel as [|fuel]; [cbn in Hfuel; lia|].
  cbn [decodeGo]. apply N.eqb_neq in Hc. rewrite Hc, IH; [done|cbn in Hfuel; lia].
Qed.

Lemma decodeURIComponent_plain u :
  Forall (λ c, c ≠ 0x25) u → decodeURIComponent u = Some u.
Proof. intros Hu. by apply decodeGo_plain. Qed.

End ResponseValidation.

(** A finished operation whose first sample carries the given URI. *)
Definition finishedWith (uris : list jsstring) : Gemini.videosOperation :=
  {| Gemini.done := true;
     Gemini.response :=
       Some {| Gemini.error := None;
               Gemini.raiMediaFilteredCount := None;
               Gemini.raiMediaFilteredReasons := None;
               Gemini.generatedVideos :=
                 Some (map (λ u, {| Gemini.gvVideo :=
                                      Some {| Gemini.videoUri := Some u |} |}) uris);
               Gemini.generatedSamples := None |} |}.

Example validate_first_of_two :
  Gemini.validateVideoResponse (λ _, js "{}")
    (finishedWith [js "https://generativelanguage.googleapis.com/v1beta/files/a%20b:download?alt=media";
                   js "https://generativelanguage.googleapis.com/v1beta/files/second"])
  = inr (js "https://generativelanguage.googleapis.com/v1beta/files/a b:download?alt=media").
Proof. vm_compute. reflexivity. Qed.

(** C4, as stated, fails at its last step: the first sample has a URI,
    [https://.../files/caf%E9:download?alt=media], a well-formed URI whose
    escape is not UTF-8, and instead of returning it percent-decoded the
    validation ends with the [URIError] of [decodeURIComponent]. *)
Lemma validateVideoResponse_uri_counterexample :
  let uri := js "https://generativelanguage.googleapis.com/v1beta/files/caf%E9:download?alt=media" in
  let op := finishedWith [uri] in
  (∃ r first rest,
     Gemini.response op = Some r
     ∧ Gemini.error r = None
     ∧ Gemini.raiMediaFilteredCount r = None
     ∧ Gemini.generatedVideos r = Some (first :: rest)
     ∧ Gemini.gvVideo first ≫= Gemini.videoUri = Some uri)
  ∧ Gemini.validateVideoResponse (λ _, js "{}") op = inl Gemini.uriError
  ∧ ∀ decoded, Gemini.validateVideoResponse (λ _, js "{}") op ≠ inr decoded.
Proof.
  cbv zeta. split_and!.
  - eexists _, _, _. split_and!; reflexivity.
  - vm_compute. reflexivity.
  - intros decoded. vm_compute. discriminate.
Qed.

(** C4, as the code has it.  The checks are made in this order: a missing
    response fails with "No response from API"; else an error object fails
    with the provider's error detail; else a filtered count above 0 fails as
    a safety rejection with the reasons joined by "; "; else the first
    element of [generatedVideos] (or, when that member is missing, of the
    raw [generatedSamples]) is taken and the others are ignored, a missing
    or empty collection or a missing URI failing with "No videos were
    generated" or "Generated video is missing URI"; else the URI of the
    first element is returned percent-decoded when [decodeURIComponent]
    accepts it, and its [URIError] is raised otherwise. *)
Theorem validateVideoResponse_order (stringify : Gemini.videosResponse → jsstring) :
  (∀ op,
     Gemini.response op = None →
     Gemini.validateVideoResponse stringify op
     = inl (nodeOperationError (js "Video generation failed: No response from API")))
  ∧ (∀ op r detail,
       Gemini.response op = Some r →
       Gemini.error r = Some detail →
       Gemini.validateVideoResponse stringify op
       = inl (nodeOperationError (js "Video generation failed: " ++ detail)))
  ∧ (∀ op r count,
       Gemini.response op = Some r →
       Gemini.error r = None →
       Gemini.raiMediaFilteredCount r = Some count → (0 < count)%Z →
       Gemini.validateVideoResponse stringify op
       = inl (nodeOperationError
                (js "Video generation was blocked by safety filters." ++ [0x0A]
                 ++ js "Reasons: "
                 ++ join (js "; ") (default [] (Gemini.raiMediaFilteredReasons r))
                 ++ [0x0A; 0x0A]
                 ++ js "Please try modifying your prompt or using different images.")))
  ∧ (∀ op r,
       Gemini.response op = Some r →
       Gemini.error r = None →
       (default 0 (Gemini.raiMediaFilteredCount r) ≤ 0)%Z →
       let samples :=
         match Gemini.generatedVideos r with
         | Some l => Some l
         | None => Gemini.generatedSamples r
         end in
       (samples = None ∨ samples = Some [] →
        Gemini.validateVideoResponse stringify op
        = inl (nodeOperationError
                 (js "No videos were generated. Response: "
                  ++ take 500 (stringify r))))
       ∧ ∀ first rest,
           samples = Some (first :: rest) →
           let uri : option jsstring := Gemini.gvVideo first ≫= Gemini.videoUri in
           (uri = None ∨ uri = Some [] →
            Gemini.validateVideoResponse stringify op
            = inl (nodeOperationError (js "Generated video is missing URI")))
           ∧ ∀ u : jsstring, uri = Some u → u ≠ [] →
               Gemini.validateVideoResponse stringify op
               = match decodeURIComponent u with
                 | Some decoded => inr decoded
                 | None => inl Gemini.uriError
                 end).
Proof.
  unfold Gemini.validateVideoResponse. split_and!.
  - by intros op ->.
  - by intros op r detail -> ->.
  - intros op r count -> -> -> Hcount. cbn [from_option id].
    apply Z.ltb_lt in Hcount. by rewrite Hcount.
  - intros op r Hresp Herr Hcount. cbv zeta. rewrite Hresp, Herr.
    apply Z.ltb_ge in Hcount. rewrite Hcount. split.
    + by intros [-> | ->].
    + intros first rest ->. cbv beta iota.
      destruct (Gemini.gvVideo first ≫= Gemini.videoUri) as [[|c u]|].
      * split; [done|]. intros u Hu Hne. inversion Hu. by subst.
      * split; [by intros [|]|]. intros u' Hu' _.
        inversion Hu'. subst u'. cbn [truthy negb interp].
        destruct (decodeURIComponent (c :: u)) as [decoded|] eqn:Hdec; [|done].
        apply decodeURIComponent_nonempty in Hdec; [|done].
        by destruct decoded.
      * split; [done|]. by intros u.
Qed.

(** ** generateVideo: the polling loop *)

Lemma timerDelay_pos ms : (1 ≤ timerDelay ms)%Z.
Proof.
  unfold timerDelay.
  destruct ((1 <=? ms)%Z && (ms <=? 2147483647)%Z) eqn:H; [|lia].
  apply andb_true_iff in H as [H _]. by apply Z.leb_le.
Qed.

Section Polling.
Import Gemini.

Variable env : pollEnv.
Variable o : pollingOptions.
Variable startTime : Z.

Let interval := pollingIntervalMs o.
Let maxWait := maxWaitTimeMs o.

(** The state after one more iteration of the loop body. *)
Definition afterCycle (st : pollState) : pollState :=
  {| now := now st + timerDelay interval + callDuration env (refreshes st);
     refreshes := S (refreshes st);
     pollTrace := EvGetVideosOperation :: EvWait interval
                  :: EvCheck (now st - startTime) :: pollTrace st |}.

Definition afterCheck (st : pollState) : pollState :=
  {| now := now st; refreshes := refreshes st;
     pollTrace := EvCheck (now st - startTime) :: pollTrace st |}.

Lemma pollLoop_done fuel op st :
  done op = true →
  pollLoop (S fuel) env o startTime op st = (inr (Some op), st).
Proof. intros Hdone. cbn [pollLoop]. by rewrite Hdone. Qed.

Lemma pollLoop_late fuel op st :
  done op = false →
  (maxWait < now st - startTime)%Z →
  pollLoop (S fuel) env o startTime op st = (inl (timedOutError o), afterCheck st).
Proof.
  intros Hdone Hlate. cbn [pollLoop]. rewrite Hdone.
  unfold mbind, M_bind, pastDeadline.
  apply Z.gtb_lt in Hlate. fold maxWait. by rewrite Hlate.
Qed.

Lemma pollLoop_cycle fuel op st :
  done op = false →
  (now st - startTime ≤ maxWait)%Z →
  pollLoop (S fuel) env o startTime op st
  = match getVideosOperation env (refreshes st) with
    | inl e => (inl e, afterCycle st)
    | inr op' => pollLoop fuel env o startTime op' (afterCycle st)
    end.
Proof.
  intros Hdone Hearly. cbn [pollLoop]. rewrite Hdone.
  unfold mbind, M_bind, pastDeadline, wait, refresh. fold maxWait interval.
  assert ((now st - startTime >? maxWait)%Z = false) as ->.
  { rewrite Z.gtb_ltb. apply Z.ltb_ge. lia. }
  cbn [now refreshes pollTrace]. unfold afterCycle.
  by destruct (getVideosOperation env (refreshes st)).
Qed.

(** The events of the iterations whose time-out tests read [es]. *)
Definition cycles (es : list Z) : list pollEvent :=
  concat (map (λ e, [EvCheck e; EvWait interval; EvGetVideosOperation]) es).

(** How a run of the loop that starts in [st] with the operation [op] and
    ends in [st'] with [res] went: it made [n] refreshes, after time-out
    tests that read [es], and then the events [tail]. *)
Definition pollRun (op : videosOperation) (st : pollState)
    (res : jsError + option videosOperation) (st' : pollState)
    (n : nat) (es : list Z) (tail : list pollEvent) : Prop :=
  refreshes st' = (refreshes st + n)%nat
  ∧ length es = n
  ∧ Forall (λ e, (e ≤ maxWait)%Z) es
  ∧ rev (pollTrace st') = rev (pollTrace st) ++ cycles es ++ tail
  ∧ (n = 0%nat → now st' = now st)
  ∧ ((0 < n)%nat →
     done op = false
     ∧ (now st' - startTime
        ≤ maxWait + timerDelay interval
          + callDuration env (refreshes st + n - 1))%Z)
  ∧ (∀ k, (S k < n)%nat →
       ∃ op', getVideosOperation env (refreshes st + k) = inr op'
              ∧ done op' = false)
  ∧ ((∃ op', res = inr (Some op') ∧ done op' = true ∧ tail = []
             ∧ ((n = 0%nat ∧ op' = op)
                ∨ ((0 < n)%nat
                   ∧ getVideosOperation env (refreshes st + n - 1) = inr op')))
     ∨ (res = inl (timedOutError o)
        ∧ tail = [EvCheck (now st' - startTime)]
        ∧ (maxWait < now st' - startTime)%Z
        ∧ ((n = 0%nat ∧ done op = false)
           ∨ ((0 < n)%nat
              ∧ ∃ op', getVideosOperation env (refreshes st + n - 1) = inr op'
                       ∧ done op' = false)))
     ∨ (∃ e, res = inl e ∧ tail = [] ∧ (0 < n)%nat
             ∧ getVideosOperation env (refreshes st + n - 1) = inl e)).

Hypothesis callDuration_nonneg : ∀ k, (0 ≤ callDuration env k)%Z.

(** The loop ends, whatever the provider answers: every iteration moves
    the clock forward, so [m] iterations are enough when the deadline is
    [m - 1] milliseconds away. *)
Lemma pollLoop_run m :
  ∀ op st,
    (Z.to_nat (startTime + maxWait - now st + 1) ≤ m)%nat →
    ∃ res st' n es tail,
      (∀ fuel, (m < fuel)%nat →
         pollLoop fuel env o startTime op st = (res, st'))
      ∧ pollRun op st res st' n es tail.
Proof.
  induction m as [|m IH]; intros op st Hm.
  - destruct (done op) eqn:Hdone.
    + exists (inr (Some op)), st, 0%nat, [], []. split.
      * intros [|fuel] Hfuel; [lia|]. by apply pollLoop_done.
      * unfold pollRun. rewrite Nat.add_0_r, !app_nil_r.
        split_and!; [done|done|constructor|done|done|lia|intros; lia|].
        left. exists op. split_and!; [done..|]. by left.
    + exists (inl (timedOutError o)), (afterCheck st), 0%nat, [],
        [EvCheck (now st - startTime)%Z]. split.
      * intros [|fuel] Hfuel; [lia|]. apply pollLoop_late; [done|lia].
      * unfold pollRun. cbn [afterCheck now refreshes pollTrace rev cycles map concat app].
        rewrite Nat.add_0_r.
        split_and!; [done|done|constructor|done|done|lia|intros; lia|].
        right. left. split_and!; [done|done|lia|]. by left.
  - destruct (done op) eqn:Hdone.
    { exists (inr (Some op)), st, 0%nat, [], []. split.
      * intros [|fuel] Hfuel; [lia|]. by apply pollLoop_done.
      * unfold pollRun. rewrite Nat.add_0_r, !app_nil_r.
        split_and!; [done|done|constructor|done|done|lia|intros; lia|].
        left. exists op. split_and!; [done..|]. by left. }
    destruct (Z.lt_ge_cases maxWait (now st - startTime)) as [Hlate|Hearly].
    { exists (inl (timedOutError o)), (afterCheck st), 0%nat, [],
        [EvCheck (now st - startTime)%Z]. split.
      * intros [|fuel] Hfuel; [lia|]. by apply pollLoop_late.
      * unfold pollRun. cbn [afterCheck now refreshes pollTrace rev cycles map concat app].
        rewrite Nat.add_0_r.
        split_and!; [done|done|constructor|done|done|lia|intros; lia|].
        right. left. split_and!; [done|done|lia|]. by left. }
    pose proof (timerDelay_pos interval) as Hdelay.
    pose proof (callDuration_nonneg (refreshes st)) as Hcall.
    destruct (getVideosOperation env (refreshes st)) as [e|op1] eqn:Hget.
    + exists (inl e), (afterCycle st), 1%nat, [(now st - startTime)%Z], []. split.
      * intros [|fuel] Hfuel; [lia|]. by rewrite pollLoop_cycle, Hget.
      * unfold pollRun.
        cbn [afterCycle now refreshes pollTrace rev cycles map concat app length].
        rewrite <- !app_assoc. cbn [app].
        replace (refreshes st + 1 - 1)%nat with (refreshes st) by lia.
        split_and!; [lia|done|by constructor|done|lia| |intros; lia|].
        -- intros _. split; [done|lia].
        -- right. right. exists e. split_and!; [done|done|lia|done].
    + destruct (IH op1 (afterCycle st)) as (res & st' & n & es & tail & Hrun & Hout).
      { cbn [afterCycle now]. lia. }
      exists res, st', (S n), ((now st - startTime)%Z :: es), tail. split.
      * intros [|fuel] Hfuel; [lia|]. rewrite pollLoop_cycle, Hget by done.
        apply Hrun. lia.
      * destruct Hout as (Hn & Hlen & Hes & Htrace & Hnow0 & Hnow & Hmid & Hend).
        cbn [afterCycle now refreshes pollTrace rev] in *.
        unfold pollRun. split_and!.
        -- lia.
        -- cbn. by rewrite Hlen.
        -- by constructor.
        -- rewrite Htrace. rewrite <- !app_assoc. reflexivity.
        -- lia.
        -- intros _. split; [done|].
           destruct n as [|n'].
           ++ rewrite Hnow0 by done.
              replace (refreshes st + 1 - 1)%nat with (refreshes st) by lia. lia.
           ++ destruct Hnow as [_ Hb]; [lia|].
              replace (refreshes st + S (S n') - 1)%nat
                with (S (refreshes st) + S n' - 1)%nat by lia. done.
        -- intros [|k] Hk.
           ++ exists op1. rewrite Nat.add_0_r. split; [done|].
              destruct n as [|n']; [lia|]. by destruct Hnow as [H1 _]; [lia|].
           ++ destruct (Hmid k) as (op' & Hop' & Hd'); [lia|].
              exists op'. split; [|done]. rewrite <- Hop'. f_equal. lia.
        -- destruct Hend as [(op' & -> & Hd' & -> & Hcase)
                            |[(-> & -> & Hlate & Hcase)|(e & -> & -> & Hn0 & Hlast)]].
           ++ left. exists op'. split_and!; [done..|]. right. split; [lia|].
              destruct Hcase as [[-> ->]|[Hn0 Hlast]].
              ** by replace (refreshes st + 1 - 1)%nat with (refreshes st) by lia.
              ** rewrite <- Hlast. f_equal. lia.
           ++ right. left. split_and!; [done..|]. right. split; [lia|].
              destruct Hcase as [[-> Hd]|(Hn0 & op' & Hlast & Hd')].
              ** exists op1.
                 by replace (refreshes st + 1 - 1)%nat with (refreshes st) by lia.
              ** exists op'. split; [|done]. rewrite <- Hlast. f_equal. lia.
           ++ right. right. exists e. split_and!; [done|done|lia|].
              rewrite <- Hlast. f_equal. lia.
Qed.

End Polling.

(** A provider that never finishes and whose status calls take
    [callMs] milliseconds each. *)
Definition stalledProvider (callMs : Z) : Gemini.pollEnv :=
  {| Gemini.getVideosOperation := λ _,
       inr {| Gemini.done := false; Gemini.response := None |};
     Gemini.callDuration := λ _, callMs |}.

Definition pollStart : Gemini.pollState :=
  {| Gemini.now := 1700000000000; Gemini.refreshes := 0; Gemini.pollTrace := [] |}.

(** Ten seconds between polls, five minutes of patience. *)
Definition fiveMinutes : Gemini.pollingOptions :=
  {| Gemini.pollingInterval := Some 10%Z; Gemini.maxWaitTime := Some 5%Z |}.

Example poll_done_at_third_refresh :
  ∃ st',
    Gemini.pollUntilDone 50
      {| Gemini.getVideosOperation := λ k,
           inr {| Gemini.done := bool_decide (2 ≤ k)%nat; Gemini.response := None |};
         Gemini.callDuration := λ _, 0%Z |}
      fiveMinutes {| Gemini.done := false; Gemini.response := None |} pollStart
    = (inr (Some {| Gemini.done := true; Gemini.response := None |}), st')
    ∧ Gemini.refreshes st' = 3%nat
    ∧ (Gemini.now st' - Gemini.now pollStart = 30000)%Z.
Proof.
  eexists. split; [vm_compute; reflexivity|]. split; vm_compute; reflexivity.
Qed.

Example poll_times_out :
  ∃ st',
    Gemini.pollUntilDone 50 (stalledProvider 0) fiveMinutes
      {| Gemini.done := false; Gemini.response := None |} pollStart
    = (inl (nodeOperationError (js "Video generation timed out after 5 minutes")), st')
    ∧ Gemini.refreshes st' = 31%nat
    ∧ (Gemini.now st' - Gemini.now pollStart = 310000)%Z.
Proof.
  eexists. split; [vm_compute; reflexivity|]. split; vm_compute; reflexivity.
Qed.

(** C5, as stated, fails: with status calls that take five seconds each
    the loop gives up 315 seconds after it started, which is later than
    [maxWait] (300 s) plus one [pollInterval] (10 s). *)
Lemma pollUntilDone_bound_counterexample :
  ∃ st',
    Gemini.pollUntilDone 30 (stalledProvider 5000) fiveMinutes
      {| Gemini.done := false; Gemini.response := None |} pollStart
    = (inl (Gemini.timedOutError fiveMinutes), st')
    ∧ (Gemini.now st' - Gemini.now pollStart = 315000)%Z
    ∧ Gemini.refreshes st' = 21%nat
    ∧ ¬ (Gemini.now st' - Gemini.now pollStart
         ≤ Gemini.maxWaitTimeMs fiveMinutes + Gemini.pollingIntervalMs fiveMinutes)%Z.
Proof.
  eexists. split; [vm_compute; reflexivity|].
  split_and!; [vm_compute; reflexivity..|]. vm_compute. by intros H.
Qed.

(** C5, as the code has it.  The loop always ends.  It ends normally with
    the first refreshed operation that is done (or at once when the
    submitted operation is done already), with the time-out error at the
    first test that finds the operation not done and more than [maxWait]
    elapsed, or with the error of a failed status call.  Every refresh
    follows a test that read at most [maxWait], and nothing follows the
    test that read more.  The loop ends no later than [maxWait] plus one
    polling interval plus the time the last status call took; when the
    status calls take no time, that is within [maxWait] plus one polling
    interval. *)
Theorem pollUntilDone_bounded
    (env : Gemini.pollEnv) (o : Gemini.pollingOptions)
    (op : Gemini.videosOperation) (st : Gemini.pollState) :
  (∀ k, (0 ≤ Gemini.callDuration env k)%Z) →
  (0 ≤ Gemini.maxWaitTimeMs o)%Z →
  let interval := Gemini.pollingIntervalMs o in
  let maxWait := Gemini.maxWaitTimeMs o in
  ∃ fuel0 res st' n es tail,
    let elapsed := (Gemini.now st' - Gemini.now st)%Z in
    (∀ fuel, (fuel0 ≤ fuel)%nat →
       Gemini.pollUntilDone fuel env o op st = (res, st'))
    ∧ Gemini.refreshes st' = (Gemini.refreshes st + n)%nat
    ∧ length es = n
    ∧ Forall (λ e, (e ≤ maxWait)%Z) es
    ∧ rev (Gemini.pollTrace st')
      = rev (Gemini.pollTrace st) ++ cycles o es ++ tail
    ∧ (elapsed ≤ maxWait + timerDelay interval
                 + match n with
                   | O => 0
                   | S n' => Gemini.callDuration env (Gemini.refreshes st + n')
                   end)%Z
    ∧ ((∀ k, Gemini.callDuration env k = 0%Z) →
       (elapsed ≤ maxWait + timerDelay interval)%Z)
    ∧ ((1 ≤ interval ≤ 2147483647)%Z → timerDelay interval = interval)
    ∧ (∀ k, (S k < n)%nat →
         ∃ op', Gemini.getVideosOperation env (Gemini.refreshes st + k) = inr op'
                ∧ Gemini.done op' = false)
    ∧ ((∃ op', res = inr (Some op') ∧ Gemini.done op' = true ∧ tail = []
               ∧ match n with
                 | O => op' = op
                 | S n' =>
                     Gemini.done op = false
                     ∧ Gemini.getVideosOperation env (Gemini.refreshes st + n')
                       = inr op'
                 end)
       ∨ (res = inl (Gemini.timedOutError o)
          ∧ tail = [Gemini.EvCheck elapsed]
          ∧ (maxWait < elapsed)%Z
          ∧ match n with
            | O => Gemini.done op = false
            | S n' =>
                ∃ op', Gemini.getVideosOperation env (Gemini.refreshes st + n')
                       = inr op'
                       ∧ Gemini.done op' = false
            end)
       ∨ (∃ e n', res = inl e ∧ tail = [] ∧ n = S n'
                  ∧ Gemini.getVideosOperation env (Gemini.refreshes st + n')
                    = inl e)).
Proof.
  intros Hcall Hwait interval maxWait.
  destruct (pollLoop_run env o (Gemini.now st) Hcall (Z.to_nat (maxWait + 1)) op st)
    as (res & st' & n & es & tail & Hrun & Hout).
  { apply Nat.eq_le_incl. f_equal. fold maxWait. lia. }
  destruct Hout as (Hn & Hlen & Hes & Htrace & Hnow0 & Hnow & Hmid & Hend).
  fold maxWait interval in Hes, Hnow, Hend.
  exists (S (Z.to_nat (maxWait + 1))), res, st', n, es, tail. cbv zeta.
  pose proof (timerDelay_pos interval) as Hdelay.
  assert (Gemini.now st' - Gemini.now st
          ≤ maxWait + timerDelay interval
            + match n with
              | O => 0
              | S n' => Gemini.callDuration env (Gemini.refreshes st + n')
              end)%Z as Hbound.
  { destruct n as [|n']; [rewrite Hnow0 by done; lia|].
    destruct Hnow as [_ Hb]; [lia|].
    by replace (Gemini.refreshes st + S n' - 1)%nat
         with (Gemini.refreshes st + n')%nat in Hb by lia. }
  split_and!; [|done|done|done|done|done| | |done|].
  - intros fuel Hfuel. unfold Gemini.pollUntilDone, getState, mbind, M_bind.
    apply Hrun. lia.
  - intros Hzero. destruct n as [|n']; [lia|]. rewrite Hzero in Hbound. lia.
  - intros [Hlo Hhi]. unfold timerDelay.
    apply Z.leb_le in Hlo, Hhi. by rewrite Hlo, Hhi.
  - destruct Hend as [(op' & -> & Hd' & -> & Hcase)
                     |[(-> & -> & Hlate & Hcase)|(e & -> & -> & Hn0 & Hlast)]].
    + left. exists op'. split_and!; [done..|].
      destruct n as [|n'].
      * by destruct Hcase as [[_ ->]|[? _]]; [|lia].
      * destruct Hcase as [[? _]|[_ Hlast]]; [lia|].
        destruct Hnow as [Hd _]; [lia|]. split; [done|].
        by replace (Gemini.refreshes st + S n' - 1)%nat
             with (Gemini.refreshes st + n')%nat in Hlast by lia.
    + right. left. split_and!; [done..|].
      destruct n as [|n'].
      * by destruct Hcase as [[_ ?]|[? _]]; [|lia].
      * destruct Hcase as [[? _]|(_ & op' & Hlast & Hd')]; [lia|].
        exists op'. split; [|done].
        by replace (Gemini.refreshes st + S n' - 1)%nat
             with (Gemini.refreshes st + n')%nat in Hlast by lia.
    + right. right. destruct n as [|n']; [lia|]. exists e, n'.
      split_and!; [done..|].
      by replace (Gemini.refreshes st + S n' - 1)%nat
           with (Gemini.refreshes st + n')%nat in Hlast by lia.
Qed.

(** With status calls that take no time, the loop ends within five minutes
    and ten seconds. *)
Lemma pollUntilDone_bounded_witness :
  ∃ fuel0 res st',
    (∀ fuel, (fuel0 ≤ fuel)%nat →
       Gemini.pollUntilDone fuel (stalledProvider 0) fiveMinutes
         {| Gemini.done := false; Gemini.response := None |} pollStart
       = (res, st'))
    ∧ (Gemini.now st' - Gemini.now pollStart
       ≤ Gemini.maxWaitTimeMs fiveMinutes
         + timerDelay (Gemini.pollingIntervalMs fiveMinutes))%Z.
Proof.
  destruct (pollUntilDone_bounded (stalledProvider 0) fiveMinutes
              {| Gemini.done := false; Gemini.response := None |} pollStart)
    as (fuel0 & res & st' & n & es & tail & Hrun & _ & _ & _ & _ & _ & Hideal & _).
  - intros k. cbn. lia.
  - vm_compute. discriminate.
  - exists fuel0, res, st'. split; [exact Hrun|]. apply Hideal. reflexivity.
Defined.

(** ** generateImage: the images of the returned item *)

Section ImageResult.
Import Gemini.

Variable env : imageEnv.
Variable p : imageParams.

(** The inline images of the model response, in order: the parts of the
    first candidate that carry [inlineData]. *)
Definition inlineImages (response : generateContentResponse) : list inlineData :=
  match candidates response with
  | Some (first :: _) =>
      match candidateContent first with
      | Some content => omap partInlineData (default [] (parts content))
      | None => []
      end
  | _ => []
  end.



(** The outcome of the upload of the image with index [k]. *)
Definition uploadOutcome (k : nat) (d : inlineData) : jsError + jsstring :=
  (S3Utils.uploadToS3 (s3EnvAt env k) (bufferFromBase64 env (inlineBytes d))
     (inlineMime d) (ip_s3BucketName p) (Some (s3Prefix env k)) (Some 5%Z)
     (Some (ip_s3PublicDomain p)) S3Utils.initialState).1.

Definition uploadedImageOf (d : inlineData) (url : jsstring) : generatedImage :=
  UploadedImage url (inlineMime d) (last (split (js "/") url)).

Definition uploadedObjectOf (d : inlineData) (url : jsstring) : uploaded :=
  {| upBody := bufferFromBase64 env (inlineBytes d);
     upContentType := inlineMime d;
     upBucket := ip_s3BucketName p;
     upUrl := url |}.


Lemma collectParts_s3 parts :
  ip_uploadToS3 p = true →
  ∀ fileIndex generatedImages textResponse st generatedImages' textResponse' st',
    collectParts env p parts fileIndex generatedImages textResponse st
    = (inr (generatedImages', textResponse'), st') →
    ∃ urls,
      length urls = length (omap partInlineData parts)
      ∧ generatedImages'
        = generatedImages
          ++ zip_with uploadedImageOf (omap partInlineData parts) urls
      ∧ st' = st ++ zip_with uploadedObjectOf (omap partInlineData parts) urls
      ∧ ∀ k d, omap partInlineData parts !! k = Some d →
          ∃ url, urls !! k = Some url
                 ∧ uploadOutcome (fileIndex + k) d = inr url.
Proof.
  intros Hs3. induction parts as [|part rest IH];
    intros fileIndex generatedImages textResponse st imgs' text' st' Hrun.
  - cbn in Hrun. injection Hrun as <- <- <-. exists [].
    cbn. rewrite !app_nil_r. split_and!; [done..|]. intros k d Hk. done.
  - cbn [collectParts omap list_omap] in *.
    destruct (partInlineData part) as [d|].
    + rewrite Hs3 in Hrun. cbv zeta in Hrun.
      unfold mbind, M_bind, callUploadToS3 in Hrun.
      fold (uploadOutcome fileIndex d) in Hrun.
      destruct (uploadOutcome fileIndex d) as [e|url] eqn:Hup; [discriminate|].
      apply IH in Hrun as (urls & Hlen & -> & -> & Hall).
      exists (url :: urls). cbn [length zip_with].
      rewrite <- !app_assoc. split_and!; [by rewrite Hlen|done|done|].
      intros [|k] d' Hk.
      * cbn in Hk. injection Hk as <-. exists url. by rewrite Nat.add_0_r.
      * cbn in Hk. destruct (Hall k d' Hk) as (url' & Hurl' & Hout).
        exists url'. split; [done|].
        by replace (fileIndex + S k)%nat with (S fileIndex + k)%nat by lia.
    + destruct (truthy (partText part)); by apply IH in Hrun.
Qed.

End ImageResult.

(** A response with a text part and two inline images. *)
Definition twoImages : Gemini.generateContentResponse :=
  {| Gemini.candidates :=
       Some [ {| Gemini.candidateContent :=
                   Some {| Gemini.parts :=
                     Some [ {| Gemini.partInlineData := None;
                               Gemini.partText := Some (js "Here you go") |};
                            {| Gemini.partInlineData :=
                                 Some {| Gemini.inlineMimeType := Some (js "image/png");
                                         Gemini.inlineBase64 := Some (js "AAAA") |};
                               Gemini.partText := None |};
                            {| Gemini.partInlineData :=
                                 Some {| Gemini.inlineMimeType := Some (js "image/jpeg");
                                         Gemini.inlineBase64 := Some (js "BBBB") |};
                               Gemini.partText := None |} ] |} |} ] |}.

(** An environment whose uploads all succeed at the first attempt. *)
Definition imageTestEnv : Gemini.imageEnv :=
  {| Gemini.saveBinaryToNodeData := λ data mimeType fileName,
       {| Gemini.nodeData := data; Gemini.nodeMimeType := mimeType;
          Gemini.nodeFileName := fileName ++ js ".png" |};
     Gemini.bufferFromBase64 := λ s, s;
     Gemini.bufferToBase64 := λ b, b;
     Gemini.ulidAt := λ k, js "01J" ++ showZ (Z.of_nat k);
     Gemini.s3EnvAt := λ k,
       {| S3Utils.getCredentials := S3Utils.getCredentials flakyUpload;
          S3Utils.getExtension := λ _, Some (js "png");
          S3Utils.ulid := js "01K" ++ showZ (Z.of_nat k);
          S3Utils.uploadDone := λ _, None |} |}.

Definition imageTestParams (uploadToS3 : bool) : Gemini.imageParams :=
  {| Gemini.ip_model := js "gemini-2.5-flash-image";
     Gemini.ip_responseModalities := [js "IMAGE"; js "TEXT"];
     Gemini.ip_uploadToS3 := uploadToS3;
     Gemini.ip_s3BucketName := js "b";
     Gemini.ip_s3PublicDomain := [] |}.

Example twoImages_binary :
  ∃ item,
    Gemini.imageResult imageTestEnv (imageTestParams false) 0 twoImages []
    = (inr item, [])
    ∧ Gemini.binary item
      = Some {| Gemini.binData := js "AAAA";
                Gemini.binMimeType := Some (js "image/png");
                Gemini.binFileName := Some (js "img_01J0_0.png") |}
    ∧ Gemini.metadata (Gemini.json item)
      = Some (Some (js "image/png"), Some (js "img_01J0_0.png"))
    ∧ Gemini.images (Gemini.json item) = None.
Proof. eexists. vm_compute. done. Qed.

Example twoImages_s3 :
  ∃ item st,
    Gemini.imageResult imageTestEnv (imageTestParams true) 0 twoImages []
    = (inr item, st)
    ∧ Gemini.binary item = None
    ∧ Gemini.refUrl <$> default [] (Gemini.images (Gemini.json item))
      = [Some (js "https://b.s3.us-east-1.amazonaws.com/generateImage/gemini_01J0_0_01K0.png");
         Some (js "https://b.s3.us-east-1.amazonaws.com/generateImage/gemini_01J1_1_01K1.png")]
    ∧ Gemini.refFileName <$> default [] (Gemini.images (Gemini.json item))
      = [Some (js "gemini_01J0_0_01K0.png"); Some (js "gemini_01J1_1_01K1.png")]
    ∧ Gemini.upUrl <$> st
      = [js "https://b.s3.us-east-1.amazonaws.com/generateImage/gemini_01J0_0_01K0.png";
         js "https://b.s3.us-east-1.amazonaws.com/generateImage/gemini_01J1_1_01K1.png"].
Proof. eexists _, _. vm_compute. done. Qed.









(** ** File ids: [extractFileIdFromUri] against [createVideoObject] *)

Section FileIds.
Import VideoUtils.

Lemma startsWith_split p s :
  startsWith p s = true → s = p ++ drop (length p) s.
Proof.
  revert s. induction p as [|a p IH]; intros s Hs; [done|].
  destruct s as [|b s]; [done|]. cbn in Hs.
  apply andb_true_iff in Hs as [Hab Hs]. apply N.eqb_eq in Hab as ->.
  cbn. f_equal. by apply IH.
Qed.

Lemma drop_files r : drop 6 (js "files/" ++ r) = r.
Proof. reflexivity. Qed.

Lemma segment_spec s :
  ∃ post,
    s = segment s ++ post
    ∧ Forall (λ c, isSegmentEnd c = false) (segment s)
    ∧ (post = [] ∨ ∃ c post', post = c :: post' ∧ isSegmentEnd c = true).
Proof.
  induction s as [|c s (post & Hs & Hseg & Hpost)].
  - exists []. split_and!; [done|constructor|by left].
  - cbn [segment]. destruct (isSegmentEnd c) eqn:Hc.
    + exists (c :: s). split_and!; [done|constructor|]. right. by exists c, s.
    + exists post. split_and!; [by rewrite <- app_comm_cons, <- Hs|by constructor|done].
Qed.

Lemma segment_id s :
  Forall (λ c, isSegmentEnd c = false) s → segment s = s.
Proof. induction 1 as [|c s Hc _ IH]; [done|]. cbn. by rewrite Hc, IH. Qed.

(** A match at the head of [s]. *)
Lemma matchFilesAt_Some s id :
  matchFilesAt s = Some id →
  id ≠ [] ∧ Forall (λ c, isSegmentEnd c = false) id
  ∧ ∃ post, s = js "files/" ++ id ++ post
            ∧ (post = [] ∨ ∃ c post', post = c :: post' ∧ isSegmentEnd c = true).
Proof.
  unfold matchFilesAt. destruct (startsWith (js "files/") s) eqn:Hs; [|done].
  apply startsWith_split in Hs. change (length (js "files/")) with 6%nat in Hs.
  destruct (segment_spec (drop 6 s)) as (post & Hd & Hseg & Hpost).
  destruct (segment (drop 6 s)) as [|c seg] eqn:Hsg; [done|].
  intros [= <-]. split_and!; [done|done|]. exists post. split; [|done].
  by rewrite <- Hd.
Qed.

(** No match at the head of [s]: what follows [files/] there, if anything,
    is [/] or [?]. *)
Lemma matchFilesAt_None s c post :
  matchFilesAt s = None → s = js "files/" ++ c :: post → isSegmentEnd c = true.
Proof.
  intros Hnone ->. unfold matchFilesAt in Hnone.
  rewrite startsWith_app, drop_files in Hnone. cbn [segment] in Hnone.
  by destruct (isSegmentEnd c).
Qed.

(** The leftmost match. *)
Lemma matchFiles_spec s :
  match matchFiles s with
  | Some id =>
      id ≠ [] ∧ Forall (λ c, isSegmentEnd c = false) id
      ∧ ∃ pre post,
          s = pre ++ js "files/" ++ id ++ post
          ∧ (post = [] ∨ ∃ c post', post = c :: post' ∧ isSegmentEnd c = true)
          ∧ ∀ pre' c post', (length pre' < length pre)%nat →
              s = pre' ++ js "files/" ++ c :: post' → isSegmentEnd c = true
  | None =>
      ∀ pre c post, s = pre ++ js "files/" ++ c :: post → isSegmentEnd c = true
  end.
Proof.
  induction s as [|c0 s IH].
  - cbn. intros [|? ?] c post H; discriminate H.
  - cbn [matchFiles]. destruct (matchFilesAt (c0 :: s)) as [id|] eqn:Hat.
    + destruct (matchFilesAt_Some _ _ Hat) as (Hne & Hseg & post & Hs & Hpost).
      split_and!; [done|done|]. exists [], post. split_and!; [done|done|].
      intros pre' c post' Hlen. cbn in Hlen. lia.
    + destruct (matchFiles s) as [id|].
      * destruct IH as (Hne & Hseg & pre & post & Hs & Hpost & Hleft).
        split_and!; [done|done|]. exists (c0 :: pre), post.
        split_and!; [by rewrite Hs|done|].
        intros [|c1 pre'] c post' Hlen Heq.
        -- by apply (matchFilesAt_None _ _ _ Hat Heq).
        -- injection Heq as _ Heq. apply (Hleft pre' c post'); [|done].
           cbn in Hlen. lia.
      * intros [|c1 pre] c post Heq.
        -- by apply (matchFilesAt_None _ _ _ Hat Heq).
        -- injection Heq as _ Heq. by apply (IH pre c post).
Qed.

Lemma isSegmentEnd_iff c : isSegmentEnd c = true ↔ c = 0x2F ∨ c = 0x3F.
Proof. unfold isSegmentEnd. by rewrite orb_true_iff, !N.eqb_eq. Qed.

(** A code unit of a bare id is neither [/] nor [?]. *)
Lemma isIdChar_not_end c : isIdChar c = true → isSegmentEnd c = false.
Proof.
  unfold isIdChar, isSegmentEnd, isLower, isUpper, isDigit.
  rewrite !orb_true_iff, !andb_true_iff, !N.leb_le, !N.eqb_eq, orb_false_iff,
    !N.eqb_neq. lia.
Qed.

Lemma matchFiles_skip pre s :
  Forall (λ c, c ≠ 0x66) pre → matchFiles (pre ++ s) = matchFiles s.
Proof.
  induction 1 as [|c pre Hc _ IH]; [done|].
  cbn [app matchFiles]. unfold matchFilesAt at 1.
  change (js "files/") with (0x66 :: js "iles/"). cbn [startsWith].
  apply N.eqb_neq in Hc. rewrite N.eqb_sym in Hc. by rewrite Hc.
Qed.

Lemma matchFiles_bare id :
  bareFileId id → matchFiles (js "files/" ++ id) = Some id.
Proof.
  intros [Hne Hid]. destruct id as [|c id]; [done|].
  change (js "files/" ++ c :: id) with (0x66 :: (js "iles/" ++ c :: id)).
  cbn [matchFiles]. unfold matchFilesAt.
  change (0x66 :: (js "iles/" ++ c :: id)) with (js "files/" ++ c :: id).
  rewrite startsWith_app, drop_files, segment_id; [done|].
  eapply Forall_impl; [exact Hid|]. apply isIdChar_not_end.
Qed.

End FileIds.

(** The prefix of the full URL of a file of the provider. *)
Definition filesUrl : jsstring :=
  js "https://generativelanguage.googleapis.com/v1beta/files/".

Example extractFileIdFromUri_download :
  VideoUtils.extractFileIdFromUri
    (js "https://generativelanguage.googleapis.com/v1beta/files/abc123:download?alt=media")
  = inr (js "abc123:download")
  ∧ VideoUtils.extractFileIdFromUri (js "files/?x=1") 
    = inl (mkError (js "Could not extract file ID from URI: files/?x=1"))
  ∧ VideoUtils.extractFileIdFromUri (js "profiles//files/a/b") = inr (js "a").
Proof. vm_compute. done. Qed.

(** X1. A file id survives the round trip: for a bare id (letters, digits,
    [_], [-]) entered as such, as [files/<id>] or as the full URL
    [https://generativelanguage.googleapis.com/v1beta/files/<id>], with or
    without surrounding white space, [createVideoObject] accepts the input
    and [extractFileIdFromUri] recovers exactly the id from the [uri] it
    returns. *)
Theorem extractFileIdFromUri_createVideoObject (id v : jsstring) :
  bareFileId id →
  trim v = id ∨ trim v = js "files/" ++ id ∨ trim v = filesUrl ++ id →
  ∃ vo, VideoUtils.createVideoObject v = inr vo
        ∧ VideoUtils.extractFileIdFromUri (VideoUtils.uri vo) = inr id.
Proof.
  intros Hid Hv.
  assert (VideoUtils.matchFiles (js "files/" ++ id) = Some id) as Hfiles
    by by apply matchFiles_bare.
  assert (VideoUtils.extractFileIdFromUri (js "files/" ++ id) = inr id) as Hex.
  { unfold VideoUtils.extractFileIdFromUri. rewrite Hfiles.
    destruct Hid as [Hne _]. by destruct id. }
  pose proof Hid as [Hne Hchars].
  assert (matchesFileId (js "files/" ++ id) = false) as Hfid.
  { cbn. reflexivity. }
  destruct Hv as [Hv|[Hv|Hv]].
  - exists {| VideoUtils.uri := js "files/" ++ id |}. split; [|exact Hex].
    rewrite createVideoObject_accepted; rewrite Hv.
    + apply matchesFileId_bare in Hid. by rewrite Hid.
    + right. by right.
  - exists {| VideoUtils.uri := js "files/" ++ id |}. split; [|exact Hex].
    rewrite createVideoObject_accepted; rewrite Hv.
    + by rewrite Hfid.
    + right. left. apply startsWith_app.
  - exists {| VideoUtils.uri := filesUrl ++ id |}. split.
    + rewrite createVideoObject_accepted; rewrite Hv.
      * assert (matchesFileId (filesUrl ++ id) = false) as -> by reflexivity.
        done.
      * left. reflexivity.
    + cbn [VideoUtils.uri]. unfold VideoUtils.extractFileIdFromUri.
      change filesUrl
        with (js "https://generativelanguage.googleapis.com/v1beta/" ++ js "files/").
      rewrite <- app_assoc, matchFiles_skip, Hfiles.
      * by destruct id.
      * apply (bool_decide_unpack _). vm_compute. reflexivity.
Qed.

(** The round trip for the id [abc-123_X] entered between spaces. *)
Lemma extractFileIdFromUri_createVideoObject_witness :
  ∃ vo, VideoUtils.createVideoObject (js " abc-123_X ") = inr vo
        ∧ VideoUtils.extractFileIdFromUri (VideoUtils.uri vo) = inr (js "abc-123_X").
Proof.
  apply (extractFileIdFromUri_createVideoObject (js "abc-123_X") (js " abc-123_X ")).
  - apply matchesFileId_bare. reflexivity.
  - left. reflexivity.
Defined.

(** X2. [extractFileIdFromUri] returns the run of code units other than
    [/] and [?] that follows the leftmost [files/] followed by such a code
    unit: the id is not empty, holds neither [/] nor [?], and ends at the
    end of the URI or at a [/] or [?].  It throws ["Could not extract file
    ID from URI: <uri>"] exactly when every [files/] of the URI is followed
    by [/] or [?] or ends the URI. *)
Theorem extractFileIdFromUri_leftmost_segment (uri : jsstring) :
  match VideoUtils.extractFileIdFromUri uri with
  | inr id =>
      id ≠ [] ∧ Forall (λ c, c ≠ 0x2F ∧ c ≠ 0x3F) id
      ∧ ∃ pre post,
          uri = pre ++ js "files/" ++ id ++ post
          ∧ (post = [] ∨ ∃ c post', post = c :: post' ∧ (c = 0x2F ∨ c = 0x3F))
          ∧ ∀ pre' c post', (length pre' < length pre)%nat →
              uri = pre' ++ js "files/" ++ c :: post' → c = 0x2F ∨ c = 0x3F
  | inl e =>
      e = mkError (js "Could not extract file ID from URI: " ++ uri)
      ∧ ∀ pre c post, uri = pre ++ js "files/" ++ c :: post → c = 0x2F ∨ c = 0x3F
  end.
Proof.
  unfold VideoUtils.extractFileIdFromUri.
  pose proof (matchFiles_spec uri) as H.
  destruct (VideoUtils.matchFiles uri) as [id|].
  - destruct H as (Hne & Hseg & pre & post & Huri & Hpost & Hleft).
    destruct id as [|c id]; [done|]. cbn [truthy].
    split_and!; [done| |].
    + eapply Forall_impl; [exact Hseg|]. intros x Hx.
      apply not_true_iff_false in Hx. rewrite isSegmentEnd_iff in Hx. tauto.
    + exists pre, post. split_and!; [done| |].
      * destruct Hpost as [->|(x & post' & -> & Hx)]; [by left|].
        right. exists x, post'. by rewrite <- isSegmentEnd_iff.
      * intros pre' x post' Hlen Heq. apply isSegmentEnd_iff. by eapply Hleft.
  - split; [done|]. intros pre c post Heq. apply isSegmentEnd_iff. by eapply H.
Qed.

(** ** Temporary files of the ffmpeg helpers *)

Section TemporaryFiles.
Import VideoUtils.

Variable env : fsEnv.
Variable videoBuffer : Buffer.
Variable fs : fsState.

(** Deleting a file, whether it is there or not, as the clean-up code does
    it: [unlink] in a [try] whose [catch] ignores the error. *)
Lemma unlink_ignored (file : jsstring) (fs0 : fsState) :
  tryCatch (unlink file) (λ _, mret ()) fs0 = (inr (), delete file fs0).
Proof.
  unfold tryCatch, unlink, mret, M_ret.
  destruct (fs0 !! file) eqn:H; [done|]. by rewrite delete_id.
Qed.

Lemma tempPath_inj pre1 pre2 :
  tempPath env pre1 = tempPath env pre2 →
  pre1 ++ showZ (dateNow env) ++ js ".mp4" = pre2 ++ showZ (dateNow env) ++ js ".mp4".
Proof. unfold tempPath. intros H. by do 2 apply app_inv_head in H. Qed.

Lemma tempPath_livephoto :
  tempPath env (js "livephoto_video_") ≠ tempPath env (js "livephoto_output_").
Proof. intros H. apply tempPath_inj in H. discriminate H. Qed.

End TemporaryFiles.

Section CleanUp.
Import VideoUtils.

(** The clean-up of the [catch] blocks: both files are deleted if they are
    there, and no error leaves the block. *)
Lemma cleanup_ignored (a b : jsstring) (fs0 : fsState) :
  tryCatch
    (tryCatch (unlink a) (λ _, mret ());;
     tryCatch (unlink b) (λ _, mret ()))
    (λ cleanupError, mret ()) fs0
  = (inr (), delete b (delete a fs0)).
Proof.
  unfold tryCatch at 1. unfold mbind, M_bind. by rewrite !unlink_ignored.
Qed.

End CleanUp.

(** X3. [removeAudioFromVideo] leaves the temporary directory as it found
    it, but for its own two files: whatever the outcome, a file at the path
    of its input or of its output file is gone afterwards (also one that was
    there before the call), and every other file is untouched. *)
Theorem removeAudioFromVideo_frame
    (env : VideoUtils.fsEnv) (videoBuffer : Buffer) (fs : VideoUtils.fsState) :
  let inputPath := VideoUtils.tempPath env (js "input_") in
  let outputPath := VideoUtils.tempPath env (js "output_") in
  (VideoUtils.removeAudioFromVideo env videoBuffer fs).2
  = delete outputPath (delete inputPath fs)
  ∧ ∀ other, other ≠ inputPath → other ≠ outputPath →
      (VideoUtils.removeAudioFromVideo env videoBuffer fs).2 !! other = fs !! other.
Proof.
  intros inputPath outputPath.
  pose proof (tempPath_input_output env) as Hne. fold inputPath outputPath in Hne.
  assert ((VideoUtils.removeAudioFromVideo env videoBuffer fs).2
          = delete outputPath (delete inputPath fs)) as Heq.
  { unfold VideoUtils.removeAudioFromVideo. fold inputPath outputPath.
    unfold tryCatch at 1.
    unfold mbind at 1, M_bind at 1. unfold VideoUtils.writeFile.
    destruct (VideoUtils.writable env inputPath).
    - unfold mbind at 1, M_bind at 1. unfold VideoUtils.execFfmpegCopyNoAudio.
      rewrite lookup_insert_eq. cbn [mbind option_bind].
      destruct (VideoUtils.ffmpegStripAudio env videoBuffer) as [out|].
      + unfold mbind at 1, M_bind at 1. unfold VideoUtils.readFile.
        rewrite lookup_insert_eq.
        unfold mbind, M_bind, tryCatch, VideoUtils.unlink.
        rewrite lookup_insert_ne, lookup_insert_eq by done.
        rewrite lookup_delete_ne, lookup_insert_eq by done.
        unfold mret, M_ret. cbn [snd].
        rewrite delete_insert_ne, delete_insert_eq by done.
        by rewrite delete_insert_eq.
      + unfold mbind at 1, M_bind at 1. rewrite cleanup_ignored.
        unfold mret, M_ret. cbn [snd]. by rewrite delete_insert_eq.
    - unfold mbind at 1, M_bind at 1. rewrite cleanup_ignored.
      unfold mret, M_ret. by cbn [snd]. }
  split; [exact Heq|].
  intros other Hin Hout. rewrite Heq. by rewrite !lookup_delete_ne.
Qed.

(** The command line for a portrait video. *)
Example livePhotoCommand_portrait :
  VideoUtils.livePhotoCommand (js "/tmp/in.mp4") (js "/tmp/out.mp4") (js "9:16")
  = js "ffmpeg -i " ++ [0x22] ++ js "/tmp/in.mp4" ++ [0x22]
    ++ js " -filter_complex " ++ [0x22]
    ++ js "[0:v]fps=24,scale=720:1280:force_original_aspect_ratio=decrease,pad=720:1280:(ow-iw)/2:(oh-ih)/2,setsar=1,format=yuv420p[v]; [v]trim=0:4,setpts=PTS-STARTPTS[vtrim]; [vtrim]split[v1][v2]; [v1]trim=3:4,geq=lum='p(X,Y)':cb='p(X,Y)':cr='p(X,Y)',loop=24:1[freeze]; [v2][freeze]overlay=shortest=1:enable='between(t,3,4)'[outv]"
    ++ [0x22] ++ js " -map " ++ [0x22] ++ js "[outv]" ++ [0x22]
    ++ js " -t 4 -an -c:v libx264 -preset fast -crf 23 -pix_fmt yuv420p "
    ++ [0x22] ++ js "/tmp/out.mp4" ++ [0x22].
Proof. vm_compute. reflexivity. Qed.

(** X4. [createLivePhotoVideo] returns the bytes ffmpeg wrote when the
    input file could be written and ffmpeg succeeded, and otherwise throws
    an [Error] whose message is ["Failed to create live photo video: "]
    followed by the message of the failure.  In every case its two temporary
    files are gone afterwards and no other file is touched.  An aspect ratio
    other than ['9:16'] is processed exactly like the default ['16:9']. *)
Theorem createLivePhotoVideo_outcome
    (env : VideoUtils.fsEnv) (tool : VideoUtils.ffmpegEnv)
    (videoBuffer : Buffer) (aspectRatio : option jsstring)
    (fs : VideoUtils.fsState) :
  let videoPath := VideoUtils.tempPath env (js "livephoto_video_") in
  let outputPath := VideoUtils.tempPath env (js "livephoto_output_") in
  let command :=
    VideoUtils.livePhotoCommand videoPath outputPath
      (default (js "16:9") aspectRatio) in
  let run := VideoUtils.createLivePhotoVideo env tool videoBuffer aspectRatio fs in
  run.2 = delete outputPath (delete videoPath fs)
  ∧ (VideoUtils.writable env videoPath = true →
     run.1 = match VideoUtils.ffmpegRun tool command videoBuffer with
             | inr out => inr out
             | inl error =>
                 inl (mkError (js "Failed to create live photo video: "
                               ++ interp (message error)))
             end)
  ∧ (VideoUtils.writable env videoPath = false →
     ∃ error, run.1 = inl (mkError (js "Failed to create live photo video: "
                                    ++ interp (message error))))
  ∧ (∀ other, other ≠ js "9:16" →
       VideoUtils.createLivePhotoVideo env tool videoBuffer (Some other) fs
       = VideoUtils.createLivePhotoVideo env tool videoBuffer None fs).
Proof.
  intros videoPath outputPath command run.
  pose proof (tempPath_livephoto env) as Hne. fold videoPath outputPath in Hne.
  assert (∀ other, other ≠ js "9:16" →
            VideoUtils.livePhotoCommand videoPath outputPath other
            = VideoUtils.livePhotoCommand videoPath outputPath (js "16:9")) as Hcmd.
  { intros other Hother. unfold VideoUtils.livePhotoCommand, VideoUtils.livePhotoDimensions.
    rewrite decide_False by done. reflexivity. }
  assert (run = (if VideoUtils.writable env videoPath
                 then match VideoUtils.ffmpegRun tool command videoBuffer with
                      | inr out => inr out
                      | inl error =>
                          inl (mkError (js "Failed to create live photo video: "
                                        ++ interp (message error)))
                      end
                 else inl (mkError (js "Failed to create live photo video: "
                                    ++ js "EACCES: permission denied, open")),
                 delete outputPath (delete videoPath fs))) as Hrun.
  { subst run. unfold VideoUtils.createLivePhotoVideo.
    fold videoPath outputPath. cbv zeta. fold command.
    unfold tryCatch at 1.
    unfold mbind at 1, M_bind at 1. unfold VideoUtils.writeFile.
    destruct (VideoUtils.writable env videoPath).
    - unfold mbind at 1, M_bind at 1. unfold VideoUtils.execFfmpeg.
      rewrite lookup_insert_eq.
      destruct (VideoUtils.ffmpegRun tool command videoBuffer) as [error|out].
      + unfold mbind at 1, M_bind at 1. rewrite cleanup_ignored.
        unfold throw. by rewrite delete_insert_eq.
      + unfold mbind at 1, M_bind at 1. unfold VideoUtils.readFile.
        rewrite lookup_insert_eq.
        unfold mbind, M_bind, tryCatch, VideoUtils.unlink.
        rewrite lookup_insert_ne, lookup_insert_eq by done.
        rewrite lookup_delete_ne, lookup_insert_eq by done.
        unfold mret, M_ret.
        rewrite delete_insert_ne, delete_insert_eq by done.
        by rewrite delete_insert_eq.
    - unfold mbind at 1, M_bind at 1. rewrite cleanup_ignored.
      unfold throw. done. }
  split_and!.
  - by rewrite Hrun.
  - intros Hw. by rewrite Hrun, Hw.
  - intros Hw. rewrite Hrun, Hw. 
    by exists {| code := None; name := None;
                 message := Some (js "EACCES: permission denied, open") |}.
  - intros other Hother. unfold VideoUtils.createLivePhotoVideo.
    cbn [default from_option id]. cbv zeta. fold videoPath outputPath.
    by rewrite Hcmd.
Qed.

(** ** generateVideo: the images of a request *)

Section RequestImages.
Import Gemini.

Variable env : requestEnv.

Lemma blank_trim s : VideoUtils.blank s = true ↔ trim s = [].
Proof.
  unfold VideoUtils.blank. destruct s as [|c s]; [done|].
  cbn [truthy negb orb]. destruct (trim (c :: s)); cbn; split; congruence.
Qed.

Lemma blank_false_trim s : VideoUtils.blank s = false ↔ trim s ≠ [].
Proof. rewrite <- blank_trim. by destruct (VideoUtils.blank s). Qed.

(** The image made of a download. *)
Definition imageOfDownload (r : jsstring * jsstring) : VideoUtils.VideoGenerationImage :=
  {| VideoUtils.imageBytes := r.1; VideoUtils.mimeType := r.2 |}.

(** The error [fetchImageForVideo] throws when the download of [url] fails
    with [error]. *)
Definition fetchFailure (url : jsstring) (error : jsError) : jsError :=
  nodeOperationError
    (js "Failed to fetch image from URL: " ++ url ++ js ". Error: "
     ++ interp (message error)).

(** A URL that is not blank is downloaded, once. *)
Lemma fetchImageForVideo_run url st :
  VideoUtils.blank url = false →
  fetchImageForVideo env url st
  = (match urlToBase64WithMimeType env url with
     | inr r => inr (imageOfDownload r)
     | inl error => inl (fetchFailure url error)
     end, EvFetchImage url :: st).
Proof.
  intros Hb. unfold fetchImageForVideo. rewrite Hb.
  unfold tryCatch, mbind, M_bind, modifyState, liftResult.
  destruct (urlToBase64WithMimeType env url) as [error|[data mimeType]]; done.
Qed.

(** A blank URL is refused without any download. *)
Lemma fetchImageForVideo_blank url st :
  VideoUtils.blank url = true →
  fetchImageForVideo env url st
  = (inl (nodeOperationError (js "Image URL cannot be empty")), st).
Proof. intros Hb. unfold fetchImageForVideo. by rewrite Hb. Qed.

(** The URLs of a list that are downloaded: those that are not blank. *)
Definition wantedUrls (urls : list jsstring) : list jsstring :=
  List.filter (λ url, negb (VideoUtils.blank url)) urls.

Lemma fetchReferenceImages_success urls :
  ∀ st rs,
    Forall2 (λ url r, urlToBase64WithMimeType env url = inr r) (wantedUrls urls) rs →
    fetchReferenceImages env urls st
    = (inr (imageOfDownload <$> rs), rev (EvFetchImage <$> wantedUrls urls) ++ st).
Proof.
  induction urls as [|url urls IH]; intros st rs Hall.
  - cbn in Hall. inversion Hall. done.
  - cbn [fetchReferenceImages wantedUrls List.filter] in *.
    destruct (VideoUtils.blank url) eqn:Hb; cbn [negb] in *.
    + by apply IH.
    + inversion Hall as [|? r ? rs' Hr Hrest]; subst.
      unfold mbind, M_bind. rewrite fetchImageForVideo_run, Hr by done.
      fold (wantedUrls urls) in *. rewrite (IH _ rs') by done.
      unfold mret, M_ret. cbn [fmap list_fmap rev]. by rewrite <- app_assoc.
Qed.

Lemma fetchReferenceImages_failure urls :
  ∀ st pre url post rs error,
    wantedUrls urls = pre ++ url :: post →
    Forall2 (λ url r, urlToBase64WithMimeType env url = inr r) pre rs →
    urlToBase64WithMimeType env url = inl error →
    fetchReferenceImages env urls st
    = (inl (fetchFailure url error),
       EvFetchImage url :: rev (EvFetchImage <$> pre) ++ st).
Proof.
  induction urls as [|u urls IH]; intros st pre url post rs error Hw Hpre Hfail.
  - by destruct pre.
  - cbn [fetchReferenceImages wantedUrls List.filter] in *.
    destruct (VideoUtils.blank u) eqn:Hb; cbn [negb] in *.
    + by eapply IH.
    + fold (wantedUrls urls) in *. unfold mbind, M_bind.
      rewrite fetchImageForVideo_run by done.
      destruct pre as [|u' pre].
      * injection Hw as -> Hw. by rewrite Hfail.
      * injection Hw as -> Hw.
        inversion Hpre as [|? r ? rs' Hr Hrest]; subst. rewrite Hr.
        rewrite (IH _ pre url post rs' error) by done.
        cbn [fmap list_fmap rev]. by rewrite <- app_assoc.
Qed.

(** The loop of [execute] over the reference images does what
    [fetchReferenceImages] does, and marks each image as an asset. *)
Lemma fetchAssets_fetchReferenceImages urls :
  ∀ st,
    fetchAssets env urls st
    = match fetchReferenceImages env urls st with
      | (inr images, st') => (inr ((λ image, (image, js "ASSET")) <$> images), st')
      | (inl error, st') => (inl error, st')
      end.
Proof.
  induction urls as [|url urls IH]; intros st; [done|].
  cbn [fetchAssets fetchReferenceImages].
  destruct (negb (VideoUtils.blank url)); [|apply IH].
  unfold mbind, M_bind.
  destruct (fetchImageForVideo env url st) as [[error|image] st1]; [done|].
  rewrite IH.
  by destruct (fetchReferenceImages env urls st1) as [[error|images] st2].
Qed.

End RequestImages.

(** A network in which only [https://img.example/b.png] cannot be
    downloaded. *)
Definition patchyNetwork : Gemini.requestEnv :=
  {| Gemini.urlToBase64WithMimeType := λ url,
       if decide (url = js "https://img.example/b.png")
       then inl {| code := Some (js "ENOTFOUND"); name := Some (js "Error");
                   message := Some (js "getaddrinfo ENOTFOUND img.example") |}
       else inr (url, js "image/png");
     Gemini.generateVideos := λ _,
       inr {| Gemini.done := false; Gemini.response := None |} |}.

Example fetchReferenceImages_skips_blank :
  Gemini.fetchReferenceImages patchyNetwork
    [js "https://img.example/a.png"; js "  "; []; js "https://img.example/c.png"] []
  = (inr [ {| VideoUtils.imageBytes := js "https://img.example/a.png";
              VideoUtils.mimeType := js "image/png" |};
           {| VideoUtils.imageBytes := js "https://img.example/c.png";
              VideoUtils.mimeType := js "image/png" |} ],
     [Gemini.EvFetchImage (js "https://img.example/c.png");
      Gemini.EvFetchImage (js "https://img.example/a.png")]).
Proof. vm_compute. reflexivity. Qed.

Example fetchReferenceImages_stops :
  Gemini.fetchReferenceImages patchyNetwork
    [js "https://img.example/a.png"; js "https://img.example/b.png";
     js "https://img.example/c.png"] []
  = (inl {| code := None; name := Some (js "NodeOperationError");
            message := Some (js "The connection cannot be established, this usually occurs due to an incorrect host (domain) value") |},
     [Gemini.EvFetchImage (js "https://img.example/b.png");
      Gemini.EvFetchImage (js "https://img.example/a.png")]).
Proof. vm_compute. reflexivity. Qed.

(** X5. [fetchReferenceImages] downloads the URLs that are not blank, in
    order, each once, and never a blank one.  When every download succeeds
    it returns one image per such URL, in order.  At the first download that
    fails it stops: the later URLs are not downloaded and the error is the
    [NodeOperationError] made from ["Failed to fetch image from URL: <url>.
    Error: <message>"], whose message is that text when the text mentions
    no common error code, and the description of the first common error
    code it mentions otherwise.  The loop of [execute] over the reference
    images of a references-to-video request behaves in the same way and
    marks each image as an [ASSET]. *)
Theorem fetchReferenceImages_downloads (env : Gemini.requestEnv) (urls : list jsstring)
    (st : Gemini.requestState) :
  let wanted := List.filter (λ url, negb (VideoUtils.blank url)) urls in
  (∀ url, url ∈ wanted ↔ url ∈ urls ∧ trim url ≠ [])
  ∧ (∀ rs,
       Forall2 (λ url r, Gemini.urlToBase64WithMimeType env url = inr r) wanted rs →
       Gemini.fetchReferenceImages env urls st
       = (inr ((λ r, {| VideoUtils.imageBytes := r.1; VideoUtils.mimeType := r.2 |})
               <$> rs),
          rev (Gemini.EvFetchImage <$> wanted) ++ st))
  ∧ (∀ pre url post rs error,
       wanted = pre ++ url :: post →
       Forall2 (λ url r, Gemini.urlToBase64WithMimeType env url = inr r) pre rs →
       Gemini.urlToBase64WithMimeType env url = inl error →
       Gemini.fetchReferenceImages env urls st
       = (inl (nodeOperationError
                 (js "Failed to fetch image from URL: " ++ url ++ js ". Error: "
                  ++ interp (message error))),
          Gemini.EvFetchImage url :: rev (Gemini.EvFetchImage <$> pre) ++ st))
  ∧ (∀ url error,
       name (nodeOperationError
               (js "Failed to fetch image from URL: " ++ url ++ js ". Error: "
                ++ interp (message error)))
       = Some (js "NodeOperationError")
       ∧ ∃ surfaced,
           message (nodeOperationError
                      (js "Failed to fetch image from URL: " ++ url ++ js ". Error: "
                       ++ interp (message error)))
           = Some surfaced
           ∧ describedBy
               (js "Failed to fetch image from URL: " ++ url ++ js ". Error: "
                ++ interp (message error))
               surfaced)
  ∧ Gemini.fetchAssets env urls st
    = match Gemini.fetchReferenceImages env urls st with
      | (inr images, st') => (inr ((λ image, (image, js "ASSET")) <$> images), st')
      | (inl error, st') => (inl error, st')
      end.
Proof.
  intros wanted. split_and!.
  - intros url. subst wanted. rewrite !list_elem_of_In, filter_In.
    rewrite negb_true_iff, blank_false_trim. done.
  - intros rs Hrs. by apply fetchReferenceImages_success.
  - intros pre url post rs error Hw Hpre Hfail.
    by eapply fetchReferenceImages_failure.
  - intros url error. split; [done|]. apply nodeOperationError_message.
  - apply fetchAssets_fetchReferenceImages.
Qed.

(** Three reference images of which the second cannot be downloaded
    because its host does not resolve: the third is not asked for, and the
    message of the error is the description of [ENOTFOUND]. *)
Lemma fetchReferenceImages_downloads_witness :
  ∃ err,
    Gemini.fetchReferenceImages patchyNetwork
      [js "https://img.example/a.png"; js "  "; js "https://img.example/b.png";
       js "https://img.example/c.png"] []
    = (inl err,
       [Gemini.EvFetchImage (js "https://img.example/b.png");
        Gemini.EvFetchImage (js "https://img.example/a.png")])
    ∧ message err
      = Some (js "The connection cannot be established, this usually occurs due to an incorrect host (domain) value").
Proof.
  destruct (fetchReferenceImages_downloads patchyNetwork
              [js "https://img.example/a.png"; js "  "; js "https://img.example/b.png";
               js "https://img.example/c.png"] [])
    as (_ & _ & Hfails & Hmessage & _).
  eexists. split.
  - apply (Hfails [js "https://img.example/a.png"] (js "https://img.example/b.png")
             [js "https://img.example/c.png"]
             [(js "https://img.example/a.png", js "image/png")]).
    + vm_compute. reflexivity.
    + repeat constructor.
    + vm_compute. reflexivity.
  - destruct (Hmessage (js "https://img.example/b.png")
                {| code := Some (js "ENOTFOUND"); name := Some (js "Error");
                   message := Some (js "getaddrinfo ENOTFOUND img.example") |})
      as (_ & surfaced & Hsurfaced & _ & _ & Hdescribed).
    transitivity (Some surfaced); [exact Hsurfaced|]. f_equal.
    apply (Hdescribed (js "ENOTFOUND")).
    apply firstMentioned_find. vm_compute. reflexivity.
Defined.

(** ** generateVideo: what a request carries *)

Section VideoRequest.
Import Gemini.

Variable env : requestEnv.
Variable p : videoParams.

(** The instruction put before the prompt of a video without audio. *)
Definition silentFilm : jsstring :=
  js "[Silent film, no audio, no sound effects, no background music] ".

(** The params [execute] hands to [validateParameters]. *)
Definition validatedParams : VideoUtils.validationParams :=
  {| VideoUtils.vp_videoPrompt := p_videoPrompt p;
     VideoUtils.vp_startFrameUrl :=
       if decide (p_generationMode p = js "framesToVideo")
       then p_startFrameUrl p else [];
     VideoUtils.vp_referenceImages :=
       if decide (p_generationMode p = js "referencesToVideo")
       then p_referenceImages p else [];
     VideoUtils.vp_inputVideoUri :=
       if decide (p_generationMode p = js "extendVideo")
       then p_inputVideoUri p else [] |}.

(** The [config] and the payload before the mode is looked at. *)
Definition baseConfig : VideoUtils.videoConfig :=
  let aspectRatio :=
    if decide (p_generationMode p = js "extendVideo") then None
    else Some (p_aspectRatio p) in
  let config := VideoUtils.buildVideoConfig (p_resolution p) aspectRatio (Some 1%Z) in
  let config := withDuration config (parseInt10 (p_durationSeconds p)) in
  if truthy (Some (p_personGeneration p))
  then withPersonGeneration config (p_personGeneration p) else config.

Definition basePayload : generateVideosPayload :=
  let finalPrompt :=
    if negb (VideoUtils.blank (p_videoPrompt p)) then trim (p_videoPrompt p) else [] in
  let finalPrompt :=
    if negb (p_generateAudio p) && truthy (Some finalPrompt)
    then silentFilm ++ finalPrompt
    else finalPrompt in
  {| model := p_videoModel p;
     config := baseConfig;
     prompt := if truthy (Some finalPrompt) then Some finalPrompt else None;
     negativePrompt :=
       if negb (VideoUtils.blank (p_negativePrompt p))
       then Some (p_negativePrompt p) else None;
     image := None;
     video := None |}.

(** The payload with a first frame, a last frame, reference images or an
    input video. *)
Definition withImage (pl : generateVideosPayload)
    (i : VideoUtils.VideoGenerationImage) : generateVideosPayload :=
  {| model := model pl; config := config pl; prompt := prompt pl;
     negativePrompt := negativePrompt pl; image := Some i; video := None |}.

Definition withVideo (pl : generateVideosPayload) (v : VideoUtils.VideoObject)
  : generateVideosPayload :=
  {| model := model pl; config := config pl; prompt := prompt pl;
     negativePrompt := negativePrompt pl; image := None; video := Some v |}.

(** The part of the branch that depends on the mode. *)
Definition modeStep : M requestState generateVideosPayload :=
  if decide (p_generationMode p = js "framesToVideo") then
    startFrame ← fetchImageForVideo env (p_startFrameUrl p);
    let finalEndFrameUrl :=
      if p_enableLooping p then p_startFrameUrl p else p_endFrameUrl p in
    if negb (VideoUtils.blank finalEndFrameUrl) then
      endFrame ← fetchImageForVideo env finalEndFrameUrl;
      mret (withConfig (withImage basePayload startFrame)
              (withLastFrame baseConfig endFrame))
    else mret (withImage basePayload startFrame)
  else if decide (p_generationMode p = js "referencesToVideo") then
    assets ← fetchAssets env (p_referenceImages p);
    referenceImagesPayload ←
      (if negb (VideoUtils.blank (p_styleImageUrl p)) then
         styleImage ← fetchImageForVideo env (p_styleImageUrl p);
         mret (assets ++ [(styleImage, js "STYLE")])
       else mret assets);
    if bool_decide (0 < length referenceImagesPayload)%nat then
      mret (withConfig basePayload
              (withReferenceImages baseConfig referenceImagesPayload))
    else mret basePayload
  else if decide (p_generationMode p = js "extendVideo") then
    videoObject ← liftResult (VideoUtils.createVideoObject (p_inputVideoUri p));
    mret (withVideo basePayload videoObject)
  else mret basePayload.

(** [buildVideoRequest] is the validation followed by the step of the
    mode. *)
Lemma buildVideoRequest_steps :
  buildVideoRequest env p
  = (liftResult (VideoUtils.validateParameters (p_generationMode p) validatedParams);;
     modeStep).
Proof. reflexivity. Qed.

End VideoRequest.
Section VideoRequestModes.
Import Gemini.

Variable env : requestEnv.
Variable p : videoParams.

Let base := basePayload p.
Let cfg := baseConfig p.

Ltac mode_neq := intros Habs; vm_compute in Habs; discriminate Habs.

Lemma validateParameters_frames :
  p_generationMode p = js "framesToVideo" →
  VideoUtils.validateParameters (p_generationMode p) (validatedParams p)
  = if VideoUtils.blank (p_startFrameUrl p)
    then inl (nodeOperationError
                (js "Start frame URL is required for frames-to-video mode"))
    else inr ().
Proof.
  intros Hmode. unfold VideoUtils.validateParameters, validatedParams.
  rewrite Hmode. cbn [VideoUtils.vp_startFrameUrl].
  rewrite (decide_False (P := js "framesToVideo" = js "textToVideo")) by mode_neq.
  by rewrite !decide_True.
Qed.

Lemma validateParameters_references :
  p_generationMode p = js "referencesToVideo" →
  VideoUtils.validateParameters (p_generationMode p) (validatedParams p)
  = if bool_decide (length (p_referenceImages p) = 0%nat)
    then inl (nodeOperationError
                (js "At least one reference image is required for references-to-video mode"))
    else inr ().
Proof.
  intros Hmode. unfold VideoUtils.validateParameters, validatedParams.
  rewrite Hmode. cbn [VideoUtils.vp_referenceImages].
  rewrite (decide_False (P := js "referencesToVideo" = js "textToVideo")) by mode_neq.
  rewrite (decide_False (P := js "referencesToVideo" = js "framesToVideo")) by mode_neq.
  by rewrite !decide_True.
Qed.

Lemma validateParameters_extend :
  p_generationMode p = js "extendVideo" →
  VideoUtils.validateParameters (p_generationMode p) (validatedParams p)
  = if VideoUtils.blank (p_inputVideoUri p)
    then inl (nodeOperationError
                (js "Input video URI is required for extend-video mode"))
    else inr ().
Proof.
  intros Hmode. unfold VideoUtils.validateParameters, validatedParams.
  rewrite Hmode. cbn [VideoUtils.vp_inputVideoUri].
  rewrite (decide_False (P := js "extendVideo" = js "textToVideo")) by mode_neq.
  rewrite (decide_False (P := js "extendVideo" = js "framesToVideo")) by mode_neq.
  rewrite (decide_False (P := js "extendVideo" = js "referencesToVideo")) by mode_neq.
  by rewrite !decide_True.
Qed.

Lemma modeStep_frames :
  p_generationMode p = js "framesToVideo" →
  modeStep env p
  = (startFrame ← fetchImageForVideo env (p_startFrameUrl p);
     let finalEndFrameUrl :=
       if p_enableLooping p then p_startFrameUrl p else p_endFrameUrl p in
     if negb (VideoUtils.blank finalEndFrameUrl) then
       endFrame ← fetchImageForVideo env finalEndFrameUrl;
       mret (withConfig (withImage base startFrame) (withLastFrame cfg endFrame))
     else mret (withImage base startFrame)).
Proof. intros Hmode. unfold modeStep. by rewrite decide_True. Qed.

Lemma modeStep_references :
  p_generationMode p = js "referencesToVideo" →
  modeStep env p
  = (assets ← fetchAssets env (p_referenceImages p);
     referenceImagesPayload ←
       (if negb (VideoUtils.blank (p_styleImageUrl p)) then
          styleImage ← fetchImageForVideo env (p_styleImageUrl p);
          mret (assets ++ [(styleImage, js "STYLE")])
        else mret assets);
     if bool_decide (0 < length referenceImagesPayload)%nat then
       mret (withConfig base (withReferenceImages cfg referenceImagesPayload))
     else mret base).
Proof.
  intros Hmode. unfold modeStep. rewrite Hmode.
  rewrite (decide_False (P := js "referencesToVideo" = js "framesToVideo")) by mode_neq.
  by rewrite decide_True.
Qed.

Lemma modeStep_extend :
  p_generationMode p = js "extendVideo" →
  modeStep env p
  = (videoObject ← liftResult (VideoUtils.createVideoObject (p_inputVideoUri p));
     mret (withVideo base videoObject)).
Proof.
  intros Hmode. unfold modeStep. rewrite Hmode.
  rewrite (decide_False (P := js "extendVideo" = js "framesToVideo")) by mode_neq.
  rewrite (decide_False (P := js "extendVideo" = js "referencesToVideo")) by mode_neq.
  by rewrite decide_True.
Qed.

(** The events of a step are downloads. *)
Lemma fetchImageForVideo_trace url st :
  ∃ urls, (fetchImageForVideo env url st).2 = (EvFetchImage <$> urls) ++ st.
Proof.
  destruct (VideoUtils.blank url) eqn:Hb.
  - rewrite fetchImageForVideo_blank by done. by exists [].
  - rewrite fetchImageForVideo_run by done. by exists [url].
Qed.

Lemma fetchAssets_trace urls :
  ∀ st, ∃ fetched, (fetchAssets env urls st).2 = (EvFetchImage <$> fetched) ++ st.
Proof.
  induction urls as [|url urls IH]; intros st; [by exists []|].
  cbn [fetchAssets]. destruct (negb (VideoUtils.blank url)); [|apply IH].
  unfold mbind, M_bind.
  destruct (fetchImageForVideo_trace url st) as [f1 H1].
  destruct (fetchImageForVideo env url st) as [[error|image] st1]; cbn [snd] in H1.
  - by exists f1.
  - destruct (IH st1) as [f2 H2].
    destruct (fetchAssets env urls st1) as [[error|more] st2]; cbn [snd] in *;
      exists (f2 ++ f1); by rewrite H2, H1, fmap_app, app_assoc.
Qed.

Lemma modeStep_trace st :
  ∃ fetched, (modeStep env p st).2 = (EvFetchImage <$> fetched) ++ st.
Proof.
  unfold modeStep. repeat case_decide.
  - unfold mbind, M_bind.
    destruct (fetchImageForVideo_trace (p_startFrameUrl p) st) as [f1 H1].
    destruct (fetchImageForVideo env (p_startFrameUrl p) st) as [[e|startFrame] st1];
      cbn [snd] in H1; [by exists f1|].
    cbv zeta.
    destruct (negb (VideoUtils.blank _)); [|by exists f1].
    match goal with
    | |- context [fetchImageForVideo env ?u st1] =>
        destruct (fetchImageForVideo_trace u st1) as [f2 H2];
        destruct (fetchImageForVideo env u st1) as [[e|endFrame] st2]
    end; cbn [snd] in *; exists (f2 ++ f1); by rewrite H2, H1, fmap_app, app_assoc.
  - unfold mbind, M_bind.
    destruct (fetchAssets_trace (p_referenceImages p) st) as [f1 H1].
    destruct (fetchAssets env (p_referenceImages p) st) as [[e|assets] st1];
      cbn [snd] in H1; [by exists f1|].
    destruct (negb (VideoUtils.blank (p_styleImageUrl p))).
    + unfold mbind, M_bind.
      destruct (fetchImageForVideo_trace (p_styleImageUrl p) st1) as [f2 H2].
      destruct (fetchImageForVideo env (p_styleImageUrl p) st1) as [[e|styleImage] st2];
        cbn [snd] in *.
      * exists (f2 ++ f1). by rewrite H2, H1, fmap_app, app_assoc.
      * unfold mret, M_ret. exists (f2 ++ f1).
        destruct (bool_decide _); cbn [snd]; by rewrite H2, H1, fmap_app, app_assoc.
    + unfold mret, M_ret. exists f1. by destruct (bool_decide _).
  - unfold mbind, M_bind, liftResult. exists [].
    by destruct (VideoUtils.createVideoObject _).
  - by exists [].
Qed.

(** The text of the request does not depend on the mode. *)
Lemma modeStep_text st pl st' :
  modeStep env p st = (inr pl, st') →
  model pl = model base ∧ prompt pl = prompt base
  ∧ negativePrompt pl = negativePrompt base.
Proof.
  unfold modeStep. repeat case_decide.
  - unfold mbind, M_bind.
    destruct (fetchImageForVideo env (p_startFrameUrl p) st) as [[e|startFrame] st1];
      [done|].
    cbv zeta. destruct (negb (VideoUtils.blank _)).
    + destruct (fetchImageForVideo env _ st1) as [[e|endFrame] st2]; [done|].
      by intros [= <- <-].
    + by intros [= <- <-].
  - unfold mbind, M_bind.
    destruct (fetchAssets env (p_referenceImages p) st) as [[e|assets] st1]; [done|].
    destruct (negb (VideoUtils.blank (p_styleImageUrl p))).
    + unfold mbind, M_bind.
      destruct (fetchImageForVideo env (p_styleImageUrl p) st1) as [[e|styleImage] st2];
        [done|].
      unfold mret, M_ret. destruct (bool_decide _); by intros [= <- <-].
    + unfold mret, M_ret. destruct (bool_decide _); by intros [= <- <-].
  - unfold mbind, M_bind, liftResult.
    destruct (VideoUtils.createVideoObject _); [done|]. by intros [= <- <-].
  - by intros [= <- <-].
Qed.

Lemma trim_nil : trim [] = [].
Proof. reflexivity. Qed.

Lemma prompt_basePayload :
  prompt base
  = match trim (p_videoPrompt p) with
    | [] => None
    | c :: t => Some (if p_generateAudio p then c :: t else silentFilm ++ c :: t)
    end.
Proof.
  subst base. unfold basePayload. cbv zeta. cbn [prompt].
  destruct (VideoUtils.blank (p_videoPrompt p)) eqn:Hb.
  - apply blank_trim in Hb. rewrite Hb. cbn. by rewrite andb_false_r.
  - apply blank_false_trim in Hb. cbn [negb].
    destruct (trim (p_videoPrompt p)) as [|c t]; [done|]. cbn [truthy].
    destruct (p_generateAudio p); cbn [negb andb]; [done|].
    reflexivity.
Qed.

Lemma negativePrompt_basePayload :
  negativePrompt base
  = match trim (p_negativePrompt p) with
    | [] => None
    | _ :: _ => Some (p_negativePrompt p)
    end.
Proof.
  subst base. unfold basePayload. cbv zeta. cbn [negativePrompt].
  destruct (VideoUtils.blank (p_negativePrompt p)) eqn:Hb.
  - apply blank_trim in Hb. by rewrite Hb.
  - apply blank_false_trim in Hb. cbn [negb].
    by destruct (trim (p_negativePrompt p)).
Qed.

End VideoRequestModes.

(** A frames-to-video request that loops, and a network that serves every
    image. *)
Definition loopingParams : Gemini.videoParams :=
  {| Gemini.p_videoModel := js "veo-3.1-fast-generate-preview";
     Gemini.p_generationMode := js "framesToVideo";
     Gemini.p_videoPrompt := js "  waves  ";
     Gemini.p_negativePrompt := js "people";
     Gemini.p_resolution := js "720p";
     Gemini.p_durationSeconds := js "8";
     Gemini.p_personGeneration := js "allow_adult";
     Gemini.p_generateAudio := false;
     Gemini.p_aspectRatio := js "16:9";
     Gemini.p_startFrameUrl := js "https://img.example/a.png";
     Gemini.p_enableLooping := true;
     Gemini.p_endFrameUrl := js "https://img.example/b.png";
     Gemini.p_referenceImages := [];
     Gemini.p_styleImageUrl := [];
     Gemini.p_inputVideoUri := [] |}.

Example loopingParams_request :
  ∃ pl,
    Gemini.buildVideoRequest patchyNetwork loopingParams [] 
    = (inr pl, [Gemini.EvFetchImage (js "https://img.example/a.png");
                Gemini.EvFetchImage (js "https://img.example/a.png")])
    ∧ Gemini.prompt pl
      = Some (js "[Silent film, no audio, no sound effects, no background music] waves")
    ∧ Gemini.negativePrompt pl = Some (js "people")
    ∧ Gemini.image pl = VideoUtils.lastFrame (Gemini.config pl).
Proof. eexists. vm_compute. done. Qed.

(** X6. The text of a video request.  Whatever the mode, a request that is
    built carries the model as entered; as its prompt the entered prompt
    with its surrounding white space removed, preceded by the silent-film
    instruction when audio is switched off, and no prompt at all when the
    entered prompt is blank (the instruction is then not sent either); and
    as its negative prompt the entered one exactly as typed (not trimmed),
    or none when that is blank. *)
Theorem buildVideoRequest_text
    (env : Gemini.requestEnv) (p : Gemini.videoParams)
    (st st' : Gemini.requestState) (pl : Gemini.generateVideosPayload) :
  Gemini.buildVideoRequest env p st = (inr pl, st') →
  Gemini.model pl = Gemini.p_videoModel p
  ∧ Gemini.prompt pl
    = match trim (Gemini.p_videoPrompt p) with
      | [] => None
      | c :: t =>
          Some (if Gemini.p_generateAudio p then c :: t
                else js "[Silent film, no audio, no sound effects, no background music] "
                     ++ c :: t)
      end
  ∧ Gemini.negativePrompt pl
    = match trim (Gemini.p_negativePrompt p) with
      | [] => None
      | _ :: _ => Some (Gemini.p_negativePrompt p)
      end.
Proof.
  rewrite buildVideoRequest_steps. unfold mbind, M_bind, liftResult.
  destruct (VideoUtils.validateParameters _ _) as [e|[]]; [done|].
  intros Hstep. apply modeStep_text in Hstep as (Hm & Hp & Hn).
  rewrite Hm, Hp, Hn, prompt_basePayload, negativePrompt_basePayload.
  done.
Qed.

(** The text of the looping request above. *)
Lemma buildVideoRequest_text_witness :
  ∃ pl st',
    Gemini.buildVideoRequest patchyNetwork loopingParams [] = (inr pl, st')
    ∧ Gemini.model pl = Gemini.p_videoModel loopingParams
    ∧ Gemini.prompt pl
      = match trim (Gemini.p_videoPrompt loopingParams) with
        | [] => None
        | c :: t =>
            Some (if Gemini.p_generateAudio loopingParams then c :: t
                  else js "[Silent film, no audio, no sound effects, no background music] "
                       ++ c :: t)
        end
    ∧ Gemini.negativePrompt pl
      = match trim (Gemini.p_negativePrompt loopingParams) with
        | [] => None
        | _ :: _ => Some (Gemini.p_negativePrompt loopingParams)
        end.
Proof.
  eexists _, _. split; [vm_compute; reflexivity|].
  eapply (buildVideoRequest_text patchyNetwork loopingParams []).
  vm_compute. reflexivity.
Defined.

(** X7. Frames-to-video with looping.  When looping is enabled the end
    frame URL is not looked at: the start frame URL is downloaded a second
    time, and the request carries the start frame as its first image and the
    image of the second download as its last frame.  Without looping the
    end frame URL is downloaded when it is not blank, and the request has no
    last frame when it is.  A download that fails ends the branch before
    anything is submitted, with the [NodeOperationError] made from ["Failed
    to fetch image from URL: <url>. Error: <message>"]: its message is that
    text when the text mentions no common error code, and the description
    of the first common error code it mentions otherwise. *)
Theorem buildVideoRequest_frames
    (env : Gemini.requestEnv) (p : Gemini.videoParams) (st : Gemini.requestState) :
  Gemini.p_generationMode p = js "framesToVideo" →
  trim (Gemini.p_startFrameUrl p) ≠ [] →
  let start := Gemini.p_startFrameUrl p in
  let final := if Gemini.p_enableLooping p then start else Gemini.p_endFrameUrl p in
  Gemini.buildVideoRequest env p st
  = match Gemini.urlToBase64WithMimeType env start with
    | inl error => (inl (fetchFailure start error), Gemini.EvFetchImage start :: st)
    | inr first =>
        let withFirst := withImage (basePayload p) (imageOfDownload first) in
        match trim final with
        | [] => (inr withFirst, Gemini.EvFetchImage start :: st)
        | _ :: _ =>
            (match Gemini.urlToBase64WithMimeType env final with
             | inl error => inl (fetchFailure final error)
             | inr last =>
                 inr (Gemini.withConfig withFirst
                        (Gemini.withLastFrame (baseConfig p) (imageOfDownload last)))
             end,
             Gemini.EvFetchImage final :: Gemini.EvFetchImage start :: st)
        end
    end
  ∧ ∀ url error,
      fetchFailure url error
      = nodeOperationError
          (js "Failed to fetch image from URL: " ++ url ++ js ". Error: "
           ++ interp (message error))
      ∧ name (fetchFailure url error) = Some (js "NodeOperationError")
      ∧ ∃ surfaced,
          message (fetchFailure url error) = Some surfaced
          ∧ describedBy
              (js "Failed to fetch image from URL: " ++ url ++ js ". Error: "
               ++ interp (message error))
              surfaced.
Proof.
  intros Hmode Hstart start final. split;
    [|intros url error; split_and!; [done|done|apply nodeOperationError_message]].
  rewrite buildVideoRequest_steps. unfold mbind at 1, M_bind at 1, liftResult.
  rewrite validateParameters_frames by done.
  apply blank_false_trim in Hstart. rewrite Hstart.
  rewrite modeStep_frames by done. unfold mbind at 1, M_bind at 1.
  fold start. rewrite fetchImageForVideo_run by done.
  destruct (Gemini.urlToBase64WithMimeType env start) as [error|first]; [done|].
  cbv zeta. fold start final.
  destruct (VideoUtils.blank final) eqn:Hfinal.
  - apply blank_trim in Hfinal. rewrite Hfinal. done.
  - cbn [negb]. unfold mbind, M_bind. rewrite fetchImageForVideo_run by done.
    apply blank_false_trim in Hfinal.
    destruct (trim final) as [|c t]; [done|].
    by destruct (Gemini.urlToBase64WithMimeType env final).
Qed.

(** The looping request with a start frame whose host does not resolve. *)
Definition unreachableStart : Gemini.videoParams :=
  {| Gemini.p_videoModel := Gemini.p_videoModel loopingParams;
     Gemini.p_generationMode := Gemini.p_generationMode loopingParams;
     Gemini.p_videoPrompt := Gemini.p_videoPrompt loopingParams;
     Gemini.p_negativePrompt := Gemini.p_negativePrompt loopingParams;
     Gemini.p_resolution := Gemini.p_resolution loopingParams;
     Gemini.p_durationSeconds := Gemini.p_durationSeconds loopingParams;
     Gemini.p_personGeneration := Gemini.p_personGeneration loopingParams;
     Gemini.p_generateAudio := Gemini.p_generateAudio loopingParams;
     Gemini.p_aspectRatio := Gemini.p_aspectRatio loopingParams;
     Gemini.p_startFrameUrl := js "https://img.example/b.png";
     Gemini.p_enableLooping := Gemini.p_enableLooping loopingParams;
     Gemini.p_endFrameUrl := Gemini.p_endFrameUrl loopingParams;
     Gemini.p_referenceImages := Gemini.p_referenceImages loopingParams;
     Gemini.p_styleImageUrl := Gemini.p_styleImageUrl loopingParams;
     Gemini.p_inputVideoUri := Gemini.p_inputVideoUri loopingParams |}.

(** The looping request above: the start frame is downloaded twice and is
    both the first image and the last frame.  With a start frame that
    cannot be downloaded the branch ends after one download, and the
    message of the error is the description of [ENOTFOUND]. *)
Lemma buildVideoRequest_frames_witness :
  Gemini.buildVideoRequest patchyNetwork loopingParams []
  = (inr (Gemini.withConfig
            (withImage (basePayload loopingParams)
               {| VideoUtils.imageBytes := js "https://img.example/a.png";
                  VideoUtils.mimeType := js "image/png" |})
            (Gemini.withLastFrame (baseConfig loopingParams)
               {| VideoUtils.imageBytes := js "https://img.example/a.png";
                  VideoUtils.mimeType := js "image/png" |})),
     [Gemini.EvFetchImage (js "https://img.example/a.png");
      Gemini.EvFetchImage (js "https://img.example/a.png")])
  ∧ ∃ err,
      Gemini.buildVideoRequest patchyNetwork unreachableStart []
      = (inl err, [Gemini.EvFetchImage (js "https://img.example/b.png")])
      ∧ message err
        = Some (js "The connection cannot be established, this usually occurs due to an incorrect host (domain) value").
Proof.
  split.
  - rewrite (proj1 (buildVideoRequest_frames patchyNetwork loopingParams []
                      eq_refl ltac:(vm_compute; discriminate))).
    vm_compute. reflexivity.
  - destruct (buildVideoRequest_frames patchyNetwork unreachableStart []
                eq_refl ltac:(vm_compute; discriminate)) as [Hrun Hmessage].
    eexists. split; [rewrite Hrun; vm_compute; reflexivity|].
    destruct (Hmessage (js "https://img.example/b.png")
                {| code := Some (js "ENOTFOUND"); name := Some (js "Error");
                   message := Some (js "getaddrinfo ENOTFOUND img.example") |})
      as (_ & _ & surfaced & Hsurfaced & _ & _ & Hdescribed).
    transitivity (Some surfaced); [exact Hsurfaced|]. f_equal.
    apply (Hdescribed (js "ENOTFOUND")).
    apply firstMentioned_find. vm_compute. reflexivity.
Defined.

(** An extend-video request. *)
Definition extendParams (inputVideoUri : jsstring) : Gemini.videoParams :=
  {| Gemini.p_videoModel := js "veo-3.1-generate-preview";
     Gemini.p_generationMode := js "extendVideo";
     Gemini.p_videoPrompt := js "the camera pulls back";
     Gemini.p_negativePrompt := [];
     Gemini.p_resolution := js "720p";
     Gemini.p_durationSeconds := js "8";
     Gemini.p_personGeneration := [];
     Gemini.p_generateAudio := true;
     Gemini.p_aspectRatio := js "16:9";
     Gemini.p_startFrameUrl := js "https://img.example/a.png";
     Gemini.p_enableLooping := false;
     Gemini.p_endFrameUrl := [];
     Gemini.p_referenceImages := [js "https://img.example/a.png"];
     Gemini.p_styleImageUrl := js "https://img.example/c.png";
     Gemini.p_inputVideoUri := inputVideoUri |}.

Example extendParams_evil :
  ∃ e, Gemini.submitVideoRequest patchyNetwork
         (extendParams (js "http://evil.example/x")) []
       = (inl e, []).
Proof. eexists. vm_compute. reflexivity. Qed.

(** X8. Extend-video requests.  In extend-video mode no image is
    downloaded, whatever URLs the other fields hold.  A blank input video
    URI is refused with ["Input video URI is required for extend-video
    mode"]; otherwise the request is built exactly when [createVideoObject]
    accepts the URI, and the error of [createVideoObject] is the error of
    the branch when it does not.  The request that is built carries the
    video reference [createVideoObject] returned, no image, no last frame,
    no reference images and no aspect ratio. *)
Theorem buildVideoRequest_extend
    (env : Gemini.requestEnv) (p : Gemini.videoParams) (st : Gemini.requestState) :
  Gemini.p_generationMode p = js "extendVideo" →
  Gemini.buildVideoRequest env p st
  = (match trim (Gemini.p_inputVideoUri p) with
     | [] => inl (nodeOperationError
                    (js "Input video URI is required for extend-video mode"))
     | _ :: _ =>
         match VideoUtils.createVideoObject (Gemini.p_inputVideoUri p) with
         | inl error => inl error
         | inr videoObject => inr (withVideo (basePayload p) videoObject)
         end
     end, st)
  ∧ ∀ videoObject,
      let pl := withVideo (basePayload p) videoObject in
      Gemini.video pl = Some videoObject
      ∧ Gemini.image pl = None
      ∧ VideoUtils.lastFrame (Gemini.config pl) = None
      ∧ VideoUtils.referenceImages (Gemini.config pl) = None
      ∧ VideoUtils.aspectRatio (Gemini.config pl) = None.
Proof.
  intros Hmode. split.
  - rewrite buildVideoRequest_steps. unfold mbind at 1, M_bind at 1, liftResult.
    rewrite validateParameters_extend by done.
    destruct (VideoUtils.blank (Gemini.p_inputVideoUri p)) eqn:Hb.
    + apply blank_trim in Hb. by rewrite Hb.
    + apply blank_false_trim in Hb.
      destruct (trim (Gemini.p_inputVideoUri p)) as [|c t]; [done|].
      rewrite modeStep_extend by done. unfold mbind, M_bind, liftResult.
      by destruct (VideoUtils.createVideoObject _).
  - intros videoObject pl. subst pl.
    unfold withVideo, basePayload, baseConfig. cbv zeta.
    cbn [Gemini.video Gemini.image Gemini.config].
    rewrite decide_True by done.
    by destruct (truthy (Some (Gemini.p_personGeneration p))).
Qed.

(** An extend-video request for the bare id [abc123]. *)
Lemma buildVideoRequest_extend_witness :
  Gemini.buildVideoRequest patchyNetwork (extendParams (js "abc123")) []
  = (inr (withVideo (basePayload (extendParams (js "abc123")))
            {| VideoUtils.uri := js "files/abc123" |}), []).
Proof.
  rewrite (proj1 (buildVideoRequest_extend patchyNetwork (extendParams (js "abc123"))
                    [] eq_refl)).
  vm_compute. reflexivity.
Defined.

(** A references-to-video request. *)
Definition referencesParams (images : list jsstring) (style : jsstring)
  : Gemini.videoParams :=
  {| Gemini.p_videoModel := js "veo-3.1-generate-preview";
     Gemini.p_generationMode := js "referencesToVideo";
     Gemini.p_videoPrompt := [];
     Gemini.p_negativePrompt := [];
     Gemini.p_resolution := js "720p";
     Gemini.p_durationSeconds := js "8";
     Gemini.p_personGeneration := [];
     Gemini.p_generateAudio := true;
     Gemini.p_aspectRatio := js "16:9";
     Gemini.p_startFrameUrl := [];
     Gemini.p_enableLooping := false;
     Gemini.p_endFrameUrl := [];
     Gemini.p_referenceImages := images;
     Gemini.p_styleImageUrl := style;
     Gemini.p_inputVideoUri := [] |}.

Example referencesParams_blank :
  ∃ pl,
    Gemini.submitVideoRequest patchyNetwork (referencesParams [js " "; []] []) []
    = (inr {| Gemini.done := false; Gemini.response := None |},
       [Gemini.EvGenerateVideos pl])
    ∧ VideoUtils.referenceImages (Gemini.config pl) = None
    ∧ Gemini.prompt pl = None ∧ Gemini.image pl = None ∧ Gemini.video pl = None.
Proof. eexists. vm_compute. done. Qed.

(** X9. References-to-video requests.  Validation only counts the entries
    of the reference image list: a list that is not empty passes even when
    every URL in it is blank.  The entries with a URL that is not blank are
    downloaded in order, then the style image when its URL is not blank;
    when every download succeeds the request lists the reference images in
    that order, each marked [ASSET], followed by the style image marked
    [STYLE].  When no URL is left to download the request is built all the
    same, without any reference image. *)
Theorem buildVideoRequest_references
    (env : Gemini.requestEnv) (p : Gemini.videoParams) (st : Gemini.requestState)
    (rs : list (jsstring * jsstring)) :
  Gemini.p_generationMode p = js "referencesToVideo" →
  Gemini.p_referenceImages p ≠ [] →
  let wanted :=
    List.filter (λ url, negb (VideoUtils.blank url)) (Gemini.p_referenceImages p) in
  Forall2 (λ url r, Gemini.urlToBase64WithMimeType env url = inr r) wanted rs →
  let style := Gemini.p_styleImageUrl p in
  let assets := (λ r, (imageOfDownload r, js "ASSET")) <$> rs in
  let withReferences l :=
    Gemini.withConfig (basePayload p) (Gemini.withReferenceImages (baseConfig p) l) in
  (trim style = [] →
   Gemini.buildVideoRequest env p st
   = (inr (match assets with
           | [] => basePayload p
           | _ :: _ => withReferences assets
           end),
      rev (Gemini.EvFetchImage <$> wanted) ++ st))
  ∧ (∀ r, trim style ≠ [] →
       Gemini.urlToBase64WithMimeType env style = inr r →
       Gemini.buildVideoRequest env p st
       = (inr (withReferences (assets ++ [(imageOfDownload r, js "STYLE")])),
          Gemini.EvFetchImage style :: rev (Gemini.EvFetchImage <$> wanted) ++ st))
  ∧ (wanted = [] → trim style = [] →
     Gemini.buildVideoRequest env p st = (inr (basePayload p), st)
     ∧ VideoUtils.referenceImages (Gemini.config (basePayload p)) = None).
Proof.
  intros Hmode Hne wanted Hrs style assets withReferences.
  assert (Gemini.buildVideoRequest env p st
          = (let (r, st1) :=
               (inr assets : jsError + _, rev (Gemini.EvFetchImage <$> wanted) ++ st) in
             match r with
             | inl e => (inl e, st1)
             | inr a =>
                 (λ assets,
                    referenceImagesPayload ←
                      (if negb (VideoUtils.blank style) then
                         styleImage ← Gemini.fetchImageForVideo env style;
                         mret (assets ++ [(styleImage, js "STYLE")])
                       else mret assets);
                    if bool_decide (0 < length referenceImagesPayload)%nat then
                      mret (withReferences referenceImagesPayload)
                    else mret (basePayload p)) a st1
             end)) as Hbuild.
  { rewrite buildVideoRequest_steps. unfold mbind at 1, M_bind at 1, liftResult.
    rewrite validateParameters_references by done.
    rewrite bool_decide_eq_false_2.
    2:{ intros Hlen. by apply length_zero_iff_nil in Hlen. }
    rewrite modeStep_references by done. unfold mbind at 1, M_bind at 1.
    rewrite fetchAssets_fetchReferenceImages.
    rewrite (fetchReferenceImages_success env _ st rs Hrs).
    by rewrite <- list_fmap_compose. }
  cbv beta iota zeta in Hbuild.
  assert (VideoUtils.referenceImages (Gemini.config (basePayload p)) = None) as Hnone.
  { unfold basePayload, baseConfig. cbv zeta. cbn [Gemini.config].
    by destruct (truthy (Some (Gemini.p_personGeneration p))), (decide _). }
  assert (trim style = [] →
          Gemini.buildVideoRequest env p st
          = (inr (match assets with
                  | [] => basePayload p
                  | _ :: _ => withReferences assets
                  end),
             rev (Gemini.EvFetchImage <$> wanted) ++ st)) as Hplain.
  { intros Hstyle. rewrite Hbuild. apply blank_trim in Hstyle. rewrite Hstyle.
    cbn [negb]. unfold mbind, M_bind, mret, M_ret.
    destruct assets as [|a assets']; [done|].
    rewrite bool_decide_eq_true_2 by (cbn; lia). done. }
  split_and!.
  - exact Hplain.
  - intros r Hstyle Hr. rewrite Hbuild.
    apply blank_false_trim in Hstyle. rewrite Hstyle. cbn [negb].
    unfold mbind, M_bind. rewrite fetchImageForVideo_run, Hr by done.
    unfold mret, M_ret.
    rewrite bool_decide_eq_true_2; [done|]. rewrite length_app. cbn. lia.
  - intros Hw Hstyle. split; [|exact Hnone].
    rewrite Hplain by done. subst assets. rewrite Hw in Hrs.
    inversion Hrs. subst. by rewrite Hw.
Qed.

(** Two reference images between blank entries, and a style image. *)
Lemma buildVideoRequest_references_witness :
  Gemini.buildVideoRequest patchyNetwork
    (referencesParams [js "https://img.example/a.png"; js " ";
                       js "https://img.example/c.png"]
       (js "https://img.example/s.png")) []
  = (inr (Gemini.withConfig
            (basePayload (referencesParams [js "https://img.example/a.png"; js " ";
                                            js "https://img.example/c.png"]
                            (js "https://img.example/s.png")))
            (Gemini.withReferenceImages
               (baseConfig (referencesParams [js "https://img.example/a.png"; js " ";
                                              js "https://img.example/c.png"]
                              (js "https://img.example/s.png")))
               [ ({| VideoUtils.imageBytes := js "https://img.example/a.png";
                     VideoUtils.mimeType := js "image/png" |}, js "ASSET");
                 ({| VideoUtils.imageBytes := js "https://img.example/c.png";
                     VideoUtils.mimeType := js "image/png" |}, js "ASSET");
                 ({| VideoUtils.imageBytes := js "https://img.example/s.png";
                     VideoUtils.mimeType := js "image/png" |}, js "STYLE") ])),
     [Gemini.EvFetchImage (js "https://img.example/s.png");
      Gemini.EvFetchImage (js "https://img.example/c.png");
      Gemini.EvFetchImage (js "https://img.example/a.png")]).
Proof.
  refine (proj1 (proj2
    (buildVideoRequest_references patchyNetwork
       (referencesParams [js "https://img.example/a.png"; js " ";
                          js "https://img.example/c.png"]
          (js "https://img.example/s.png")) []
       [(js "https://img.example/a.png", js "image/png");
        (js "https://img.example/c.png", js "image/png")] eq_refl _ _))
    (js "https://img.example/s.png", js "image/png") _ _).
  - discriminate.
  - repeat constructor.
  - vm_compute. discriminate.
  - reflexivity.
Defined.

(** X10. The provider is asked to generate a video at most once per item,
    and only after the parameters were validated and every image was
    downloaded: when the validation fails nothing is downloaded and nothing
    is submitted; when a download or the video reference fails, the
    downloads made so far are all that happened; otherwise the request is
    submitted once, after the downloads, and the outcome of the branch so
    far is the provider's answer. *)
Theorem submitVideoRequest_provider_call
    (env : Gemini.requestEnv) (p : Gemini.videoParams) (st : Gemini.requestState) :
  (∀ error,
     VideoUtils.validateParameters (Gemini.p_generationMode p) (validatedParams p)
     = inl error →
     Gemini.submitVideoRequest env p st = (inl error, st))
  ∧ ∃ fetched,
      match Gemini.buildVideoRequest env p st with
      | (inl error, st1) =>
          st1 = (Gemini.EvFetchImage <$> fetched) ++ st
          ∧ Gemini.submitVideoRequest env p st = (inl error, st1)
      | (inr payload, st1) =>
          st1 = (Gemini.EvFetchImage <$> fetched) ++ st
          ∧ Gemini.submitVideoRequest env p st
            = (Gemini.generateVideos env payload,
               Gemini.EvGenerateVideos payload :: st1)
      end.
Proof.
  split.
  - intros error Hval. unfold Gemini.submitVideoRequest.
    rewrite buildVideoRequest_steps. unfold mbind, M_bind, liftResult.
    by rewrite Hval.
  - assert (∃ fetched, (Gemini.buildVideoRequest env p st).2
                       = (Gemini.EvFetchImage <$> fetched) ++ st) as [fetched Hf].
    { rewrite buildVideoRequest_steps. unfold mbind, M_bind, liftResult.
      destruct (VideoUtils.validateParameters _ _) as [e|[]]; [by exists []|].
      apply modeStep_trace. }
    exists fetched. unfold Gemini.submitVideoRequest, mbind, M_bind.
    destruct (Gemini.buildVideoRequest env p st) as [[error|payload] st1];
      cbn [snd] in Hf; [done|].
    unfold modifyState, liftResult. done.
Qed.

(** ** generateVideo: how often the provider is polled *)

Section PollCount.
Import Gemini.

Variable env : pollEnv.
Variable o : pollingOptions.
Variable startTime : Z.
Hypothesis callDuration_nonneg : ∀ k, (0 ≤ callDuration env k)%Z.

Let delay := timerDelay (pollingIntervalMs o).
Let maxWait := maxWaitTimeMs o.

(** Every refresh but the last one of a run is followed by a test that
    still reads at most [maxWait], one pause or more after the test that
    preceded it. *)
Lemma pollLoop_refreshes fuel :
  ∀ op st res st',
    pollLoop fuel env o startTime op st = (res, st') →
    (refreshes st ≤ refreshes st')%nat
    ∧ ((refreshes st < refreshes st')%nat →
       (now st - startTime
        + (Z.of_nat (refreshes st' - refreshes st) - 1) * delay ≤ maxWait)%Z).
Proof.
  pose proof (timerDelay_pos (pollingIntervalMs o)) as Hdelay. fold delay in Hdelay.
  induction fuel as [|fuel IH]; intros op st res st' Hrun.
  - cbn in Hrun. injection Hrun as <- <-. split; [done|lia].
  - destruct (done op) eqn:Hdone.
    { rewrite pollLoop_done in Hrun by done. injection Hrun as <- <-.
      split; [done|lia]. }
    destruct (Z.lt_ge_cases maxWait (now st - startTime)) as [Hlate|Hearly].
    { rewrite pollLoop_late in Hrun by done. injection Hrun as <- <-.
      cbn. split; [done|lia]. }
    rewrite pollLoop_cycle in Hrun by done.
    pose proof (callDuration_nonneg (refreshes st)) as Hcall.
    destruct (getVideosOperation env (refreshes st)) as [e|op1].
    + injection Hrun as <- <-. cbn [afterCycle refreshes now]. split; [lia|].
      intros _. replace (S (refreshes st) - refreshes st)%nat with 1%nat by lia. lia.
    + apply IH in Hrun as [Hle Hbound]. cbn [afterCycle refreshes now] in *.
      split; [lia|]. intros _.
      destruct (decide (S (refreshes st) = refreshes st')) as [<-|Hmore].
      * replace (S (refreshes st) - refreshes st)%nat with 1%nat by lia. lia.
      * specialize (Hbound ltac:(lia)). fold delay in Hbound. nia.
Qed.

End PollCount.

(** X11. The number of status requests sent to the provider while polling
    is bounded by the time allowed: a run makes at most
    [maxWait / pollInterval + 1] of them (integer division, both in
    milliseconds, the interval as the timer applies it), and none when
    [maxWait] is negative.  With the default options (an interval of 10
    seconds and 30 minutes of waiting) that is at most 181 requests. *)
Theorem pollUntilDone_refresh_count
    (env : Gemini.pollEnv) (o : Gemini.pollingOptions)
    (op : Gemini.videosOperation) (st st' : Gemini.pollState) (fuel : nat)
    (res : jsError + option Gemini.videosOperation) :
  (∀ k, (0 ≤ Gemini.callDuration env k)%Z) →
  Gemini.pollUntilDone fuel env o op st = (res, st') →
  let n := Z.of_nat (Gemini.refreshes st' - Gemini.refreshes st) in
  let maxWait := Gemini.maxWaitTimeMs o in
  let interval := timerDelay (Gemini.pollingIntervalMs o) in
  (Gemini.refreshes st ≤ Gemini.refreshes st')%nat
  ∧ ((maxWait < 0)%Z → n = 0%Z)
  ∧ ((0 ≤ maxWait)%Z → (n ≤ maxWait / interval + 1)%Z)
  ∧ (Gemini.pollingInterval o = None → Gemini.maxWaitTime o = None → (n ≤ 181)%Z).
Proof.
  intros Hcall Hrun n maxWait interval.
  unfold Gemini.pollUntilDone, getState, mbind, M_bind in Hrun.
  apply (pollLoop_refreshes env o (Gemini.now st) Hcall) in Hrun as [Hle Hbound].
  pose proof (timerDelay_pos (Gemini.pollingIntervalMs o)) as Hdelay.
  fold interval in Hdelay. fold maxWait interval in Hbound.
  assert ((0 < n)%Z → ((n - 1) * interval ≤ maxWait)%Z) as Hn.
  { intros Hpos. subst n. specialize (Hbound ltac:(lia)). lia. }
  assert ((0 ≤ maxWait)%Z → (n ≤ maxWait / interval + 1)%Z) as Hdiv.
  { intros Hwait. destruct (decide (0 < n)%Z) as [Hpos|Hzero].
    - specialize (Hn Hpos).
      assert (n - 1 ≤ maxWait / interval)%Z; [|lia].
      apply Z.div_le_lower_bound; lia.
    - pose proof (Z.div_pos maxWait interval). lia. }
  split_and!.
  - done.
  - intros Hneg. destruct (decide (0 < n)%Z) as [Hpos|Hzero]; [|subst n; lia].
    specialize (Hn Hpos). nia.
  - exact Hdiv.
  - intros Hi Hw.
    assert (maxWait = 1800000%Z) as Hmw.
    { subst maxWait. unfold Gemini.maxWaitTimeMs. by rewrite Hw. }
    assert (interval = 10000%Z) as Hiv.
    { subst interval. unfold Gemini.pollingIntervalMs. by rewrite Hi. }
    specialize (Hdiv ltac:(lia)). rewrite Hmw, Hiv in Hdiv.
    change (1800000 / 10000)%Z with 180%Z in Hdiv. lia.
Qed.

(** The provider that never finishes is asked 31 times in five minutes, at
    an interval of ten seconds. *)
Lemma pollUntilDone_refresh_count_witness :
  ∃ res st',
    Gemini.pollUntilDone 50 (stalledProvider 0) fiveMinutes
      {| Gemini.done := false; Gemini.response := None |} pollStart = (res, st')
    ∧ Gemini.refreshes st' = 31%nat
    ∧ (Z.of_nat (Gemini.refreshes st' - Gemini.refreshes pollStart)
       ≤ Gemini.maxWaitTimeMs fiveMinutes
         / timerDelay (Gemini.pollingIntervalMs fiveMinutes) + 1)%Z.
Proof.
  eexists _, _. split; [vm_compute; reflexivity|]. split; [vm_compute; reflexivity|].
  refine (proj1 (proj2 (proj2
    (pollUntilDone_refresh_count (stalledProvider 0) fiveMinutes
       {| Gemini.done := false; Gemini.response := None |} pollStart _ 50 _ _ _))) _).
  - intros k. cbn. lia.
  - vm_compute. reflexivity.
  - vm_compute. discriminate.
Defined.

(** ** Upload retries: the time spent waiting *)

Section UploadBackoff.
Import S3Utils.

Variable env : s3Env.
Variable url : jsstring.
Variable maxRetries : Z.
Hypothesis maxRetries_le : (maxRetries ≤ 25)%Z.

(** Up to the 24th attempt the timer waits as long as it is asked to. *)
Lemma backoff_delay attempt :
  (1 ≤ attempt < maxRetries)%Z →
  timerDelay (2 ^ attempt * 100) = (2 ^ attempt * 100)%Z.
Proof.
  intros Ha. unfold timerDelay.
  assert (0 < 2 ^ attempt)%Z by (apply Z.pow_pos_nonneg; lia).
  assert (2 ^ attempt ≤ 2 ^ 24)%Z by (apply Z.pow_le_mono_r; lia).
  change (2 ^ 24)%Z with 16777216%Z in *.
  rewrite (proj2 (Z.leb_le _ _)), (proj2 (Z.leb_le _ _)); [done|lia|lia].
Qed.

(** A run of [k] attempts that starts with attempt number [attempt] waits
    for [100 * (2^(attempt+k-1) - 2^attempt)] milliseconds in all. *)
Lemma retryLoop_elapsed remaining :
  ∀ attempt lastError st r st',
    (1 ≤ attempt)%Z →
    remaining = Z.to_nat (maxRetries - attempt + 1) →
    retryLoop env url maxRetries remaining attempt lastError st = (r, st') →
    (doneCalls st ≤ doneCalls st')%nat
    ∧ ((0 < remaining)%nat → (doneCalls st < doneCalls st')%nat)
    ∧ (doneCalls st' = doneCalls st → elapsed st' = elapsed st)
    ∧ ((doneCalls st < doneCalls st')%nat →
       elapsed st'
       = (elapsed st
          + 100 * (2 ^ (attempt + Z.of_nat (doneCalls st' - doneCalls st) - 1)
                   - 2 ^ attempt))%Z).
Proof.
  induction remaining as [|remaining IH];
    intros attempt lastError st r st' Ha Hrem Hrun.
  - cbn in Hrun. injection Hrun as <- <-. split_and!; [done|lia|done|lia].
  - cbn [retryLoop] in Hrun.
    unfold attemptOnce, tryCatch, awaitUploadDone, sleep in Hrun.
    unfold mbind, M_bind, mret, M_ret in Hrun.
    destruct (uploadDone env (doneCalls st)) as [e|].
    + destruct ((attempt =? maxRetries)%Z || negb (isNetworkError e)) eqn:Hstop.
      * injection Hrun as <- <-. cbn [doneCalls elapsed].
        split_and!; [lia|lia|lia|]. intros _.
        replace (S (doneCalls st) - doneCalls st)%nat with 1%nat by lia.
        replace (attempt + Z.of_nat 1 - 1)%Z with attempt by lia. lia.
      * apply orb_false_iff in Hstop as [Hlt _]. apply Z.eqb_neq in Hlt.
        apply IH in Hrun as (Hle & Hsome & Hsame & Hmore); [|lia|lia].
        cbn [doneCalls elapsed] in *.
        rewrite backoff_delay in Hsame, Hmore by lia.
        specialize (Hsome ltac:(lia)).
        split_and!; [lia|lia|lia|]. intros _.
        rewrite Hmore by lia.
        replace (attempt + 1 + Z.of_nat (doneCalls st' - S (doneCalls st)) - 1)%Z
             with (attempt + Z.of_nat (doneCalls st' - doneCalls st) - 1)%Z by lia.
        replace (2 ^ (attempt + 1))%Z with (2 * 2 ^ attempt)%Z; [lia|].
        rewrite Z.pow_add_r by lia. lia.
    + injection Hrun as <- <-. cbn [doneCalls elapsed].
      split_and!; [lia|lia|lia|]. intros _.
      replace (S (doneCalls st) - doneCalls st)%nat with 1%nat by lia.
      replace (attempt + Z.of_nat 1 - 1)%Z with attempt by lia. lia.
Qed.

End UploadBackoff.

(** X12. The time an upload spends waiting between attempts.  For a limit
    of at most 25 attempts, a call that made [k] attempts has waited for
    exactly [100 * (2^k - 2)] milliseconds in all (nothing when it made one
    attempt or none), whether it ends with a URL or with an error; this is
    at most [100 * (2^maxRetries - 2)], and at most 3 seconds with the
    default of 5 attempts. *)
Theorem uploadToS3_backoff_total
    (env : S3Utils.s3Env) (data : Buffer) (mimeType bucketName : jsstring)
    (fileNamePrefix : option jsstring) (maxRetries : option Z)
    (publicDomain : option jsstring) (res : jsError + jsstring)
    (st : S3Utils.s3State) :
  let limit := default 5%Z maxRetries in
  (limit ≤ 25)%Z →
  S3Utils.uploadToS3 env data mimeType bucketName fileNamePrefix maxRetries
    publicDomain S3Utils.initialState = (res, st) →
  let k := Z.of_nat (S3Utils.doneCalls st) in
  S3Utils.elapsed st = (if (k =? 0)%Z then 0 else 100 * (2 ^ k - 2))%Z
  ∧ (k ≤ Z.max 0 limit)%Z
  ∧ (S3Utils.elapsed st ≤ 100 * (2 ^ Z.max 1 limit - 2))%Z
  ∧ (maxRetries = None → (S3Utils.elapsed st ≤ 3000)%Z).
Proof.
  intros limit Hlimit Hrun k.
  unfold S3Utils.uploadToS3 in Hrun. fold limit in Hrun.
  destruct (S3Utils.getCredentials env) as [credentials|].
  2:{ injection Hrun as <- <-. subst k. cbn. split_and!; [done|lia| |lia].
      assert (2 ^ 1 ≤ 2 ^ Z.max 1 limit)%Z by (apply Z.pow_le_mono_r; lia). lia. }
  cbv zeta in Hrun. unfold mbind, M_bind in Hrun.
  match type of Hrun with
  | context [S3Utils.retryLoop env ?u limit _ _ _ _] => set (url := u) in Hrun
  end.
  destruct (retryLoop_run env url limit (Z.to_nat limit) 1%Z None
              S3Utils.initialState) as (r & st1 & n & Hloop & Hout);
    [f_equal; lia|].
  pose proof (retryLoop_elapsed env url limit Hlimit (Z.to_nat limit) 1%Z None
                S3Utils.initialState (inr r) st1) as Hel.
  destruct Hel as (_ & _ & Hsame & Hmore); [lia|f_equal; lia|exact Hloop|].
  rewrite Hloop in Hrun.
  destruct Hout as (Hcalls & Hle & _).
  cbn [S3Utils.initialState S3Utils.doneCalls S3Utils.elapsed] in *.
  assert (st = st1) as ->.
  { destruct r; unfold mret, M_ret, throw in Hrun; congruence. }
  assert (S3Utils.elapsed st1 = (if (k =? 0)%Z then 0 else 100 * (2 ^ k - 2))%Z) as Hk.
  { subst k. destruct (S3Utils.doneCalls st1) as [|m] eqn:Hm.
    - by rewrite Hsame.
    - rewrite Hmore by lia. rewrite Nat.sub_0_r.
      replace (Z.of_nat (S m) =? 0)%Z with false by (symmetry; apply Z.eqb_neq; lia).
      replace (1 + Z.of_nat (S m) - 1)%Z with (Z.of_nat (S m)) by lia. done. }
  assert (k ≤ Z.max 0 limit)%Z as Hkl.
  { subst k. rewrite Hcalls. clear -Hle. lia. }
  assert (S3Utils.elapsed st1 ≤ 100 * (2 ^ Z.max 1 limit - 2))%Z as Hbound.
  { rewrite Hk. destruct (Z.eqb_spec k 0).
    - assert (2 ^ 1 ≤ 2 ^ Z.max 1 limit)%Z by (apply Z.pow_le_mono_r; lia). lia.
    - assert (2 ^ k ≤ 2 ^ Z.max 1 limit)%Z by (apply Z.pow_le_mono_r; lia). lia. }
  split_and!; [done|done|done|].
  intros Hnone. subst limit. rewrite Hnone in Hbound.
  change (100 * (2 ^ Z.max 1 (default 5 None) - 2))%Z with 3000%Z in Hbound.
  exact Hbound.
Qed.

(** The upload that gives up after five attempts has waited 3 seconds. *)
Lemma uploadToS3_backoff_total_witness :
  ∃ res st,
    S3Utils.uploadToS3
      (failingUpload {| code := Some (js "EAI_AGAIN"); name := Some (js "Error");
                        message := Some (js "getaddrinfo EAI_AGAIN s3") |})
      [] (js "video/mp4") (js "b") (Some (js "veo")) None None
      S3Utils.initialState = (res, st)
    ∧ S3Utils.doneCalls st = 5%nat
    ∧ S3Utils.elapsed st = 3000%Z.
Proof.
  eexists _, _. split; [vm_compute; reflexivity|]. split; [reflexivity|].
  refine (proj1
    (uploadToS3_backoff_total
       (failingUpload {| code := Some (js "EAI_AGAIN"); name := Some (js "Error");
                         message := Some (js "getaddrinfo EAI_AGAIN s3") |})
       [] (js "video/mp4") (js "b") (Some (js "veo")) None None _ _ _ _)).
  - vm_compute. discriminate.
  - vm_compute. reflexivity.
Defined.

(** ** The file name reported for an uploaded object *)

Section ReportedFileName.
Import S3Utils.

Lemma splitGo_nonempty sep s : ∀ skip cur, splitGo sep skip cur s ≠ [].
Proof.
  induction s as [|c s IH]; intros skip cur; [done|].
  cbn [splitGo]. destruct skip; [|apply IH].
  destruct (startsWith sep (c :: s)); [done|apply IH].
Qed.

Lemma last_cons_nonempty {A} (x : A) l : l ≠ [] → last (x :: l) = last l.
Proof. by destruct l. Qed.

Lemma includes_slash s :
  Forall (λ c, c ≠ 0x2F) s → includes (js "/") s = false.
Proof.
  induction 1 as [|c s Hc _ IH]; [done|].
  cbn [includes]. rewrite IH, orb_false_r.
  change (js "/") with [0x2F]. cbn [startsWith].
  apply N.eqb_neq in Hc. rewrite N.eqb_sym in Hc. by rewrite Hc.
Qed.

(** The last piece of [dir/name] is [name]. *)
Lemma last_split_slash dir name :
  Forall (λ c, c ≠ 0x2F) name →
  last (split (js "/") (dir ++ js "/" ++ name)) = Some name.
Proof.
  intros Hname. unfold split.
  enough (∀ cur, last (splitGo (js "/") 0 cur (dir ++ js "/" ++ name)) = Some name)
    as H by apply H.
  induction dir as [|c dir IH]; intros cur.
  - cbn [app]. rewrite splitGo_separator by done.
    by rewrite splitGo_no_separator by by apply includes_slash.
  - change ((c :: dir) ++ js "/" ++ name) with (c :: (dir ++ js "/" ++ name)).
    rewrite splitGo_step. destruct (startsWith _ _); [|apply IH].
    rewrite last_cons_nonempty by apply splitGo_nonempty. apply IH.
Qed.

(** Every form of the public URL ends with [/] and the object key. *)
Lemma publicUrl_key publicDomain endpoint forcePathStyle region bucketName key :
  ∃ base,
    publicUrl publicDomain endpoint forcePathStyle region bucketName key
    = base ++ js "/" ++ key.
Proof.
  unfold publicUrl. destruct (truthy publicDomain && _).
  - by exists (stripTrailingSlash (interp publicDomain)).
  - destruct (truthy endpoint).
    + destruct forcePathStyle; cbv zeta.
      * exists (stripTrailingSlash (interp endpoint) ++ js "/" ++ bucketName).
        by rewrite <- !app_assoc.
      * exists (interp (split (js "://") (stripTrailingSlash (interp endpoint)) !! 0%nat)
                ++ js "://" ++ bucketName ++ js "."
                ++ interp (split (js "://") (stripTrailingSlash (interp endpoint)) !! 1%nat)).
        by rewrite <- !app_assoc.
    + exists (js "https://" ++ bucketName ++ js ".s3." ++ region ++ js ".amazonaws.com").
      by rewrite <- !app_assoc.
Qed.

End ReportedFileName.

(** X13. The [fileName] that [execute] reports for an uploaded object
    ([s3Url.split('/').pop()]) is the object key without its folder: for a
    successful upload with the prefix [<folder>/<stem>], where neither the
    stem, the generated identifier nor the file extension holds a slash, it
    is [<stem>_<ulid>.<extension>], whatever the form of the URL (public
    domain, custom endpoint or the default). *)
Theorem uploadToS3_reported_fileName
    (env : S3Utils.s3Env) (data : Buffer) (mimeType bucketName : jsstring)
    (folder stem : jsstring) (maxRetries : option Z)
    (publicDomain : option jsstring) (st0 st : S3Utils.s3State) (url : jsstring) :
  S3Utils.uploadToS3 env data mimeType bucketName (Some (folder ++ js "/" ++ stem))
    maxRetries publicDomain st0 = (inr url, st) →
  Forall (λ c, c ≠ 0x2F) stem →
  Forall (λ c, c ≠ 0x2F) (S3Utils.ulid env) →
  (∀ extension, S3Utils.getExtension env mimeType = Some extension →
                Forall (λ c, c ≠ 0x2F) extension) →
  let extension :=
    match S3Utils.getExtension env mimeType with
    | Some (c :: e) => c :: e
    | _ => js "bin"
    end in
  let name := stem ++ js "_" ++ S3Utils.ulid env ++ js "." ++ extension in
  S3Utils.fileName env mimeType (Some (folder ++ js "/" ++ stem))
  = folder ++ js "/" ++ name
  ∧ last (split (js "/") url) = Some name.
Proof.
  intros Hrun Hstem Hulid Hext extension name.
  destruct (uploadToS3_returns_publicUrl _ _ _ _ _ _ _ _ _ _ Hrun)
    as (credentials & _ & ->).
  assert (S3Utils.fileName env mimeType (Some (folder ++ js "/" ++ stem))
          = folder ++ js "/" ++ name) as Hkey.
  { unfold S3Utils.fileName. cbn [default from_option id]. cbv zeta.
    subst name extension. rewrite <- !app_assoc.
    by destruct (S3Utils.getExtension env mimeType) as [[|c e]|]. }
  split; [exact Hkey|].
  destruct (publicUrl_key publicDomain (S3Utils.endpoint credentials)
              (S3Utils.forcePathStyle credentials) (S3Utils.regionOf credentials)
              bucketName (S3Utils.fileName env mimeType (Some (folder ++ js "/" ++ stem))))
    as [base ->].
  rewrite Hkey.
  replace (base ++ js "/" ++ folder ++ js "/" ++ name)
    with ((base ++ js "/" ++ folder) ++ js "/" ++ name) by by rewrite <- !app_assoc.
  apply last_split_slash. subst name.
  repeat (apply Forall_app; split); [done|by repeat constructor|done|by repeat constructor|].
  subst extension.
  destruct (S3Utils.getExtension env mimeType) as [[|c e]|] eqn:Hget;
    [by repeat constructor|by apply Hext|by repeat constructor].
Qed.

(** The video uploaded as [generateVideo/veo_01J...] is reported as
    [veo_01J..._<ulid>.mp4]. *)
Lemma uploadToS3_reported_fileName_witness :
  ∃ url st,
    S3Utils.uploadToS3 flakyUpload [] (js "video/mp4") (js "b")
      (Some (js "generateVideo" ++ js "/" ++ js "veo_01J1"))
      (Some 5%Z) (Some (js "https://cdn.example.com/")) S3Utils.initialState
    = (inr url, st)
    ∧ url = js "https://cdn.example.com/generateVideo/veo_01J1_01J0000000000000000000000A.mp4"
    ∧ last (split (js "/") url) = Some (js "veo_01J1_01J0000000000000000000000A.mp4").
Proof.
  eexists _, _. split; [vm_compute; reflexivity|]. split; [reflexivity|].
  refine (proj2
    (uploadToS3_reported_fileName flakyUpload [] (js "video/mp4") (js "b")
       (js "generateVideo") (js "veo_01J1") (Some 5%Z)
       (Some (js "https://cdn.example.com/")) S3Utils.initialState _ _ _ _ _ _)).
  - vm_compute. reflexivity.
  - apply (bool_decide_unpack _). vm_compute. reflexivity.
  - apply (bool_decide_unpack _). vm_compute. reflexivity.
  - intros extension [= <-]. apply (bool_decide_unpack _). vm_compute. reflexivity.
Defined.

(** ** [execute]: the returned list *)

Section ReturnData.
Import Gemini.
Context {R : Type}.

(** What one item contributes to [returnData]: the results its [try]
    block pushed, or the record of its failure. *)
Definition itemEntries (i : nat) (outcome : jsError + list R)
  : list (executionData R) :=
  match outcome with
  | inr pushed => ResultItem <$> pushed
  | inl error => [ErrorItem (sanitizedMessage error) i]
  end.

Lemma executeFrom_all (continueOnFail : bool) (outcomes : list (jsError + list R)) :
  ∀ i returnData,
    continueOnFail = true ∨ Forall (λ o, ∃ pushed, o = inr pushed) outcomes →
    executeFrom continueOnFail outcomes i returnData
    = inr (returnData ++ concat (imap (λ k, itemEntries (i + k)) outcomes)).
Proof.
  induction outcomes as [|[error|pushed] rest IH]; intros i returnData Hok.
  - cbn. by rewrite app_nil_r.
  - destruct Hok as [->|Hall].
    + cbn [executeFrom]. rewrite IH by by left.
      cbn [imap concat itemEntries]. rewrite Nat.add_0_r, <- app_assoc. cbn [app].
      f_equal. f_equal. f_equal. f_equal. apply imap_ext. intros k o _. cbn. f_equal. lia.
    + inversion Hall as [|? ? [pushed Hp] ?]. discriminate Hp.
  - cbn [executeFrom]. rewrite IH.
    + cbn [imap concat itemEntries]. rewrite <- app_assoc.
      f_equal. f_equal. f_equal. f_equal. apply imap_ext. intros k o _. cbn. f_equal. lia.
    + destruct Hok as [->|Hall]; [by left|right]. by inversion Hall.
Qed.

End ReturnData.

(** X14. With continue-on-fail switched on, [execute] never throws: it
    returns, item after item in the order of the input, the results the
    item produced or, for an item that failed, one entry that carries the
    sanitized message of its error and the index of the item; the items
    after a failed one are still processed.  When no item fails the same
    list is returned whatever the setting. *)
Theorem execute_returns_in_order :
  ∀ (R : Type) (outcomes : list (jsError + list R)),
    Gemini.execute true outcomes
    = inr (concat (imap itemEntries outcomes))
    ∧ (∀ continueOnFail,
         Forall (λ o, ∃ pushed, o = inr pushed) outcomes →
         Gemini.execute continueOnFail outcomes
         = inr (concat (imap itemEntries outcomes)))
    ∧ (∀ items k error,
         Gemini.execute true outcomes = inr items →
         outcomes !! k = Some (inl error) →
         ∃ before after,
           items = before ++ Gemini.ErrorItem (Gemini.sanitizedMessage error) k :: after
           ∧ before = concat (imap itemEntries (take k outcomes))).
Proof.
  intros R outcomes.
  assert (∀ c, c = true ∨ Forall (λ o, ∃ pushed, o = inr pushed) outcomes →
               Gemini.execute c outcomes = inr (concat (imap itemEntries outcomes)))
    as Hall.
  { intros c Hc. unfold Gemini.execute. by rewrite executeFrom_all. }
  split_and!.
  - apply Hall. by left.
  - intros c Hok. apply Hall. by right.
  - intros items k error Hrun Hk. rewrite Hall in Hrun by by left.
    injection Hrun as <-.
    exists (concat (imap itemEntries (take k outcomes))),
      (concat (imap (λ j, itemEntries (S k + j)) (drop (S k) outcomes))).
    split; [|done].
    pose proof (take_drop_middle outcomes k (inl error) Hk) as Hsplit.
    rewrite <- Hsplit at 1.
    rewrite imap_app, concat_app. cbn [imap concat itemEntries].
    rewrite length_take_le by (apply lookup_lt_Some in Hk; lia).
    rewrite Nat.add_0_r. cbn [app]. f_equal. f_equal. f_equal.
    apply imap_ext. intros j o _. cbn. f_equal. lia.
Qed.

(** ** generateImage: the text of the item and failed uploads *)

Section ImageText.
Import Gemini.

Variable env : imageEnv.
Variable p : imageParams.

(** The text a part contributes: none when it carries inline data, its
    [text] otherwise. *)
Definition partTextOf (part : part) : option jsstring :=
  match partInlineData part with
  | Some _ => None
  | None => if truthy (partText part) then partText part else None
  end.

(** The text of the model response: that of the parts of its first
    candidate, in order. *)
Definition responseText (response : generateContentResponse) : jsstring :=
  match candidates response with
  | Some (first :: _) =>
      match candidateContent first with
      | Some content => concat (omap partTextOf (default [] (parts content)))
      | None => []
      end
  | _ => []
  end.

Lemma collectParts_text parts :
  ∀ fileIndex generatedImages textResponse st generatedImages' textResponse' st',
    collectParts env p parts fileIndex generatedImages textResponse st
    = (inr (generatedImages', textResponse'), st') →
    textResponse' = textResponse ++ concat (omap partTextOf parts).
Proof.
  induction parts as [|part rest IH];
    intros fileIndex imgs text st imgs' text' st' Hrun.
  - cbn in Hrun. injection Hrun as _ <- _. by rewrite app_nil_r.
  - cbn [collectParts] in Hrun. cbn [omap list_omap]. unfold partTextOf at 1.
    destruct (partInlineData part) as [inline|].
    + cbv zeta in Hrun. destruct (ip_uploadToS3 p).
      * unfold mbind, M_bind in Hrun.
        destruct (callUploadToS3 env p fileIndex _ _ st) as [[e|s3Url] st1];
          [done|]. by apply IH in Hrun.
      * by apply IH in Hrun.
    + destruct (partText part) as [[|c t]|]; cbn [truthy] in *.
      * by apply IH in Hrun.
      * apply IH in Hrun. cbn [interp] in Hrun. rewrite Hrun.
        cbn [concat]. by rewrite <- app_assoc.
      * by apply IH in Hrun.
Qed.

(** An upload that is started for a part either fails, and the loop with
    it, or adds its object to the bucket. *)
Lemma collectParts_s3_failure parts :
  ip_uploadToS3 p = true →
  ∀ fileIndex generatedImages textResponse st error st',
    collectParts env p parts fileIndex generatedImages textResponse st
    = (inl error, st') →
    ∃ k d urls,
      omap partInlineData parts !! k = Some d
      ∧ length urls = k
      ∧ (∀ j d', (j < k)%nat → omap partInlineData parts !! j = Some d' →
           ∃ url, urls !! j = Some url
                  ∧ uploadOutcome env p (fileIndex + j) d' = inr url)
      ∧ uploadOutcome env p (fileIndex + k) d = inl error
      ∧ st' = st ++ zip_with (uploadedObjectOf env p)
                      (take k (omap partInlineData parts)) urls.
Proof.
  intros Hs3. induction parts as [|part rest IH];
    intros fileIndex imgs text st error st' Hrun; [done|].
  cbn [collectParts omap list_omap] in *.
  destruct (partInlineData part) as [d|].
  - rewrite Hs3 in Hrun. cbv zeta in Hrun.
    unfold mbind, M_bind, callUploadToS3 in Hrun.
    fold (uploadOutcome env p fileIndex d) in Hrun.
    destruct (uploadOutcome env p fileIndex d) as [e|url] eqn:Hup.
    + injection Hrun as <- <-. exists 0%nat, d, [].
      rewrite Nat.add_0_r. cbn. rewrite app_nil_r.
      split_and!; [done|done|intros; lia|done|done].
    + apply IH in Hrun as (k & d' & urls & Hk & Hlen & Hbefore & Hfail & ->).
      exists (S k), d', (url :: urls). cbn [lookup list_lookup length take zip_with].
      rewrite <- app_assoc. split_and!; [done|by rewrite Hlen| | |done].
      * intros [|j] d'' Hj Hd''.
        -- cbn in Hd''. injection Hd'' as <-. exists url. by rewrite Nat.add_0_r.
        -- cbn in Hd''. destruct (Hbefore j d'') as (url' & Hu & Ho); [lia|done|].
           exists url'. split; [done|].
           by replace (fileIndex + S j)%nat with (S fileIndex + j)%nat by lia.
      * by replace (fileIndex + S k)%nat with (S fileIndex + k)%nat by lia.
  - destruct (truthy (partText part)); by apply IH in Hrun.
Qed.

(** The URL of an uploaded object is never the empty string. *)
Lemma uploadOutcome_nonempty k d url :
  uploadOutcome env p k d = inr url → url ≠ [].
Proof.
  unfold uploadOutcome. intros Hup.
  destruct (S3Utils.uploadToS3 _ _ _ _ _ _ _ _) as [r st1] eqn:Hrun.
  cbn [fst] in Hup. subst r.
  destruct (uploadToS3_returns_publicUrl _ _ _ _ _ _ _ _ _ _ Hrun)
    as (credentials & _ & ->).
  match goal with
  | |- S3Utils.publicUrl ?a ?b ?c ?d ?e ?f ≠ [] =>
      destruct (publicUrl_key a b c d e f) as [base ->]
  end.
  by destruct base.
Qed.

(** The item made of the images and the text collected from the parts. *)
Definition itemOf (i : nat) (generatedImages : list generatedImage)
    (textResponse : jsstring) : M imageState imageItem :=
  let s3Case := truthy (head generatedImages ≫= imageUrlOf) in
  let result :=
    {| text := textResponse;
       jsonModel := ip_model p;
       responseModalities := ip_responseModalities p;
       totalTokens := length textResponse;
       images :=
         if bool_decide (0 < length generatedImages)%nat && s3Case
         then Some (map (λ img, {| refUrl := imageUrlOf img;
                                   refFileName := imageFileNameOf img;
                                   refMimeType := imageMimeTypeOf img |})
                      generatedImages)
         else None;
       imageUrl :=
         if bool_decide (0 < length generatedImages)%nat && s3Case
         then head generatedImages ≫= imageUrlOf else None;
       metadata :=
         if bool_decide (0 < length generatedImages)%nat && negb s3Case
         then Some (head generatedImages ≫= imageMimeTypeOf,
                    head generatedImages ≫= imageFileNameOf)
         else None |} in
  if bool_decide (0 < length generatedImages)%nat && negb s3Case then
    match head generatedImages ≫= imageDataOf with
    | Some data =>
        mret {| json := result;
                binary := Some {| binData := bufferToBase64 env data;
                                  binMimeType := head generatedImages ≫= imageMimeTypeOf;
                                  binFileName := head generatedImages ≫= imageFileNameOf |};
                pairedItem := i |}
    | None =>
        throw (typeError (js "Cannot read properties of undefined (reading 'toString')"))
    end
  else mret {| json := result; binary := None; pairedItem := i |}.

(** What is collected from the response. *)
Definition collected (response : generateContentResponse)
  : M imageState (list generatedImage * jsstring) :=
  match candidates response with
  | None => mret ([], [])
  | Some [] =>
      throw (typeError (js "Cannot read properties of undefined (reading 'content')"))
  | Some (first :: _) =>
      match candidateContent first with
      | None => mret ([], [])
      | Some content =>
          collectParts env p (default [] (parts content)) 0 [] []
      end
  end.

Lemma imageResult_steps i response :
  imageResult env p i response
  = ('(generatedImages, textResponse) ← collected response;
     itemOf i generatedImages textResponse).
Proof. reflexivity. Qed.

Lemma itemOf_text i generatedImages textResponse st item st' :
  itemOf i generatedImages textResponse st = (inr item, st') →
  text (json item) = textResponse
  ∧ totalTokens (json item) = length textResponse
  ∧ jsonModel (json item) = ip_model p
  ∧ pairedItem item = i.
Proof.
  unfold itemOf. cbv zeta. destruct (bool_decide _ && negb _).
  - destruct (head generatedImages ≫= imageDataOf); [|done]. by intros [= <- _].
  - by intros [= <- _].
Qed.

End ImageText.

(** X15. The text of a generateImage item is the text of the parts of the
    first candidate that carry no inline data, concatenated in order (the
    text of a part that carries an image is not read), and [totalTokens] is
    the number of code units of that text; the item names the model as
    entered and is paired with the input item it was made for. *)
Theorem generateImage_result_text
    (env : Gemini.imageEnv) (p : Gemini.imageParams) (i : nat)
    (response : Gemini.generateContentResponse)
    (st st' : Gemini.imageState) (item : Gemini.imageItem) :
  Gemini.imageResult env p i response st = (inr item, st') →
  Gemini.text (Gemini.json item) = responseText response
  ∧ Gemini.totalTokens (Gemini.json item) = length (responseText response)
  ∧ Gemini.jsonModel (Gemini.json item) = Gemini.ip_model p
  ∧ Gemini.pairedItem item = i.
Proof.
  rewrite imageResult_steps. unfold mbind at 1, M_bind at 1.
  unfold collected, responseText. intros Hrun.
  destruct (Gemini.candidates response) as [[|first rest]|].
  - done.
  - destruct (Gemini.candidateContent first) as [content|].
    + destruct (Gemini.collectParts env p (default [] (Gemini.parts content)) 0 [] [] st)
        as [[e|[imgs text]] st1] eqn:Hcollect; [done|].
      apply collectParts_text in Hcollect. cbn [app] in Hcollect. subst text.
      by apply itemOf_text in Hrun.
    + by apply itemOf_text in Hrun.
  - by apply itemOf_text in Hrun.
Qed.

(** The item made of the response with a text part and two images. *)
Lemma generateImage_result_text_witness :
  ∃ item,
    Gemini.imageResult imageTestEnv (imageTestParams false) 7 twoImages []
    = (inr item, [])
    ∧ Gemini.text (Gemini.json item) = js "Here you go"
    ∧ Gemini.totalTokens (Gemini.json item) = 11%nat
    ∧ Gemini.pairedItem item = 7%nat.
Proof.
  eexists. split; [vm_compute; reflexivity|].
  destruct (generateImage_result_text imageTestEnv (imageTestParams false) 7 twoImages
              [] [] _ eq_refl) as (Ht & Hn & _ & Hi).
  split_and!; [exact Ht|exact Hn|exact Hi].
Defined.

(** An environment in which the upload of the second image is refused. *)
Definition secondUploadRefused : Gemini.imageEnv :=
  {| Gemini.saveBinaryToNodeData := Gemini.saveBinaryToNodeData imageTestEnv;
     Gemini.bufferFromBase64 := Gemini.bufferFromBase64 imageTestEnv;
     Gemini.bufferToBase64 := Gemini.bufferToBase64 imageTestEnv;
     Gemini.ulidAt := Gemini.ulidAt imageTestEnv;
     Gemini.s3EnvAt := λ k,
       {| S3Utils.getCredentials := S3Utils.getCredentials flakyUpload;
          S3Utils.getExtension := λ _, Some (js "png");
          S3Utils.ulid := js "01K" ++ showZ (Z.of_nat k);
          S3Utils.uploadDone := λ _,
            if decide (k = 1%nat)
            then Some {| code := Some (js "AccessDenied");
                         name := Some (js "AccessDenied");
                         message := Some (js "Access Denied") |}
            else None |} |}.

Example twoImages_second_refused :
  Gemini.imageResult secondUploadRefused (imageTestParams true) 0 twoImages []
  = (inl (nodeOperationError (js "Failed to upload to S3 after 5 attempts: Access Denied")),
     [ {| Gemini.upBody := js "AAAA"; Gemini.upContentType := js "image/png";
          Gemini.upBucket := js "b";
          Gemini.upUrl :=
            js "https://b.s3.us-east-1.amazonaws.com/generateImage/gemini_01J0_0_01K0.png" |} ]).
Proof. vm_compute. reflexivity. Qed.

(** X16. A generateImage item with S3 upload switched on fails only in two
    ways: the response has an empty [candidates] array (a [TypeError],
    nothing is uploaded), or the upload of one of its images fails.  In the
    second case the error of the item is the error of that upload, the
    images after it are not uploaded, and the images before it stay in the
    bucket although no item is returned for them: nothing is rolled back.
    (A successful upload never yields an empty URL, so the S3 case is always
    recognised when the result is assembled.) *)
Theorem generateImage_failed_upload
    (env : Gemini.imageEnv) (p : Gemini.imageParams) (i : nat)
    (response : Gemini.generateContentResponse)
    (st st' : Gemini.imageState) (error : jsError) :
  Gemini.ip_uploadToS3 p = true →
  Gemini.imageResult env p i response st = (inl error, st') →
  (Gemini.candidates response = Some [] ∧ st' = st
   ∧ error = Gemini.typeError
               (js "Cannot read properties of undefined (reading 'content')"))
  ∨ ∃ k d urls,
      inlineImages response !! k = Some d
      ∧ length urls = k
      ∧ (∀ j d', (j < k)%nat → inlineImages response !! j = Some d' →
           ∃ url, urls !! j = Some url ∧ url ≠ []
                  ∧ uploadOutcome env p j d' = inr url)
      ∧ uploadOutcome env p k d = inl error
      ∧ st' = st ++ zip_with (uploadedObjectOf env p)
                      (take k (inlineImages response)) urls.
Proof.
  intros Hs3. rewrite imageResult_steps. unfold mbind at 1, M_bind at 1.
  unfold collected, inlineImages. intros Hrun.
  assert (∀ st1, itemOf env p i [] [] st1 ≠ (inl error, st')) as Hempty.
  { intros st1. unfold itemOf. cbv zeta. by cbn. }
  destruct (Gemini.candidates response) as [[|first rest]|].
  - left. unfold throw in Hrun. by injection Hrun as <- <-.
  - right. destruct (Gemini.candidateContent first) as [content|];
      [|by apply Hempty in Hrun].
    destruct (Gemini.collectParts env p (default [] (Gemini.parts content)) 0 [] [] st)
      as [[e|[imgs text]] st1] eqn:Hcollect.
    + injection Hrun as <- <-.
      apply (collectParts_s3_failure env p _ Hs3) in Hcollect
        as (k & d & urls & Hk & Hlen & Hbefore & Hfail & ->).
      exists k, d, urls. split_and!; [done|done| |done|done].
      intros j d' Hj Hd'. destruct (Hbefore j d' Hj Hd') as (url & Hu & Ho).
      exists url. split_and!; [done| |done]. by eapply uploadOutcome_nonempty.
    + exfalso.
      apply (collectParts_s3 env p _ Hs3) in Hcollect
        as (urls & Hlen & -> & -> & Hall).
      cbn [app] in Hrun. unfold itemOf in Hrun. cbv zeta in Hrun.
      destruct (omap Gemini.partInlineData (default [] (Gemini.parts content)))
        as [|d ds] eqn:Hds.
      * destruct urls; [|done]. cbn in Hrun. discriminate Hrun.
      * destruct urls as [|url urls]; [done|].
        destruct (Hall 0%nat d eq_refl) as (url' & [= <-] & Ho).
        apply uploadOutcome_nonempty in Ho.
        destruct url as [|c url]; [done|].
        cbn [zip_with head mbind option_bind Gemini.imageUrlOf uploadedImageOf
             truthy negb] in Hrun.
        rewrite andb_false_r in Hrun. discriminate Hrun.
  - by apply Hempty in Hrun.
Qed.

(** The second of two uploads is refused: the first image stays in the
    bucket. *)
Lemma generateImage_failed_upload_witness :
  ∃ k d urls,
    inlineImages twoImages !! k = Some d
    ∧ length urls = k
    ∧ uploadOutcome secondUploadRefused (imageTestParams true) k d
      = inl (nodeOperationError (js "Failed to upload to S3 after 5 attempts: Access Denied"))
    ∧ [ {| Gemini.upBody := js "AAAA"; Gemini.upContentType := js "image/png";
           Gemini.upBucket := js "b";
           Gemini.upUrl :=
             js "https://b.s3.us-east-1.amazonaws.com/generateImage/gemini_01J0_0_01K0.png" |} ]
      = [] ++ zip_with (uploadedObjectOf secondUploadRefused (imageTestParams true))
                (take k (inlineImages twoImages)) urls.
Proof.
  assert (Gemini.imageResult secondUploadRefused (imageTestParams true) 0 twoImages []
          = (inl (nodeOperationError
                    (js "Failed to upload to S3 after 5 attempts: Access Denied")),
             [ {| Gemini.upBody := js "AAAA"; Gemini.upContentType := js "image/png";
                  Gemini.upBucket := js "b";
                  Gemini.upUrl :=
                    js "https://b.s3.us-east-1.amazonaws.com/generateImage/gemini_01J0_0_01K0.png" |} ]))
    as Hrun by (vm_compute; reflexivity).
  destruct (generateImage_failed_upload secondUploadRefused (imageTestParams true) 0
              twoImages [] _ _ eq_refl Hrun)
    as [(Habs & _)|(k & d & urls & Hk & Hlen & _ & Hfail & Hst)].
  - discriminate Habs.
  - exists k, d, urls. split_and!; [exact Hk|exact Hlen|exact Hfail|exact Hst].
Defined.

(** ** generateLivePhoto: the request *)

(** A live photo of [https://img.example/a.png], and a machine with and
    without ffmpeg. *)
Definition livePhotoOf (endFrameUrl prompt : jsstring) : Gemini.livePhotoParams :=
  {| Gemini.lp_livePhotoModel := js "veo-3.1-fast-generate-preview";
     Gemini.lp_livePhotoImageUrl := js "https://img.example/a.png";
     Gemini.lp_livePhotoEndFrameUrl := endFrameUrl;
     Gemini.lp_livePhotoPrompt := prompt;
     Gemini.lp_livePhotoAspectRatio := js "9:16" |}.

Definition withFfmpeg : VideoUtils.ffmpegEnv :=
  {| VideoUtils.execVersion := None;
     VideoUtils.ffmpegRun := λ command input, inr input |}.

Definition withoutFfmpeg : VideoUtils.ffmpegEnv :=
  {| VideoUtils.execVersion :=
       Some {| code := Some (js "127"); name := Some (js "Error");
               message := Some (js "Command failed: ffmpeg -version") |};
     VideoUtils.ffmpegRun := λ command input,
       inl {| code := Some (js "127"); name := Some (js "Error");
              message := Some (js "Command failed: ffmpeg") |} |}.

Example livePhoto_without_ffmpeg :
  Gemini.submitLivePhotoRequest withoutFfmpeg patchyNetwork (livePhotoOf [] []) []
  = (inl (nodeOperationError
            (js "ffmpeg is required for Live Photo generation but is not available on this system. Please install ffmpeg.")),
     []).
Proof. vm_compute. reflexivity. Qed.

Example livePhoto_default_prompt :
  ∃ pl,
    Gemini.buildLivePhotoRequest withFfmpeg patchyNetwork (livePhotoOf (js " ") (js "  ")) []
    = (inr (pl, None), [Gemini.EvFetchImage (js "https://img.example/a.png")])
    ∧ Gemini.prompt pl = Some Gemini.defaultPrompt
    ∧ VideoUtils.durationSeconds (Gemini.config pl) = Some (Some 4%Z)
    ∧ VideoUtils.lastFrame (Gemini.config pl) = None.
Proof. eexists. vm_compute. done. Qed.

(** X17. Live photo requests.  Without ffmpeg the branch ends at once with
    ["ffmpeg is required for Live Photo generation ..."]: no image is
    downloaded and nothing is submitted.  With ffmpeg, the image URL is
    downloaded (a blank one is refused with ["Image URL cannot be empty"]),
    then the end frame URL when it is not blank.  The request that is built
    always has a prompt, the entered one trimmed or the default prompt when
    that is blank, the downloaded image, resolution [720p], one video and
    person generation [allow_adult]; it asks for 8 seconds and carries the
    end frame as last frame when an end frame URL was given, and asks for 4
    seconds without last frame otherwise. *)
Theorem buildLivePhotoRequest_shape
    (tool : VideoUtils.ffmpegEnv) (env : Gemini.requestEnv)
    (p : Gemini.livePhotoParams) (st : Gemini.requestState) :
  let imageUrl := Gemini.lp_livePhotoImageUrl p in
  let endUrl := Gemini.lp_livePhotoEndFrameUrl p in
  (VideoUtils.checkFfmpegAvailable tool = false →
   Gemini.submitLivePhotoRequest tool env p st
   = (inl (nodeOperationError
             (js "ffmpeg is required for Live Photo generation but is not available on this system. Please install ffmpeg.")),
      st))
  ∧ (VideoUtils.checkFfmpegAvailable tool = true → trim imageUrl = [] →
     Gemini.submitLivePhotoRequest tool env p st
     = (inl (nodeOperationError (js "Image URL cannot be empty")), st))
  ∧ (VideoUtils.checkFfmpegAvailable tool = true →
     ∀ pl endFrame st',
       Gemini.buildLivePhotoRequest tool env p st = (inr (pl, endFrame), st') →
       Gemini.model pl = Gemini.lp_livePhotoModel p
       ∧ Gemini.prompt pl
         = Some (match trim (Gemini.lp_livePhotoPrompt p) with
                 | [] => Gemini.defaultPrompt
                 | c :: t => c :: t
                 end)
       ∧ Gemini.negativePrompt pl = None
       ∧ Gemini.video pl = None
       ∧ (∃ r, Gemini.urlToBase64WithMimeType env imageUrl = inr r
               ∧ Gemini.image pl = Some (imageOfDownload r))
       ∧ VideoUtils.numberOfVideos (Gemini.config pl) = 1%Z
       ∧ VideoUtils.resolution (Gemini.config pl) = js "720p"
       ∧ VideoUtils.aspectRatio (Gemini.config pl)
         = Some (Gemini.lp_livePhotoAspectRatio p)
       ∧ VideoUtils.personGeneration (Gemini.config pl) = Some (js "allow_adult")
       ∧ VideoUtils.referenceImages (Gemini.config pl) = None
       ∧ VideoUtils.lastFrame (Gemini.config pl) = endFrame
       ∧ match trim endUrl with
         | [] =>
             endFrame = None
             ∧ VideoUtils.durationSeconds (Gemini.config pl) = Some (Some 4%Z)
             ∧ st' = Gemini.EvFetchImage imageUrl :: st
         | _ :: _ =>
             (∃ r, Gemini.urlToBase64WithMimeType env endUrl = inr r
                   ∧ endFrame = Some (imageOfDownload r))
             ∧ VideoUtils.durationSeconds (Gemini.config pl) = Some (Some 8%Z)
             ∧ st' = Gemini.EvFetchImage endUrl :: Gemini.EvFetchImage imageUrl :: st
         end).
Proof.
  intros imageUrl endUrl. split_and!.
  - intros Hff. unfold Gemini.submitLivePhotoRequest, Gemini.buildLivePhotoRequest.
    cbv zeta. rewrite Hff. reflexivity.
  - intros Hff Himg. unfold Gemini.submitLivePhotoRequest, Gemini.buildLivePhotoRequest.
    cbv zeta. rewrite Hff. cbn [negb]. fold imageUrl.
    unfold mbind, M_bind. apply blank_trim in Himg.
    by rewrite fetchImageForVideo_blank.
  - intros Hff pl endFrame st'. unfold Gemini.buildLivePhotoRequest.
    cbv zeta. rewrite Hff. cbn [negb]. fold imageUrl endUrl.
    unfold mbind at 1, M_bind at 1.
    destruct (VideoUtils.blank imageUrl) eqn:Himg.
    { by rewrite fetchImageForVideo_blank. }
    rewrite fetchImageForVideo_run by done.
    destruct (Gemini.urlToBase64WithMimeType env imageUrl) as [e|first] eqn:Hfirst;
      [done|].
    unfold mbind at 1, M_bind at 1.
    assert (Gemini.prompt
              {| Gemini.model := Gemini.lp_livePhotoModel p;
                 Gemini.config := VideoUtils.buildVideoConfig [] None None;
                 Gemini.prompt :=
                   Some (if negb (VideoUtils.blank (Gemini.lp_livePhotoPrompt p))
                         then trim (Gemini.lp_livePhotoPrompt p)
                         else Gemini.defaultPrompt);
                 Gemini.negativePrompt := None; Gemini.image := None;
                 Gemini.video := None |}
            = Some (match trim (Gemini.lp_livePhotoPrompt p) with
                    | [] => Gemini.defaultPrompt
                    | c :: t => c :: t
                    end)) as Hprompt.
    { cbn [Gemini.prompt].
      destruct (VideoUtils.blank (Gemini.lp_livePhotoPrompt p)) eqn:Hb.
      - apply blank_trim in Hb. by rewrite Hb.
      - apply blank_false_trim in Hb. cbn [negb].
        by destruct (trim (Gemini.lp_livePhotoPrompt p)). }
    cbn [Gemini.prompt] in Hprompt.
    destruct (VideoUtils.blank endUrl) eqn:Hend.
    + cbn [negb]. unfold mret, M_ret. intros [= <- <- <-].
      apply blank_trim in Hend. rewrite Hend.
      cbn [Gemini.model Gemini.prompt Gemini.negativePrompt Gemini.video Gemini.image
           Gemini.config VideoUtils.numberOfVideos VideoUtils.resolution
           VideoUtils.aspectRatio VideoUtils.personGeneration
           VideoUtils.referenceImages VideoUtils.lastFrame VideoUtils.durationSeconds].
      split_and!; try done. by exists first.
    + cbn [negb]. unfold mbind, M_bind. rewrite fetchImageForVideo_run by done.
      apply blank_false_trim in Hend.
      destruct (Gemini.urlToBase64WithMimeType env endUrl) as [e|last] eqn:Hlast;
        [done|].
      unfold mret, M_ret. intros [= <- <- <-].
      destruct (trim endUrl) as [|c t]; [done|].
      cbn [Gemini.model Gemini.prompt Gemini.negativePrompt Gemini.video Gemini.image
           Gemini.config VideoUtils.numberOfVideos VideoUtils.resolution
           VideoUtils.aspectRatio VideoUtils.personGeneration
           VideoUtils.referenceImages VideoUtils.lastFrame VideoUtils.durationSeconds].
      split_and!; try done; [by exists first|by exists last].
Qed.

(** ** generateVideo: what is uploaded and reported *)

Section Delivery.
Import Gemini.

(** [removeAudioFromVideo] in one equation. *)
Lemma removeAudioFromVideo_run (env : VideoUtils.fsEnv) (videoBuffer : Buffer)
    (fs : VideoUtils.fsState) :
  let inputPath := VideoUtils.tempPath env (js "input_") in
  let outputPath := VideoUtils.tempPath env (js "output_") in
  VideoUtils.removeAudioFromVideo env videoBuffer fs
  = (inr (match VideoUtils.ffmpegStripAudio env videoBuffer with
          | Some out =>
              if VideoUtils.writable env inputPath
              then (out, true) else (videoBuffer, false)
          | None => (videoBuffer, false)
          end),
     delete outputPath (delete inputPath fs)).
Proof.
  intros inputPath outputPath.
  pose proof (tempPath_input_output env) as Hne. fold inputPath outputPath in Hne.
  unfold VideoUtils.removeAudioFromVideo. fold inputPath outputPath.
  unfold tryCatch at 1.
  unfold mbind at 1, M_bind at 1. unfold VideoUtils.writeFile.
  destruct (VideoUtils.writable env inputPath).
  - unfold mbind at 1, M_bind at 1. unfold VideoUtils.execFfmpegCopyNoAudio.
    rewrite lookup_insert_eq. cbn [mbind option_bind].
    destruct (VideoUtils.ffmpegStripAudio env videoBuffer) as [out|].
    + unfold mbind at 1, M_bind at 1. unfold VideoUtils.readFile.
      rewrite lookup_insert_eq.
      unfold mbind, M_bind, tryCatch, VideoUtils.unlink.
      rewrite lookup_insert_ne, lookup_insert_eq by done.
      rewrite lookup_delete_ne, lookup_insert_eq by done.
      unfold mret, M_ret.
      rewrite delete_insert_ne, delete_insert_eq by done.
      by rewrite delete_insert_eq.
    + unfold mbind at 1, M_bind at 1. rewrite cleanup_ignored.
      unfold mret, M_ret. by rewrite delete_insert_eq.
  - unfold mbind at 1, M_bind at 1. rewrite cleanup_ignored.
    unfold mret, M_ret. by destruct (VideoUtils.ffmpegStripAudio env videoBuffer).
Qed.

Variable env : deliveryEnv.
Variable p : videoParams.
Variable s3BucketName s3PublicDomain : jsstring.
Variable videoBuffer : Buffer.

(** The bytes ffmpeg made of the video, when the audio was to be removed
    and could be. *)
Definition strippedVideo : option Buffer :=
  if p_generateAudio p then None
  else if VideoUtils.writable (deliveryFiles env)
            (VideoUtils.tempPath (deliveryFiles env) (js "input_"))
       then VideoUtils.ffmpegStripAudio (deliveryFiles env) videoBuffer
       else None.

(** The bytes that are uploaded. *)
Definition deliveredVideo : Buffer := default videoBuffer strippedVideo.

(** The outcome of their upload. *)
Definition videoUpload : jsError + jsstring :=
  (S3Utils.uploadToS3 (deliveryS3 env) deliveredVideo (js "video/mp4")
     s3BucketName (Some (js "generateVideo" ++ js "/veo_" ++ deliveryUlid env))
     (Some 5%Z) (Some s3PublicDomain) S3Utils.initialState).1.

(** The temporary directory afterwards. *)
Definition tempFilesAfter (st : deliveryState) : gmap jsstring Buffer :=
  if p_generateAudio p then tempFiles st
  else delete (VideoUtils.tempPath (deliveryFiles env) (js "output_"))
         (delete (VideoUtils.tempPath (deliveryFiles env) (js "input_"))
            (tempFiles st)).

Lemma deliverVideo_run i videoObjectUri st :
  ∃ rest : jsstring → videoItem,
    deliverVideo env p s3BucketName s3PublicDomain i videoObjectUri videoBuffer st
    = match videoUpload with
      | inl error =>
          (inl error, {| tempFiles := tempFilesAfter st;
                         bucketObjects := bucketObjects st |})
      | inr s3Url =>
          (inr (rest s3Url),
           {| tempFiles := tempFilesAfter st;
              bucketObjects :=
                bucketObjects st
                ++ [{| upBody := deliveredVideo; upContentType := js "video/mp4";
                       upBucket := s3BucketName; upUrl := s3Url |}] |})
      end
    ∧ ∀ s3Url,
        let json := videoItemJson (rest s3Url) in
        vj_videoUrl json = s3Url
        ∧ vj_fileName json = last (split (js "/") s3Url)
        ∧ vj_geminiVideoUri json = videoObjectUri
        ∧ videoPairedItem (rest s3Url) = i
        ∧ vj_generateAudio json = p_generateAudio p
        ∧ vj_audioRemovalAttempted json
          = (if p_generateAudio p then None else Some true)
        ∧ vj_audioRemovalSuccess json
          = (if p_generateAudio p then None
             else Some (bool_decide (is_Some strippedVideo)))
        ∧ vj_audioRemovalNote json
          = (if p_generateAudio p then None
             else if bool_decide (is_Some strippedVideo) then None
                  else Some (js "ffmpeg not available or failed - video may contain audio")).
Proof.
  unfold deliverVideo. cbv zeta.
  unfold videoUpload, deliveredVideo, strippedVideo, tempFilesAfter.
  destruct (p_generateAudio p) eqn:Haudio; cbn [negb].
  - eexists (λ s3Url, {| videoItemJson := _; videoPairedItem := i |}). split.
    + unfold mbind, M_bind, mret, M_ret, callUploadVideoToS3.
      cbn [default from_option id].
      destruct (S3Utils.uploadToS3 _ _ _ _ _ _ _ _) as [[e|url] s]; cbn [fst];
        [by destruct st|reflexivity].
    + intros s3Url. cbn. done.
  - pose proof (removeAudioFromVideo_run (deliveryFiles env) videoBuffer (tempFiles st))
      as Hrm. cbv zeta in Hrm.
    destruct (VideoUtils.ffmpegStripAudio (deliveryFiles env) videoBuffer) as [out|];
      [destruct (VideoUtils.writable _ _)|destruct (VideoUtils.writable _ _)].
    all: eexists (λ s3Url, {| videoItemJson := _; videoPairedItem := i |}); split;
      [ unfold mbind, M_bind, mret, M_ret, callRemoveAudioFromVideo,
          callUploadVideoToS3;
        rewrite Hrm; cbn [default from_option id tempFiles bucketObjects];
        destruct (S3Utils.uploadToS3 _ _ _ _ _ _ _ _) as [[e|url] s]; cbn [fst];
        reflexivity
      | intros s3Url; cbn; done ].
Qed.

End Delivery.
(** A machine whose ffmpeg drops the first four bytes, and a video to
    deliver. *)
Definition strippingDelivery (ffmpegWorks : bool) : Gemini.deliveryEnv :=
  {| Gemini.deliveryFiles :=
       {| VideoUtils.dateNow := 1700000000000;
          VideoUtils.tmpdir := js "/tmp";
          VideoUtils.writable := λ _, true;
          VideoUtils.ffmpegStripAudio := λ input,
            if ffmpegWorks then Some (drop 4 input) else None |};
     Gemini.deliveryUlid := js "01J1";
     Gemini.deliveryS3 := flakyUpload |}.

Definition noDelivery : Gemini.deliveryState :=
  {| Gemini.tempFiles := ∅; Gemini.bucketObjects := [] |}.

Example deliverVideo_silent :
  ∃ item st,
    Gemini.deliverVideo (strippingDelivery true)
      (textToVideoParams (js "720p") (js "8")) (js "b") [] 0
      (Some (js "https://generativelanguage.googleapis.com/v1beta/files/x:download?alt=media"))
      (js "AUD:video") noDelivery
    = (inr item, st)
    ∧ Gemini.vj_fileName (Gemini.videoItemJson item)
      = Some (js "veo_01J1_01J0000000000000000000000A.mp4")
    ∧ Gemini.vj_audioRemovalAttempted (Gemini.videoItemJson item) = None
    ∧ Gemini.upBody <$> Gemini.bucketObjects st = [js "AUD:video"].
Proof. eexists _, _. vm_compute. done. Qed.

(** X18. What a generateVideo item uploads and reports.  With audio
    generation on, ffmpeg is not run, the temporary directory is not
    touched, the downloaded bytes are uploaded as they are and the result
    has no audio-removal member.  With audio generation off, the bytes
    uploaded are those ffmpeg produced when the audio could be removed and
    the downloaded bytes otherwise; [audioRemovalAttempted] is [true],
    [audioRemovalSuccess] tells which bytes were uploaded, and
    [audioRemovalNote] is present exactly when the removal failed.  One
    object is put in the bucket when the upload succeeds, and its URL is
    the [videoUrl] of the item; when the upload fails the item fails with
    the error of the upload and the bucket is unchanged. *)
Theorem deliverVideo_uploads
    (env : Gemini.deliveryEnv) (p : Gemini.videoParams)
    (s3BucketName s3PublicDomain : jsstring) (i : nat)
    (videoObjectUri : option jsstring) (videoBuffer : Buffer)
    (st : Gemini.deliveryState) :
  let stripped := strippedVideo env p videoBuffer in
  let delivered := default videoBuffer stripped in
  let upload := videoUpload env p s3BucketName s3PublicDomain videoBuffer in
  (Gemini.p_generateAudio p = true →
   stripped = None ∧ tempFilesAfter env p st = Gemini.tempFiles st)
  ∧ (∀ out, stripped = Some out ↔
       Gemini.p_generateAudio p = false
       ∧ VideoUtils.writable (Gemini.deliveryFiles env)
           (VideoUtils.tempPath (Gemini.deliveryFiles env) (js "input_")) = true
       ∧ VideoUtils.ffmpegStripAudio (Gemini.deliveryFiles env) videoBuffer = Some out)
  ∧ match Gemini.deliverVideo env p s3BucketName s3PublicDomain i videoObjectUri
            videoBuffer st with
    | (inl error, st') =>
        upload = inl error
        ∧ Gemini.bucketObjects st' = Gemini.bucketObjects st
        ∧ Gemini.tempFiles st' = tempFilesAfter env p st
    | (inr item, st') =>
        let json := Gemini.videoItemJson item in
        upload = inr (Gemini.vj_videoUrl json)
        ∧ Gemini.bucketObjects st'
          = Gemini.bucketObjects st
            ++ [{| Gemini.upBody := delivered;
                   Gemini.upContentType := js "video/mp4";
                   Gemini.upBucket := s3BucketName;
                   Gemini.upUrl := Gemini.vj_videoUrl json |}]
        ∧ Gemini.tempFiles st' = tempFilesAfter env p st
        ∧ Gemini.vj_fileName json = last (split (js "/") (Gemini.vj_videoUrl json))
        ∧ Gemini.vj_geminiVideoUri json = videoObjectUri
        ∧ Gemini.videoPairedItem item = i
        ∧ Gemini.vj_audioRemovalAttempted json
          = (if Gemini.p_generateAudio p then None else Some true)
        ∧ Gemini.vj_audioRemovalSuccess json
          = (if Gemini.p_generateAudio p then None
             else Some (bool_decide (is_Some stripped)))
        ∧ Gemini.vj_audioRemovalNote json
          = (if Gemini.p_generateAudio p then None
             else if bool_decide (is_Some stripped) then None
                  else Some (js "ffmpeg not available or failed - video may contain audio"))
    end.
Proof.
  intros stripped delivered upload. split_and!.
  - intros Haudio. subst stripped. unfold strippedVideo, tempFilesAfter.
    by rewrite Haudio.
  - intros out. subst stripped. unfold strippedVideo.
    destruct (Gemini.p_generateAudio p).
    { split; [done|]. by intros [? _]. }
    destruct (VideoUtils.writable _ _).
    + split; [by intros ->|]. by intros (_ & _ & ?).
    + split; [done|]. by intros (_ & ? & _).
  - destruct (deliverVideo_run env p s3BucketName s3PublicDomain videoBuffer i
                videoObjectUri st) as (rest & -> & Hrest).
    fold upload. destruct upload as [error|s3Url]; [done|].
    destruct (Hrest s3Url) as (Hurl & Hname & Huri & Hi & _ & Ha & Hs & Hn).
    cbv zeta. rewrite Hurl. cbn [Gemini.tempFiles Gemini.bucketObjects].
    split_and!; done.
Qed.

(** ** generateImage: the numbering of the input definitions *)

Section InputDefinitions.
Import Gemini.
Context {G : Type}.

Variable createGeminiPart : historyMessage → jsError + G.

Inductive definitionKind := TextDefinition | ImageDefinition.

#[local] Instance definitionKind_eq_dec : EqDecision definitionKind.
Proof. solve_decision. Defined.

(** Whether a message of the history gets an entry in the definitions, and
    of which kind: a text message with a text, or an image message, that
    has the role [user] and a definition that is not blank. *)
Definition definedAs (message : historyMessage) : option definitionKind :=
  if bool_decide (hm_contentType message = js "text") && truthy (hm_text message)
  then if hasDefinition message then Some TextDefinition else None
  else if bool_decide (hm_contentType message = js "imageUrl")
          || bool_decide (hm_contentType message = js "imageBase64")
  then if hasDefinition message then Some ImageDefinition else None
  else None.

Definition keyOf (kind : definitionKind) (n : nat) : jsstring :=
  match kind with
  | TextDefinition => js "[TEXT_" ++ showZ (Z.of_nat n) ++ js "]"
  | ImageDefinition => js "[IMAGE_" ++ showZ (Z.of_nat n) ++ js "]"
  end.

(** The number of messages of a list that get an entry of a kind, or any
    entry. *)
Definition countKind (kind : definitionKind) (messages : list historyMessage) : nat :=
  length (List.filter (λ m, bool_decide (definedAs m = Some kind)) messages).

Definition countDefined (messages : list historyMessage) : nat :=
  length (List.filter (λ m, bool_decide (is_Some (definedAs m))) messages).

Definition counterOf (kind : definitionKind) (st : historyState G) : nat :=
  match kind with
  | TextDefinition => hsTextCount st
  | ImageDefinition => hsImageCount st
  end.

Lemma countKind_cons kind message messages :
  countKind kind (message :: messages)
  = ((if bool_decide (definedAs message = Some kind) then 1 else 0)
     + countKind kind messages)%nat.
Proof. unfold countKind. cbn [List.filter]. by destruct (bool_decide _). Qed.

Lemma countDefined_cons message messages :
  countDefined (message :: messages)
  = ((if bool_decide (is_Some (definedAs message)) then 1 else 0)
     + countDefined messages)%nat.
Proof. unfold countDefined. cbn [List.filter]. by destruct (bool_decide _). Qed.

(** One step of the loop on a message that the loop completes. *)
Lemma addHistory_cons message rest st st' :
  addHistory createGeminiPart (message :: rest) st = inr st' →
  ∃ st1,
    addHistory createGeminiPart rest st1 = inr st'
    ∧ (∀ kind,
         counterOf kind st1
         = ((if bool_decide (definedAs message = Some kind) then 1 else 0)
            + counterOf kind st)%nat)
    ∧ hsDefinitions st1
      = hsDefinitions st
        ++ match definedAs message with
           | Some kind =>
               [{| defKey := keyOf kind (S (counterOf kind st));
                   defDefinition := trim (interp (hm_definition message)) |}]
           | None => []
           end.
Proof.
  cbn [addHistory]. unfold definedAs.
  destruct (bool_decide (hm_contentType message = js "text") && truthy (hm_text message)).
  - cbv zeta. intros Hrun. eexists. split; [exact Hrun|].
    cbn [hsDefinitions hsTextCount hsImageCount].
    destruct (hasDefinition message).
    + split; [by intros []|done].
    + split; [by intros []|by rewrite app_nil_r].
  - destruct (bool_decide (hm_contentType message = js "imageUrl")
              || bool_decide (hm_contentType message = js "imageBase64")).
    + destruct (createGeminiPart message) as [error|geminiPart]; [done|].
      cbv zeta. intros Hrun. eexists. split; [exact Hrun|].
      cbn [hsDefinitions hsTextCount hsImageCount].
      destruct (hasDefinition message).
      * split; [by intros []|done].
      * split; [by intros []|by rewrite app_nil_r].
    + intros Hrun. exists st. split; [done|].
      split; [by intros []|by rewrite app_nil_r].
Qed.

(** The definitions the loop adds, one by one. *)
Lemma addHistory_definitions messageHistory :
  ∀ st st',
    addHistory createGeminiPart messageHistory st = inr st' →
    ∃ added,
      hsDefinitions st' = hsDefinitions st ++ added
      ∧ length added = countDefined messageHistory
      ∧ (∀ kind, counterOf kind st'
                 = (counterOf kind st + countKind kind messageHistory)%nat)
      ∧ ∀ pre message post kind,
          messageHistory = pre ++ message :: post →
          definedAs message = Some kind →
          added !! countDefined pre
          = Some {| defKey := keyOf kind (counterOf kind st + countKind kind pre + 1);
                    defDefinition := trim (interp (hm_definition message)) |}.
Proof.
  induction messageHistory as [|m rest IH]; intros st st' Hrun.
  - cbn in Hrun. injection Hrun as <-. exists []. rewrite app_nil_r.
    split_and!; [done|done|intros; unfold countKind; cbn; lia|].
    intros [|? ?] ? ? ? Habs; discriminate Habs.
  - apply addHistory_cons in Hrun as (st1 & Hrun & Hcount & Hdefs).
    apply IH in Hrun as (added & Hadded & Hlen & Hcounters & Hkeys).
    exists (match definedAs m with
            | Some kind =>
                [{| defKey := keyOf kind (S (counterOf kind st));
                    defDefinition := trim (interp (hm_definition m)) |}]
            | None => []
            end ++ added).
    split_and!.
    + by rewrite Hadded, Hdefs, <- app_assoc.
    + rewrite length_app, Hlen, countDefined_cons.
      destruct (definedAs m) as [k|]; [|done].
      rewrite bool_decide_eq_true_2 by by eexists. done.
    + intros kind. rewrite Hcounters, Hcount, countKind_cons. lia.
    + intros [|m' pre] message post kind Heq Hkind.
      * injection Heq as -> ->. rewrite Hkind. cbn.
        unfold countKind. cbn. do 3 f_equal; lia.
      * injection Heq as -> ->.
        rewrite countDefined_cons, countKind_cons.
        specialize (Hkeys pre message post kind eq_refl Hkind).
        rewrite Hcount in Hkeys.
        destruct (definedAs m') as [k|] eqn:Hm'.
        -- rewrite (bool_decide_eq_true_2 (is_Some (Some k))) by by eexists.
           cbn [app Nat.add]. rewrite lookup_cons. rewrite Hkeys.
           do 3 f_equal; lia.
        -- rewrite (bool_decide_eq_false_2 (is_Some None)) by by intros [? ?].
           cbn [app Nat.add]. rewrite Hkeys. do 3 f_equal; lia.
Qed.

End InputDefinitions.
(** The state of the loop before the first message. *)
Definition noHistory {G} : Gemini.historyState G :=
  {| Gemini.hsContents := []; Gemini.hsDefinitions := [];
     Gemini.hsImageCount := 0; Gemini.hsTextCount := 0 |}.

(** A user text with a definition. *)
Definition moodMessage : Gemini.historyMessage :=
  {| Gemini.hm_contentType := js "text"; Gemini.hm_role := js "user";
     Gemini.hm_text := Some (js "at night"); Gemini.hm_definition := Some (js "the mood");
     Gemini.hm_imageBase64 := None; Gemini.hm_imageUrl := None;
     Gemini.hm_mimeType := None |}.

(** A history with a text without definition, two texts and an image with
    one, and a model turn. *)
Definition describedHistory : list Gemini.historyMessage :=
  [ {| Gemini.hm_contentType := js "text"; Gemini.hm_role := js "user";
       Gemini.hm_text := Some (js "hello"); Gemini.hm_definition := None;
       Gemini.hm_imageBase64 := None; Gemini.hm_imageUrl := None;
       Gemini.hm_mimeType := None |};
    {| Gemini.hm_contentType := js "text"; Gemini.hm_role := js "user";
       Gemini.hm_text := Some (js "a red car"); Gemini.hm_definition := Some (js " the subject ");
       Gemini.hm_imageBase64 := None; Gemini.hm_imageUrl := None;
       Gemini.hm_mimeType := None |};
    {| Gemini.hm_contentType := js "text"; Gemini.hm_role := js "model";
       Gemini.hm_text := Some (js "understood"); Gemini.hm_definition := Some (js "ignored");
       Gemini.hm_imageBase64 := None; Gemini.hm_imageUrl := None;
       Gemini.hm_mimeType := None |};
    {| Gemini.hm_contentType := js "imageUrl"; Gemini.hm_role := js "user";
       Gemini.hm_text := None; Gemini.hm_definition := Some (js "the background");
       Gemini.hm_imageBase64 := None;
       Gemini.hm_imageUrl := Some (js "https://img.example/a.png");
       Gemini.hm_mimeType := None |};
    moodMessage ].

(** An image helper that makes a part of the URL of the message. *)
Definition partOfUrl (message : Gemini.historyMessage) : jsError + jsstring :=
  match Gemini.hm_imageUrl message with
  | Some url => inr url
  | None => inl (mkError (js "no image"))
  end.

Example describedHistory_definitions :
  match Gemini.addHistory partOfUrl describedHistory noHistory with
  | inr st => Some (Gemini.hsDefinitions st)
  | inl _ => None
  end
  = Some [ {| Gemini.defKey := js "[TEXT_1]"; Gemini.defDefinition := js "the subject" |};
          {| Gemini.defKey := js "[IMAGE_1]"; Gemini.defDefinition := js "the background" |};
          {| Gemini.defKey := js "[TEXT_2]"; Gemini.defDefinition := js "the mood" |} ].
Proof. vm_compute. reflexivity. Qed.

Example describedHistory_block :
  ∃ contents last,
    Gemini.buildContents partOfUrl describedHistory (js "Draw it.") = inr contents
    ∧ length contents = 6%nat
    ∧ contents !! 5%nat = Some last
    ∧ Gemini.entryRole last = js "user"
    ∧ Gemini.entryParts last
      = [Gemini.TextPart
           (js "INPUT DEFINITIONS:" ++ [0x0A]
            ++ [0x60] ++ js "[TEXT_1]" ++ [0x60] ++ js " : the subject" ++ [0x0A]
            ++ [0x60] ++ js "[IMAGE_1]" ++ [0x60] ++ js " : the background" ++ [0x0A]
            ++ [0x60] ++ js "[TEXT_2]" ++ [0x60] ++ js " : the mood" ++ [0x0A]
            ++ js "---" ++ [0x0A] ++ js "Draw it.")].
Proof. eexists _, _. vm_compute. done. Qed.

(** X19. The numbering of the input definitions of a generateImage request.
    A message of the history gets a definition when it has the role [user],
    a definition that is not blank, and yields a part (a text message with a
    text, or an image message).  The definitions are listed in the order of
    their messages, each with its definition trimmed, under the key
    [[TEXT_n]] or [[IMAGE_n]], where [n] counts, from 1, the messages of the
    same kind that got a definition up to this one: texts and images are
    numbered separately, and messages without a definition are not counted.
    The definitions block is put before the current message exactly when
    there is at least one definition. *)
Theorem inputDefinitions_numbering {G : Type}
    (createGeminiPart : Gemini.historyMessage → jsError + G)
    (messageHistory : list Gemini.historyMessage) (st : Gemini.historyState G) :
  Gemini.addHistory createGeminiPart messageHistory noHistory = inr st →
  length (Gemini.hsDefinitions st) = countDefined messageHistory
  ∧ (∀ pre message post kind,
       messageHistory = pre ++ message :: post →
       definedAs message = Some kind →
       Gemini.hsDefinitions st !! countDefined pre
       = Some {| Gemini.defKey := keyOf kind (countKind kind pre + 1);
                 Gemini.defDefinition :=
                   trim (interp (Gemini.hm_definition message)) |})
  ∧ (∀ currentMessage,
       Gemini.buildContents createGeminiPart messageHistory currentMessage
       = inr (Gemini.hsContents st
              ++ match (match Gemini.hsDefinitions st with
                        | [] => currentMessage
                        | _ :: _ =>
                            Gemini.definitionsBlock (Gemini.hsDefinitions st)
                            ++ currentMessage
                        end) with
                 | [] => []
                 | c :: text =>
                     [{| Gemini.entryRole := js "user";
                         Gemini.entryParts := [Gemini.TextPart (c :: text)] |}]
                 end)).
Proof.
  intros Hrun.
  destruct (addHistory_definitions createGeminiPart messageHistory noHistory st Hrun)
    as (added & Hdefs & Hlen & _ & Hkeys).
  cbn [noHistory Gemini.hsDefinitions app] in Hdefs. subst added.
  split_and!.
  - exact Hlen.
  - intros pre message post kind Heq Hkind.
    rewrite (Hkeys pre message post kind Heq Hkind).
    by destruct kind.
  - intros currentMessage. unfold Gemini.buildContents.
    change {| Gemini.hsContents := []; Gemini.hsDefinitions := [];
              Gemini.hsImageCount := 0; Gemini.hsTextCount := 0 |}
      with (@noHistory G).
    rewrite Hrun. cbv zeta.
    destruct (Gemini.hsDefinitions st) as [|d ds].
    + cbn [length bool_decide]. rewrite bool_decide_eq_false_2 by lia.
      destruct currentMessage; [by rewrite app_nil_r|done].
    + rewrite bool_decide_eq_true_2 by (cbn; lia).
      destruct (Gemini.definitionsBlock (d :: ds) ++ currentMessage);
        [by rewrite app_nil_r|done].
Qed.

(** The third definition of the history above is the second text. *)
Lemma inputDefinitions_numbering_witness :
  ∃ st,
    Gemini.addHistory partOfUrl describedHistory noHistory = inr st
    ∧ Gemini.hsDefinitions st !! 2%nat
      = Some {| Gemini.defKey := js "[TEXT_2]"; Gemini.defDefinition := js "the mood" |}.
Proof.
  eexists. split; [vm_compute; reflexivity|].
  match goal with
  | |- Gemini.hsDefinitions ?st !! _ = _ =>
      assert (Gemini.addHistory partOfUrl describedHistory noHistory = inr st) as Hrun
        by (vm_compute; reflexivity)
  end.
  assert (definedAs moodMessage = Some TextDefinition) as Hkind
    by (vm_compute; reflexivity).
  pose proof (proj1 (proj2 (inputDefinitions_numbering partOfUrl describedHistory _ Hrun))
                (take 4 describedHistory) moodMessage [] TextDefinition eq_refl Hkind)
    as Hkey.
  vm_compute in Hkey. vm_compute. exact Hkey.
Defined.

(** ** generateTTS: the voice of single-speaker mode *)

(** The three values of [voiceName] that ask for a random voice. *)
Definition randomMarkers : list jsstring :=
  [js "__random__"; js "__random_male__"; js "__random_female__"].

Lemma randomCategory_marker key :
  is_Some (randomCategory key) ↔ key ∈ randomMarkers.
Proof.
  unfold randomCategory, randomMarkers. rewrite !elem_of_cons, elem_of_nil.
  repeat case_decide; split; intros Hkey; try (by eexists); try tauto.
  by destruct Hkey.
Qed.

Lemma allVoices_no_marker v : v ∈ Voices.allVoices → v ∉ randomMarkers.
Proof.
  intros Hv Hm. revert Hv. unfold randomMarkers in Hm.
  rewrite !elem_of_cons, elem_of_nil in Hm.
  destruct Hm as [->|[->|[->|[]]]]; apply (bool_decide_unpack _); vm_compute; reflexivity.
Qed.

Lemma randomCategory_subset key pool v :
  randomCategory key = Some pool → v ∈ pool → v ∈ Voices.allVoices.
Proof.
  unfold randomCategory. repeat case_decide; intros [= <-] Hv; [done|..];
    unfold Voices.allVoices; rewrite elem_of_app; auto.
Qed.

Example singleVoice_random_male :
  Gemini.singleVoice (λ _, 1 # 2)%Q (js "__random_male__") Gemini.noVoiceUsed
  = (inr (Some (js "Algenib")),
     {| Gemini.usedVoices := ∅; Gemini.randomCalls := 1 |}).
Proof. vm_compute. reflexivity. Qed.

(** X20. The voice sent in single-speaker mode.  A voice name other than
    the three random markers is sent as entered, and [Math.random] is not
    called.  For a marker, [Math.random] is called once and the voice sent
    is a voice of the pool the marker stands for (all voices, the male or
    the female ones): it is never undefined and never one of the markers
    themselves.  The same holds for every voice assigned in multi-speaker
    mode. *)
Theorem tts_voice_is_a_voice (random : nat → Q) :
  (∀ k, (0 <= random k)%Q ∧ (random k < 1)%Q) →
  (∀ voiceName st,
     ∃ v st',
       Gemini.singleVoice random voiceName st = (inr (Some v), st')
       ∧ Gemini.usedVoices st' = Gemini.usedVoices st
       ∧ match randomCategory voiceName with
         | Some pool =>
             v ∈ pool ∧ v ∈ Voices.allVoices ∧ (v ∉ randomMarkers)
             ∧ Gemini.randomCalls st' = S (Gemini.randomCalls st)
         | None => v = voiceName ∧ Gemini.randomCalls st' = Gemini.randomCalls st
         end)
  ∧ (∀ speakers configs c,
       Gemini.speakerVoiceConfigs random speakers = inr configs →
       c ∈ configs →
       ∃ v sp, Gemini.cfgVoiceName c = Some v ∧ sp ∈ speakers
               ∧ Gemini.cfgSpeaker c = Gemini.speakerLabel sp
               ∧ (v = Gemini.voiceName sp ∧ (v ∉ randomMarkers)
                  ∨ v ∈ Voices.allVoices ∧ (v ∉ randomMarkers)
                    ∧ Gemini.voiceName sp ∈ randomMarkers)).
Proof.
  intros Hrange. split.
  - intros voiceName st. unfold Gemini.singleVoice, randomCategory.
    repeat case_decide.
    1-3: match goal with
         | |- context [Gemini.randomElement _ ?pool _] =>
             destruct (randomElement_elem_of random Hrange pool st) as (v & -> & Hv);
               [done|];
             exists v; eexists; split; [reflexivity|];
             cbn [Gemini.usedVoices Gemini.randomCalls];
             assert (v ∈ Voices.allVoices) as Hall
               by first [done | unfold Voices.allVoices; rewrite elem_of_app; auto];
             split_and!; [done|done|done|by apply allVoices_no_marker|done]
         end.
    exists voiceName, st. by split_and!.
  - intros speakers configs c Hrun Hc.
    destruct (assignVoices_run random Hrange speakers Gemini.noVoiceUsed)
      as (voices & st' & Hassign & Hlen & _ & Hall).
    unfold Gemini.speakerVoiceConfigs in Hrun. rewrite Hassign in Hrun.
    cbn [fst] in Hrun. injection Hrun as <-.
    apply list_elem_of_lookup in Hc as [i Hi].
    apply lookup_zip_with_Some in Hi as (sp & v & -> & Hsp & Hv).
    exists v, sp. cbn [configOf Gemini.cfgVoiceName Gemini.cfgSpeaker].
    split_and!; [done|by eapply list_elem_of_lookup_2|done|].
    specialize (Hall i sp v Hsp Hv). unfold voiceChoice in Hall.
    destruct (randomCategory (Gemini.voiceName sp)) as [pool|] eqn:Hcat.
    + right. destruct Hall as [Hpool _].
      assert (v ∈ Voices.allVoices) as Hin by by eapply randomCategory_subset.
      split_and!; [done|by apply allVoices_no_marker|].
      apply randomCategory_marker. by rewrite Hcat.
    + left. split; [done|]. subst v. intros Hm.
      apply randomCategory_marker in Hm. rewrite Hcat in Hm. by destruct Hm.
Qed.

(** A random male voice. *)
Lemma tts_voice_is_a_voice_witness :
  ∃ v st',
    Gemini.singleVoice (λ _, 1 # 2)%Q (js "__random_male__") Gemini.noVoiceUsed
    = (inr (Some v), st')
    ∧ v ∈ Voices.maleVoices.
Proof.
  destruct (proj1 (tts_voice_is_a_voice (λ _, 1 # 2)%Q
                     (λ k, conj (ltac:(unfold Qle; cbn; lia) : (0 <= 1 # 2)%Q)
                                (eq_refl : (1 # 2 < 1)%Q)))
              (js "__random_male__") Gemini.noVoiceUsed)
    as (v & st' & Hrun & _ & Hcat).
  exists v, st'. split; [exact Hrun|].
  change (randomCategory (js "__random_male__")) with (Some Voices.maleVoices) in Hcat.
  exact (proj1 Hcat).
Defined.
